(** * Tabular cleaning and bias analysis: a shallow embedding

    The scripts [3_data_cleaning.py] and [4_distribution_and_bias_analysis.py]
    are linear orchestrations of data-frame operations.  This development
    embeds the data frames they work on and the operations they call, and
    proves the properties stated about them.

    Conventions of the embedding.
    - A float64 cell is an [option Q]: [Some q] is the finite number [q],
      [None] is NaN.  A comparison with NaN is false, and an operation on
      NaN yields NaN.  Infinities are not represented.
    - In the cleaning script (quantiles, fences, imputation, scaling) the
      arithmetic is that of the rationals.  In the analyzer, whose flags
      compare computed percentages and ratios with thresholds, the float64
      operations are a parameter ([Float64]); [binary64] instantiates them
      with IEEE 754 arithmetic.
    - An object (text) cell is an [option string]: [None] is the missing
      marker.
    - A data frame is the ordered list of its named columns; rows are
      positional (the default integer index). *)

From Stdlib Require Import String Ascii List ZArith QArith Qround Bool Arith.
From Stdlib Require Import Lia Lqa Sorting.Sorted Qabs.
From Stdlib Require Floats.PrimFloat Floats.SpecFloat Floats.FloatOps.
From Stdlib Require Numbers.Cyclic.Int63.Uint63.
Import ListNotations.

Local Close Scope Q_scope.
Local Open Scope list_scope.

(* ================================================================== *)
(** * Part I: the embedding *)
(* ================================================================== *)

(** ** Errors raised by the scripts *)

Inductive exn :=
| KeyError (key : string)
| IndexError
| ValueError.

Inductive result (A : Type) :=
| Ok (a : A)
| Raise (e : exn).

Arguments Ok {A} a.
Arguments Raise {A} e.

Definition bind {A B} (m : result A) (k : A -> result B) : result B :=
  match m with
  | Ok a => k a
  | Raise e => Raise e
  end.

Notation "'do' x <- m ; k" := (bind m (fun x => k))
  (at level 10, x name, m at level 100, k at level 200).

(** ** Sorting, as [numpy.sort] and the sorted labels of pandas *)

Section Sort.
Variable A : Type.
Variable leb : A -> A -> bool.

Fixpoint insert (x : A) (l : list A) : list A :=
  match l with
  | [] => [x]
  | y :: t => if leb x y then x :: l else y :: insert x t
  end.

Fixpoint sort (l : list A) : list A :=
  match l with
  | [] => []
  | x :: t => insert x (sort t)
  end.
End Sort.

Arguments insert {A} leb x l.
Arguments sort {A} leb l.

(** ** Cells and columns *)

(** A float64 value. *)
Definition num := option Q.

Definition fadd (a b : num) : num :=
  match a, b with Some x, Some y => Some (x + y)%Q | _, _ => None end.
Definition fsub (a b : num) : num :=
  match a, b with Some x, Some y => Some (x - y)%Q | _, _ => None end.
Definition fmul (a b : num) : num :=
  match a, b with Some x, Some y => Some (x * y)%Q | _, _ => None end.
(** Division by zero gives a non-finite float, which the embedding does not
    tell apart from NaN. *)
Definition fdiv (a b : num) : num :=
  match a, b with
  | Some x, Some y => if Qeq_bool y 0%Q then None else Some (x / y)%Q
  | _, _ => None
  end.

Definition Qltb (x y : Q) : bool := negb (Qle_bool y x).

(** [a < b] and [a > b] on floats: false as soon as one side is NaN. *)
Definition flt (a b : num) : bool :=
  match a, b with Some x, Some y => Qltb x y | _, _ => false end.
Definition fgt (a b : num) : bool := flt b a.

Inductive column :=
| NumCol (xs : list num)               (* a numeric dtype *)
| ObjCol (xs : list (option string))   (* dtype object *)
| BoolCol (xs : list bool).            (* dtype bool *)

Definition DataFrame := list (string * column).

Definition col_length (c : column) : nat :=
  match c with
  | NumCol xs => length xs
  | ObjCol xs => length xs
  | BoolCol xs => length xs
  end.

(** [len(df)] *)
Definition nrows (df : DataFrame) : nat :=
  match df with
  | [] => 0
  | (_, c) :: _ => col_length c
  end.

(** [df.columns] *)
Definition columns (df : DataFrame) : list string := map fst df.

(** The invariants of a table: unique column names, uniform row count. *)
Definition well_formed (df : DataFrame) : Prop :=
  NoDup (columns df) /\ forall n c, In (n, c) df -> col_length c = nrows df.

(** [df[name]] *)
Fixpoint get_col (name : string) (df : DataFrame) : option column :=
  match df with
  | [] => None
  | (n, c) :: rest => if String.eqb n name then Some c else get_col name rest
  end.

(** [df[name] = f(df[name])]: assignment to an existing column. *)
Definition update_col (name : string) (f : column -> column) (df : DataFrame)
  : DataFrame :=
  map (fun nc => if String.eqb (fst nc) name then (fst nc, f (snd nc)) else nc) df.

(** [df.select_dtypes(include=[np.number]).columns] *)
Definition numerical_cols (df : DataFrame) : list string :=
  flat_map (fun nc => match snd nc with NumCol _ => [fst nc] | _ => [] end) df.

(** [df.select_dtypes(include=['object']).columns] *)
Definition categorical_cols (df : DataFrame) : list string :=
  flat_map (fun nc => match snd nc with ObjCol _ => [fst nc] | _ => [] end) df.

(** The float series behind a numeric column (empty for any other). *)
Definition num_values (df : DataFrame) (name : string) : list num :=
  match get_col name df with
  | Some (NumCol xs) => xs
  | _ => []
  end.

(** [s.dropna()] *)
Definition dropna {A} (xs : list (option A)) : list A :=
  flat_map (fun c => match c with Some v => [v] | None => [] end) xs.

(** [s.isnull().sum()] *)
Definition count_null {A} (xs : list (option A)) : nat :=
  length (filter (fun c => match c with None => true | Some _ => false end) xs).

(** [mask.sum()] on a boolean series. *)
Definition count_true (mask : list bool) : nat :=
  length (filter (fun b => b) mask).

(** [xs[mask]]: boolean indexing. *)
Fixpoint bool_index {A} (mask : list bool) (xs : list A) : list A :=
  match mask, xs with
  | b :: m, x :: t => if b then x :: bool_index m t else bool_index m t
  | _, _ => []
  end.

(** [df[mask]] *)
Definition take_rows (mask : list bool) (df : DataFrame) : DataFrame :=
  map (fun nc =>
         (fst nc,
          match snd nc with
          | NumCol xs => NumCol (bool_index mask xs)
          | ObjCol xs => ObjCol (bool_index mask xs)
          | BoolCol xs => BoolCol (bool_index mask xs)
          end)) df.

(* ------------------------------------------------------------------ *)
(** ** The outlier engine ([3_data_cleaning.py], part 5) *)
(* ------------------------------------------------------------------ *)

(** Linear interpolation between closest ranks at the fractional position
    [pos] of the sorted sample [s]. *)
Definition lerp_at (s : list Q) (pos : Q) : Q :=
  let i := Z.to_nat (Qfloor pos) in
  let t := (pos - inject_Z (Qfloor pos))%Q in
  let a := nth i s 0%Q in
  let b := nth (Nat.min (S i) (length s - 1)) s 0%Q in
  (a + (b - a) * t)%Q.

(** [s.quantile(q)]: missing cells are skipped, an empty sample gives NaN. *)
Definition quantile (xs : list num) (q : Q) : num :=
  match sort Qle_bool (dropna xs) with
  | [] => None
  | s => Some (lerp_at s (q * inject_Z (Z.of_nat (length s - 1)))%Q)
  end.

(** [detect_outliers_iqr(df, column)] *)
Definition detect_outliers_iqr (df : DataFrame) (column : string)
  : list bool * num * num :=
  let Q1 := quantile (num_values df column) 0.25%Q in
  let Q3 := quantile (num_values df column) 0.75%Q in
  let IQR := fsub Q3 Q1 in
  let lower_bound := fsub Q1 (fmul (Some 1.5%Q) IQR) in
  let upper_bound := fadd Q3 (fmul (Some 1.5%Q) IQR) in
  let outliers :=
    map (fun v => flt v lower_bound || fgt v upper_bound) (num_values df column) in
  (outliers, lower_bound, upper_bound).

(** [df.loc[cond(df[col]), col] = value] on a numeric column. *)
Definition loc_set (df : DataFrame) (col : string) (cond : num -> bool)
  (value : num) : DataFrame :=
  update_col col
    (fun c => match c with
              | NumCol xs => NumCol (map (fun v => if cond v then value else v) xs)
              | _ => c
              end) df.

(** The body of the first loop of [handle_outliers]; the accumulator is
    [(df_cleaned, total_outliers)]. *)
Definition outlier_step (method : string) (acc : DataFrame * nat) (col : string)
  : DataFrame * nat :=
  let '(df_cleaned, total_outliers) := acc in
  let '(outliers, lower_bound, upper_bound) := detect_outliers_iqr df_cleaned col in
  let outlier_count := count_true outliers in
  if 0 <? outlier_count then
    let df_cleaned :=
      if String.eqb method "cap" then
        let df1 := loc_set df_cleaned col (fun v => flt v lower_bound) lower_bound in
        loc_set df1 col (fun v => fgt v upper_bound) upper_bound
      else df_cleaned in
    (df_cleaned, total_outliers + outlier_count)
  else acc.

(** [mask | outliers] *)
Fixpoint mask_or (m1 m2 : list bool) : list bool :=
  match m1, m2 with
  | a :: t1, b :: t2 => (a || b) :: mask_or t1 t2
  | _, _ => []
  end.

(** [handle_outliers(df, method)].  The script returns the table and prints
    the total; both are returned here.  With method [remove] pandas
    combines the masks and selects the rows by row label; rows are
    positional here, which is what the code does on a table with the
    default index (one read from a file), and not on one whose labels have
    gaps. *)
Definition handle_outliers (df : DataFrame) (method : string)
  : DataFrame * nat :=
  let df_cleaned := df in
  let numerical_cols := numerical_cols df_cleaned in
  let '(df_cleaned, total_outliers) :=
    fold_left (outlier_step method) numerical_cols (df_cleaned, 0) in
  let df_cleaned :=
    if String.eqb method "remove" then
      let mask :=
        fold_left
          (fun mask col => mask_or mask (fst (fst (detect_outliers_iqr df_cleaned col))))
          numerical_cols (repeat false (nrows df_cleaned)) in
      take_rows (map negb mask) df_cleaned
    else df_cleaned in
  (df_cleaned, total_outliers).

(* ------------------------------------------------------------------ *)
(** ** The imputer ([3_data_cleaning.py], part 3) *)
(* ------------------------------------------------------------------ *)

(** [s.isnull().sum()] of a column; a boolean column has no missing cell. *)
Definition col_count_null (c : column) : nat :=
  match c with
  | NumCol xs => count_null xs
  | ObjCol xs => count_null xs
  | BoolCol _ => 0
  end.

(** [df.isnull().sum().sum()] *)
Definition total_missing (df : DataFrame) : nat :=
  fold_right (fun nc acc => col_count_null (snd nc) + acc) 0 df.

(** [s.median()]: the middle of the non-missing values, the mean of the two
    middle ones when their number is even; NaN when there is none. *)
Definition median (xs : list num) : num := quantile xs 0.5%Q.

(** [s.fillna(value)]; filling with NaN changes nothing. *)
Definition fillna {A} (value : option A) (xs : list (option A))
  : list (option A) :=
  match value with
  | None => xs
  | Some v => map (fun c => match c with None => Some v | Some _ => c end) xs
  end.

(** The distinct elements of a list in first-seen order. *)
Fixpoint unique {A} (eqb : A -> A -> bool) (xs : list A) : list A :=
  match xs with
  | [] => []
  | x :: t => x :: filter (fun y => negb (eqb y x)) (unique eqb t)
  end.

(** [s.value_counts()[v]] on the non-missing values. *)
Definition occurrences (v : string) (vals : list string) : nat :=
  length (filter (String.eqb v) vals).

(** [s.mode()]: the most frequent non-missing values, sorted. *)
Definition mode (xs : list (option string)) : list string :=
  let vals := dropna xs in
  let best := list_max (map (fun v => occurrences v vals) vals) in
  sort String.leb
    (filter (fun v => occurrences v vals =? best) (unique String.eqb vals)).

(** [s[0]] on a series with the default index. *)
Definition first_item {A} (s : list A) : result A :=
  match s with
  | x :: _ => Ok x
  | [] => Raise (KeyError "0")
  end.

(** The body of the loop over numerical columns.  The in-place [fillna] on
    [df_cleaned[col]] writes through to the frame (pandas before 3.0). *)
Definition impute_numerical (df_cleaned : DataFrame) (col : string)
  : DataFrame :=
  match get_col col df_cleaned with
  | Some (NumCol xs) =>
      if 0 <? count_null xs then
        let median_value := median xs in
        update_col col (fun _ => NumCol (fillna median_value xs)) df_cleaned
      else df_cleaned
  | _ => df_cleaned
  end.

(** The body of the loop over categorical columns. *)
Definition impute_categorical (df_cleaned : DataFrame) (col : string)
  : result DataFrame :=
  match get_col col df_cleaned with
  | Some (ObjCol xs) =>
      if 0 <? count_null xs then
        do mode_value <- first_item (mode xs);
        Ok (update_col col (fun _ => ObjCol (fillna (Some mode_value) xs))
              df_cleaned)
      else Ok df_cleaned
  | _ => Ok df_cleaned
  end.

(** [handle_missing_values(df)] *)
Definition handle_missing_values (df : DataFrame) : result DataFrame :=
  if total_missing df =? 0 then Ok df
  else
    let df_cleaned := df in
    let df_cleaned :=
      fold_left impute_numerical (numerical_cols df_cleaned) df_cleaned in
    fold_left (fun r col => do d <- r; impute_categorical d col)
      (categorical_cols df_cleaned) (Ok df_cleaned).

(* ------------------------------------------------------------------ *)
(** ** Duplicate removal ([3_data_cleaning.py], part 4) *)
(* ------------------------------------------------------------------ *)

(** A cell of any column, for comparing whole rows. *)
Inductive value :=
| VNum (q : Q)
| VStr (s : string)
| VBool (b : bool).

Definition cell := option value.

Definition cells (c : column) : list cell :=
  match c with
  | NumCol xs => map (option_map VNum) xs
  | ObjCol xs => map (option_map VStr) xs
  | BoolCol xs => map (fun b => Some (VBool b)) xs
  end.

Definition value_eqb (a b : value) : bool :=
  match a, b with
  | VNum x, VNum y => Qeq_bool x y
  | VStr x, VStr y => String.eqb x y
  | VBool x, VBool y => Bool.eqb x y
  | _, _ => false
  end.

(** Two missing cells count as equal when rows are compared. *)
Definition cell_eqb (a b : cell) : bool :=
  match a, b with
  | Some x, Some y => value_eqb x y
  | None, None => true
  | _, _ => false
  end.

Fixpoint row_eqb (r1 r2 : list cell) : bool :=
  match r1, r2 with
  | [], [] => true
  | a :: t1, b :: t2 => cell_eqb a b && row_eqb t1 t2
  | _, _ => false
  end.

(** Row [i] of a table, across all columns. *)
Definition row (df : DataFrame) (i : nat) : list cell :=
  map (fun nc => nth i (cells (snd nc)) None) df.

Definition rows (df : DataFrame) : list (list cell) :=
  map (row df) (seq 0 (nrows df)).

(** [duplicated(keep='first')]: one pass that remembers the rows seen. *)
Fixpoint duplicated_from (seen rs : list (list cell)) : list bool :=
  match rs with
  | [] => []
  | r :: t =>
      let d := existsb (row_eqb r) seen in
      d :: duplicated_from (if d then seen else r :: seen) t
  end.

(** [df.duplicated()] *)
Definition duplicated (df : DataFrame) : list bool :=
  duplicated_from [] (rows df).

(** [df.drop_duplicates(keep='first')] *)
Definition drop_duplicates (df : DataFrame) : DataFrame :=
  take_rows (map negb (duplicated df)) df.

(** [remove_duplicates(df)] *)
Definition remove_duplicates (df : DataFrame) : DataFrame :=
  let duplicates_count := count_true (duplicated df) in
  if duplicates_count =? 0 then df
  else
    let df_cleaned := drop_duplicates df in
    df_cleaned.

(** Row [i] is an exact duplicate of an earlier row. *)
Definition is_duplicate (df : DataFrame) (i : nat) : bool :=
  existsb (fun j => row_eqb (row df j) (row df i)) (seq 0 i).

(* ------------------------------------------------------------------ *)
(** ** The encoder ([3_data_cleaning.py], part 6) *)
(* ------------------------------------------------------------------ *)

(** A Python dict from category to code, in insertion order; the key
    [None] is the missing marker. *)
Definition mapping := list (option string * Z).

(** [encoding_map]: column name to mapping. *)
Definition EncodingMap := list (string * mapping).

Definition key_eqb (a b : option string) : bool :=
  match a, b with
  | Some x, Some y => String.eqb x y
  | None, None => true
  | _, _ => false
  end.

(** [s.nunique()]: the number of distinct non-missing values. *)
Definition nunique (xs : list (option string)) : nat :=
  length (unique String.eqb (dropna xs)).

(** [s.unique()]: the distinct entries in first-seen order, the missing
    marker among them when the series has a missing entry. *)
Definition unique_entries (xs : list (option string)) : list (option string) :=
  unique key_eqb xs.

Fixpoint dict_get (m : mapping) (k : option string) : option Z :=
  match m with
  | [] => None
  | (k', code) :: rest => if key_eqb k' k then Some code else dict_get rest k
  end.

(** [s.map(mapping)]: an entry without a key becomes NaN. *)
Definition map_series (m : mapping) (xs : list (option string)) : list num :=
  map (fun c => option_map inject_Z (dict_get m c)) xs.

(** [{val: idx for idx, val in enumerate(unique_vals)}] *)
Definition enumerate (vals : list (option string)) : mapping :=
  combine vals (map Z.of_nat (seq 0 (length vals))).

(** [d[key] = v] on a dict with string keys, in insertion order. *)
Fixpoint set_item {V} (d : list (string * V)) (key : string) (v : V)
  : list (string * V) :=
  match d with
  | [] => [(key, v)]
  | (k, v') :: rest =>
      if String.eqb k key then (k, v) :: rest else (k, v') :: set_item rest key v
  end.

(** [d.get(key)] *)
Fixpoint get_item {V} (d : list (string * V)) (key : string) : option V :=
  match d with
  | [] => None
  | (k, v) :: rest => if String.eqb k key then Some v else get_item rest key
  end.

(** The name of the indicator column of a level. *)
Definition indicator_name (prefix level : string) : string :=
  (prefix ++ "_" ++ level)%string.

(** [pd.get_dummies(s, prefix=prefix, drop_first=True)]: one boolean column
    per sorted level but the first; a missing entry is in no level. *)
Definition get_dummies (xs : list (option string)) (prefix : string)
  : DataFrame :=
  let levels := sort String.leb (unique String.eqb (dropna xs)) in
  map (fun level =>
         (indicator_name prefix level,
          BoolCol (map (fun c => match c with
                                 | Some v => String.eqb v level
                                 | None => false
                                 end) xs)))
      (tl levels).

(** [df.drop(col, axis=1)] *)
Definition drop_col (col : string) (df : DataFrame) : DataFrame :=
  filter (fun nc => negb (String.eqb (fst nc) col)) df.

(** The body of the loop of [encode_categorical_variables]; the accumulator
    is [(df_encoded, encoding_map)].  The column is looked up by name.  On
    a table in which an indicator column added by an earlier iteration
    bears the name of the column visited, pandas finds two columns and
    the script stops with a [ValueError]; this error is outside the
    embedding, and the statements about columns that the encoder rewrites
    are made for tables with [fresh_indicator_names], where it cannot
    occur. *)
Definition encode_step (acc : DataFrame * EncodingMap) (col : string)
  : DataFrame * EncodingMap :=
  let '(df_encoded, encoding_map) := acc in
  match get_col col df_encoded with
  | Some (ObjCol xs) =>
      let unique_values := nunique xs in
      if unique_values =? 2 then
        let unique_vals := unique_entries xs in
        let mapping :=
          [(nth 0 unique_vals None, 0%Z); (nth 1 unique_vals None, 1%Z)] in
        (update_col col (fun _ => NumCol (map_series mapping xs)) df_encoded,
         set_item encoding_map col mapping)
      else if unique_values <=? 10 then
        let unique_vals := unique_entries xs in
        let mapping := enumerate unique_vals in
        (update_col col (fun _ => NumCol (map_series mapping xs)) df_encoded,
         set_item encoding_map col mapping)
      else
        let dummies := get_dummies xs col in
        let df_encoded := df_encoded ++ dummies in
        let df_encoded := drop_col col df_encoded in
        (df_encoded, encoding_map)
  | _ => acc
  end.

(** [encode_categorical_variables(df)] *)
Definition encode_categorical_variables (df : DataFrame)
  : DataFrame * EncodingMap :=
  let df_encoded := df in
  let encoding_map : EncodingMap := [] in
  let categorical_cols := categorical_cols df_encoded in
  if length categorical_cols =? 0 then (df_encoded, encoding_map)
  else fold_left encode_step categorical_cols (df_encoded, encoding_map).

(** No column of the table is named like an indicator of one of its
    categorical columns. *)
Definition fresh_indicator_names (df : DataFrame) : Prop :=
  forall col level,
    In col (categorical_cols df) ->
    ~ In (indicator_name col level) (columns df).

(* ------------------------------------------------------------------ *)
(** ** The scaler ([3_data_cleaning.py], part 7) *)
(* ------------------------------------------------------------------ *)

(** The parameters recorded for a column: the dict
    [{'method': ..., 'mean': ..., 'std': ...}] or
    [{'method': ..., 'min': ..., 'max': ...}]. *)
Inductive scaling :=
| Standardize (mean std : num)
| Normalize (min_val max_val : num).

Definition ScalingParams := list (string * scaling).

Definition sum_Q (l : list Q) : Q := fold_right Qplus 0%Q l.

(** [s.mean()]: over the non-missing values, NaN when there is none. *)
Definition mean (xs : list num) : num :=
  match dropna xs with
  | [] => None
  | vals => Some (sum_Q vals / inject_Z (Z.of_nat (length vals)))%Q
  end.

(** [s.min()] and [s.max()] *)
Definition series_min (xs : list num) : num :=
  hd_error (sort Qle_bool (dropna xs)).
Definition series_max (xs : list num) : num :=
  hd_error (rev (sort Qle_bool (dropna xs))).

Section Scaler.
(** The square root of float64 arithmetic is not a rational function; the
    scaler is embedded relative to it. *)
Variable fsqrt : Q -> Q.

(** [s.std()]: the sample standard deviation, NaN below two values. *)
Definition std (xs : list num) : num :=
  let vals := dropna xs in
  match mean xs with
  | Some m =>
      if length vals <=? 1 then None
      else Some (fsqrt (sum_Q (map (fun v => (v - m) * (v - m))%Q vals)
                        / inject_Z (Z.of_nat (length vals - 1))))
  | None => None
  end.

(** The body of the loop of [scale_features]; the accumulator is
    [(df_scaled, scaling_params)].  The arithmetic is that of the
    rationals: the rounding of float64 and the wrap-around of int64 are
    not represented, and statements about scaled cells are limited to
    what holds under both. *)
Definition scale_step (method : string) (acc : DataFrame * ScalingParams)
  (col : string) : DataFrame * ScalingParams :=
  let '(df_scaled, scaling_params) := acc in
  match get_col col df_scaled with
  | Some (NumCol xs) =>
      if String.eqb method "standardize" then
        let mean := mean xs in
        let std := std xs in
        (update_col col
           (fun _ => NumCol (map (fun v => fdiv (fsub v mean) std) xs)) df_scaled,
         set_item scaling_params col (Standardize mean std))
      else if String.eqb method "normalize" then
        let min_val := series_min xs in
        let max_val := series_max xs in
        (update_col col
           (fun _ => NumCol (map (fun v => fdiv (fsub v min_val)
                                             (fsub max_val min_val)) xs))
           df_scaled,
         set_item scaling_params col (Normalize min_val max_val))
      else acc
  | _ => acc
  end.

(** [scale_features(df, method)] *)
Definition scale_features (df : DataFrame) (method : string)
  : DataFrame * ScalingParams :=
  let df_scaled := df in
  let scaling_params : ScalingParams := [] in
  let numerical_cols := numerical_cols df_scaled in
  fold_left (scale_step method) numerical_cols (df_scaled, scaling_params).
End Scaler.

(* ------------------------------------------------------------------ *)
(** ** Distribution and bias analysis
       ([4_distribution_and_bias_analysis.py]) *)
(* ------------------------------------------------------------------ *)

Definition target_col : string := "loan_approval_status".

(** The lines the analyzer prints that a claim speaks of. *)
Inductive event :=
| TargetNotFound (col : string)
| ClassImbalance
| ReasonablyBalanced
| BiasDetected (col : string) (bias_diff : Q)
| NoSignificantBias (col : string).

(** [results['dataset_info']] *)
Record DatasetInfo := {
  info_rows : nat;
  info_columns : nat;
  column_names : list string
}.

(** [results['class_balance']] *)
Record ClassBalance := {
  target_column : string;
  class_counts : list (value * nat);
  class_percentages : list (value * Q);
  imbalance_ratio : num
}.

(** [results['bias_analysis'][col]] *)
Record BiasEntry := {
  approval_rates : list (string * Q);
  bias_difference : Q;
  bias_detected : bool
}.

(** Labels of unlike kinds never meet in one column; they are ordered by
    kind to make the order total. *)
Definition value_leb (a b : value) : bool :=
  match a, b with
  | VNum x, VNum y => Qle_bool x y
  | VStr x, VStr y => String.leb x y
  | VBool x, VBool y => implb x y
  | VNum _, _ => true
  | VBool _, VStr _ => true
  | _, _ => false
  end.

(** [s.value_counts()]: the distinct non-missing values with their counts,
    the most frequent first. *)
Definition value_counts (cs : list cell) : list (value * nat) :=
  let vals := dropna cs in
  sort (fun a b => snd b <=? snd a)
    (map (fun v => (v, length (filter (value_eqb v) vals)))
       (unique value_eqb vals)).

(** [counts.max()] and [counts.min()]: NaN on an empty series. *)
Definition count_max (counts : list nat) : num :=
  match counts with
  | [] => None
  | _ => Some (inject_Z (Z.of_nat (list_max counts)))
  end.

Definition count_min (counts : list nat) : num :=
  match counts with
  | [] => None
  | c :: t => Some (inject_Z (Z.of_nat (fold_right Nat.min c t)))
  end.

(** [max(rates)] and [min(rates)] of Python, on a non-empty sequence. *)
Definition max_rate (rates : list Q) : result Q :=
  match rates with
  | [] => Raise ValueError
  | r :: t => Ok (fold_left (fun acc x => if Qltb acc x then x else acc) t r)
  end.

Definition min_rate (rates : list Q) : result Q :=
  match rates with
  | [] => Raise ValueError
  | r :: t => Ok (fold_left (fun acc x => if Qltb x acc then x else acc) t r)
  end.

(** The rows of [pd.crosstab(feature, target)]: the pairs of a category and
    a target label of the rows where neither is missing. *)
Fixpoint crosstab_pairs (feature : list (option string)) (target : list cell)
  : list (string * value) :=
  match feature, target with
  | Some c :: frest, Some t :: trest => (c, t) :: crosstab_pairs frest trest
  | _ :: frest, _ :: trest => crosstab_pairs frest trest
  | _, _ => []
  end.

(** The float64 operations of the analysis: the division and the
    multiplication behind a percentage, and the subtraction of two rates.
    IEEE arithmetic rounds, so they are not the operations of the
    rationals; a float is written as the rational it denotes, and the
    analyzer is embedded relative to the three operations. *)
Class Float64 := {
  f64_div : Q -> Q -> Q;
  f64_mul : Q -> Q -> Q;
  f64_sub : Q -> Q -> Q
}.

(** The quotient of two floats, one of which may be NaN; as with [fdiv],
    a division by zero gives no number. *)
Definition f64_fdiv {F64 : Float64} (a b : num) : num :=
  match a, b with
  | Some x, Some y => if Qeq_bool y 0%Q then None else Some (f64_div x y)
  | _, _ => None
  end.

(** [count / total * 100] on two counts, as pandas computes a share. *)
Definition percentage {F64 : Float64} (count total : nat) : Q :=
  f64_mul (f64_div (inject_Z (Z.of_nat count)) (inject_Z (Z.of_nat total)))
    100%Q.

(** The cell of the row-normalised crosstab, times 100: the percentage of
    the rows of category [cat] whose target is [label]. *)
Definition crosstab_pct {F64 : Float64} (pairs : list (string * value))
  (cat : string) (label : value) : Q :=
  let in_cat := filter (fun p => String.eqb (fst p) cat) pairs in
  let hits := filter (fun p => value_eqb (snd p) label) in_cat in
  percentage (length hits) (length in_cat).

(** The bias analysis of one feature against the target: the body of the
    [if target_col in self.df.columns] block. *)
Definition bias_entry {F64 : Float64} (feature : list (option string))
  (target : list cell) : result BiasEntry :=
  let pairs := crosstab_pairs feature target in
  let index := sort String.leb (unique String.eqb (map fst pairs)) in
  let labels := sort value_leb (unique value_eqb (map snd pairs)) in
  do approval_col <-
    (if existsb (value_eqb (VStr "Approved")) labels
     then Ok (VStr "Approved")
     else match labels with
          | first :: _ => Ok first
          | [] => Raise IndexError
          end);
  let approval_rates :=
    map (fun category => (category, crosstab_pct pairs category approval_col))
      index in
  do max_rate <- max_rate (map snd approval_rates);
  do min_rate <- min_rate (map snd approval_rates);
  let bias_diff := f64_sub max_rate min_rate in
  Ok {| approval_rates := approval_rates;
        bias_difference := bias_diff;
        bias_detected := Qltb 15 bias_diff |}.

(** [col.lower()] on ASCII letters, and ['id' in s]. *)
Definition lower_ascii (c : ascii) : ascii :=
  let n := nat_of_ascii c in
  if (65 <=? n) && (n <=? 90) then ascii_of_nat (n + 32) else c.

Fixpoint lower (s : string) : string :=
  match s with
  | EmptyString => EmptyString
  | String c rest => String (lower_ascii c) (lower rest)
  end.

Definition contains (needle hay : string) : bool :=
  match String.index 0 needle hay with
  | Some _ => true
  | None => false
  end.

(** [list.remove(x)]: the first occurrence goes. *)
Fixpoint remove_first (x : string) (l : list string) : list string :=
  match l with
  | [] => []
  | y :: t => if String.eqb y x then t else y :: remove_first x t
  end.

(** [self.df[col]] for a categorical feature, and [self.df[target_col]]. *)
Definition feature_values (df : DataFrame) (col : string)
  : list (option string) :=
  match get_col col df with Some (ObjCol xs) => xs | _ => [] end.
Definition target_values (df : DataFrame) : list cell :=
  match get_col target_col df with Some c => cells c | None => [] end.

(** The categorical columns with the target taken out: the first lines of
    [analyze_categorical_bias]. *)
Definition feature_cols (df : DataFrame) : list string :=
  let categorical_cols := categorical_cols df in
  if existsb (String.eqb target_col) categorical_cols
  then remove_first target_col categorical_cols
  else categorical_cols.

Section Analyzer.
(** The statistics of a numerical feature (moments, normality test,
    distribution type) are floating-point computations of the statistics
    library; the analyzer is embedded relative to them. *)
Variable Stats : Type.
Variable describe : list num -> Stats.
Context {F64 : Float64}.

(** [self.results]: a key is present once its stage has stored it. *)
Record Results := {
  dataset_info : option DatasetInfo;
  class_balance : option ClassBalance;
  numerical_distributions : option (list (string * Stats));
  bias_analysis : option (list (string * BiasEntry))
}.

(** The analyzer object: its table, its results, and what it printed. *)
Record Analyzer := {
  self_df : DataFrame;
  self_results : Results;
  self_log : list event
}.

Definition print (self : Analyzer) (e : event) : Analyzer :=
  {| self_df := self_df self;
     self_results := self_results self;
     self_log := self_log self ++ [e] |}.

Definition set_results (self : Analyzer) (r : Results) : Analyzer :=
  {| self_df := self_df self; self_results := r; self_log := self_log self |}.

(** [__init__] followed by [load_data], the table read being given. *)
Definition load_data (data : DataFrame) : Analyzer :=
  {| self_df := data;
     self_results :=
       {| dataset_info :=
            Some {| info_rows := nrows data;
                    info_columns := length data;
                    column_names := columns data |};
          class_balance := None;
          numerical_distributions := None;
          bias_analysis := None |};
     self_log := [] |}.

Definition has_column (df : DataFrame) (name : string) : bool :=
  existsb (String.eqb name) (columns df).

(** [analyze_target_balance] *)
Definition analyze_target_balance (self : Analyzer) : Analyzer :=
  if negb (has_column (self_df self) target_col) then
    print self (TargetNotFound target_col)
  else
    let target := target_values (self_df self) in
    let class_counts := value_counts target in
    let total := length (dropna target) in
    let class_percentages :=
      map (fun vc => (fst vc, percentage (snd vc) total)) class_counts in
    let max_class := count_max (map snd class_counts) in
    let min_class := count_min (map snd class_counts) in
    let imbalance_ratio := f64_fdiv max_class min_class in
    let self :=
      if fgt imbalance_ratio (Some 1.5%Q)
      then print self ClassImbalance
      else print self ReasonablyBalanced in
    let r := self_results self in
    set_results self
      {| dataset_info := dataset_info r;
         class_balance :=
           Some {| target_column := target_col;
                   class_counts := class_counts;
                   class_percentages := class_percentages;
                   imbalance_ratio := imbalance_ratio |};
         numerical_distributions := numerical_distributions r;
         bias_analysis := bias_analysis r |}.

(** [analyze_numerical_distributions] *)
Definition analyze_numerical_distributions (self : Analyzer) : Analyzer :=
  let numerical_cols :=
    filter (fun col => negb (contains "id" (lower col)))
      (numerical_cols (self_df self)) in
  let dists :=
    fold_left
      (fun d col => set_item d col (describe (num_values (self_df self) col)))
      numerical_cols [] in
  let r := self_results self in
  set_results self
    {| dataset_info := dataset_info r;
       class_balance := class_balance r;
       numerical_distributions := Some dists;
       bias_analysis := bias_analysis r |}.

(** The body of the loop of [analyze_categorical_bias]; the accumulator is
    [results['bias_analysis']] with what was printed. *)
Definition bias_step (df : DataFrame)
  (acc : list (string * BiasEntry) * list event) (col : string)
  : result (list (string * BiasEntry) * list event) :=
  let '(analysis, printed) := acc in
  if has_column df target_col then
    do entry <- bias_entry (feature_values df col) (target_values df);
    Ok (set_item analysis col entry,
        printed ++ [if bias_detected entry
                    then BiasDetected col (bias_difference entry)
                    else NoSignificantBias col])
  else Ok acc.

(** What [_plot_categorical_bias] reads: the target column, once for every
    feature it plots. *)
Definition plot_categorical_bias (self : Analyzer)
  (categorical_cols : list string) : result unit :=
  fold_left
    (fun r _ =>
       do _ <- r;
       if has_column (self_df self) target_col then Ok tt
       else Raise (KeyError target_col))
    categorical_cols (Ok tt).

(** [analyze_categorical_bias] *)
Definition analyze_categorical_bias (self : Analyzer) : result Analyzer :=
  let categorical_cols := feature_cols (self_df self) in
  do looped <-
    fold_left (fun r col => do acc <- r; bias_step (self_df self) acc col)
      categorical_cols (Ok ([], []));
  let r := self_results self in
  let self :=
    {| self_df := self_df self;
       self_results :=
         {| dataset_info := dataset_info r;
            class_balance := class_balance r;
            numerical_distributions := numerical_distributions r;
            bias_analysis := Some (fst looped) |};
       self_log := self_log self ++ snd looped |} in
  do _ <- plot_categorical_bias self categorical_cols;
  Ok self.

(** What the Markdown report is made of. *)
Record Report := {
  report_rows : nat;
  report_columns : nat;
  report_target : string;
  report_classes : list (value * nat);
  report_percentages : list (value * Q);
  report_ratio : num;
  report_imbalance_warning : bool;
  report_distributions : list (string * Stats);
  report_bias : list (string * BiasEntry)
}.

(** [self.results[key]] *)
Definition results_item {A} (field : option A) (key : string) : result A :=
  match field with
  | Some a => Ok a
  | None => Raise (KeyError key)
  end.

(** [_create_report_content] *)
Definition create_report_content (self : Analyzer) : result Report :=
  let r := self_results self in
  do info <- results_item (dataset_info r) "dataset_info";
  do balance <- results_item (class_balance r) "class_balance";
  do dists <- results_item (numerical_distributions r) "numerical_distributions";
  do bias <- results_item (bias_analysis r) "bias_analysis";
  Ok {| report_rows := info_rows info;
        report_columns := info_columns info;
        report_target := target_column balance;
        report_classes := class_counts balance;
        report_percentages := class_percentages balance;
        report_ratio := imbalance_ratio balance;
        report_imbalance_warning := fgt (imbalance_ratio balance) (Some 1.5%Q);
        report_distributions := dists;
        report_bias := bias |}.

(** [generate_report]: the content is written to the report file. *)
Definition generate_report (self : Analyzer) : result Report :=
  create_report_content self.

(** [run_analysis], on the table that [load_data] reads. *)
Definition run_analysis (data : DataFrame) : result (Analyzer * Report) :=
  let self := load_data data in
  let self := analyze_target_balance self in
  let self := analyze_numerical_distributions self in
  do self <- analyze_categorical_bias self;
  do report <- generate_report self;
  Ok (self, report).
End Analyzer.

Arguments dataset_info {Stats} r.
Arguments class_balance {Stats} r.
Arguments numerical_distributions {Stats} r.
Arguments bias_analysis {Stats} r.
Arguments self_df {Stats} a.
Arguments self_results {Stats} a.
Arguments self_log {Stats} a.
Arguments load_data {Stats} data.
Arguments analyze_target_balance {Stats F64} self.
Arguments analyze_categorical_bias {Stats F64} self.
Arguments generate_report {Stats} self.
Arguments create_report_content {Stats} self.
Arguments analyze_numerical_distributions {Stats} describe self.
Arguments run_analysis {Stats} describe {F64} data.
Arguments plot_categorical_bias {Stats} self categorical_cols.
Arguments print {Stats} self e.
Arguments set_results {Stats} self r.

(* ------------------------------------------------------------------ *)
(** ** Notions used in the statements

    Some of the definitions below restate what one iteration of a loop
    does to the column it visits; the lemmas of Part II show that the
    loop is this. *)
(* ------------------------------------------------------------------ *)

(** The fences that [detect_outliers_iqr] derives from a series. *)
Definition fences (xs : list num) : num * num :=
  let Q1 := quantile xs 0.25%Q in
  let Q3 := quantile xs 0.75%Q in
  let IQR := fsub Q3 Q1 in
  (fsub Q1 (fmul (Some 1.5%Q) IQR), fadd Q3 (fmul (Some 1.5%Q) IQR)).

(** The two [loc] assignments of the cap branch on one cell. *)
Definition cap_cell (lo hi : num) (v : num) : num :=
  let w := if flt v lo then lo else v in
  if fgt w hi then hi else w.

Definition cap_column (c : column) : column :=
  match c with
  | NumCol xs =>
      let '(lo, hi) := fences xs in
      if 0 <? count_true (map (fun v => flt v lo || fgt v hi) xs)
      then NumCol (map (cap_cell lo hi) xs)
      else c
  | _ => c
  end.

(** What the loop over categorical columns of [handle_missing_values]
    leaves in the column it visits, when it does not raise. *)
Definition fill_mode (c : column) : column :=
  match c with
  | ObjCol xs =>
      if 0 <? count_null xs then
        match mode xs with
        | m :: _ => ObjCol (fillna (Some m) xs)
        | [] => c
        end
      else c
  | _ => c
  end.

(** The tie-break of the specification: among the most frequent
    non-missing values, the one met first in the column. *)
Definition first_seen_mode (xs : list (option string)) : option string :=
  let vals := dropna xs in
  let best := list_max (map (fun v => occurrences v vals) vals) in
  hd_error
    (filter (fun v => occurrences v vals =? best) (unique String.eqb vals)).

(** Every entry of the series is missing. *)
Definition all_missing {A} (xs : list (option A)) : Prop :=
  forall c, In c xs -> c = None.

(** No categorical column with a missing entry is missing throughout. *)
Definition modes_exist (df : DataFrame) : Prop :=
  forall name xs,
    In (name, ObjCol xs) df -> 0 < count_null xs -> exists v, In (Some v) xs.

(** The state of the encoder loop once column [name] has been one-hot
    encoded: its indicator columns [block] stand together in the table, no
    column is called [name], and no mapping is recorded for it. *)
Definition holds_block (block : DataFrame) (name : string)
  (acc : DataFrame * EncodingMap) : Prop :=
  (exists pre post, fst acc = pre ++ block ++ post) /\
  ~ In name (columns (fst acc)) /\
  get_item (snd acc) name = None.

(** The largest and the smallest element of a sequence. *)
Definition largest (m : nat) (l : list nat) : Prop :=
  In m l /\ forall c, In c l -> c <= m.
Definition smallest (m : nat) (l : list nat) : Prop :=
  In m l /\ forall c, In c l -> m <= c.
Definition highest (m : Q) (l : list Q) : Prop :=
  In m l /\ forall r, In r l -> (r <= m)%Q.
Definition lowest (m : Q) (l : list Q) : Prop :=
  In m l /\ forall r, In r l -> (m <= r)%Q.

(** Column names with their lengths: what a cell-wise update leaves alone. *)
Definition shape (df : DataFrame) : list (string * nat) :=
  map (fun nc => (fst nc, col_length (snd nc))) df.

(* ------------------------------------------------------------------ *)
(** ** Example tables *)
(* ------------------------------------------------------------------ *)

Definition age_values : list num :=
  [Some 20%Q; Some 21%Q; None; Some 23%Q; Some 1000%Q].

Definition ages : DataFrame :=
  [("age"%string, NumCol age_values);
   ("city"%string,
    ObjCol [Some "Oslo"%string; None; Some "Rome"%string; Some "Oslo"%string;
            Some "Rome"%string])].

Definition flat : DataFrame :=
  [("score"%string, NumCol [Some 5%Q; Some 5%Q; None; Some 5%Q; Some 5%Q; Some 9%Q])].

Definition visits : DataFrame :=
  [("city"%string,
    ObjCol [Some "Oslo"%string; Some "Rome"%string; Some "Oslo"%string; None; None]);
   ("nights"%string, NumCol [Some 2%Q; Some 3%Q; Some 2%Q; None; None])].

Definition no_income : list num := [None; None; None].

Definition unknown_income : DataFrame :=
  [("income"%string, NumCol no_income);
   ("city"%string, ObjCol [Some "Oslo"%string; None; Some "Oslo"%string])].

Definition pet_values : list (option string) :=
  [Some "dog"%string; Some "cat"%string; None].

Definition pets : DataFrame := [("pet"%string, ObjCol pet_values)].

Definition gender_values : list (option string) :=
  [Some "M"%string; None; Some "F"%string].

Definition flag_values : list (option string) := [Some "yes"%string; None].

Definition grade_values : list (option string) :=
  [Some "B"%string; Some "A"%string; Some "B"%string; Some "C"%string].

Definition school : DataFrame :=
  [("grade"%string, ObjCol grade_values);
   ("campus"%string,
    ObjCol [Some "north"%string; Some "north"%string; Some "north"%string;
            Some "north"%string])].

Definition month_values : list (option string) :=
  map (fun m => Some m)
    ["jan"; "feb"; "mar"; "apr"; "may"; "jun"; "jul"; "aug"; "sep"; "oct";
     "nov"; "feb"; "dec"]%string.

Definition sales : DataFrame :=
  [("month"%string, ObjCol month_values);
   ("units"%string, NumCol (repeat (Some 1%Q) 13))].

Definition loans : DataFrame :=
  [("gender"%string,
    ObjCol (repeat (Some "Male"%string) 10 ++ repeat (Some "Female"%string) 10));
   ("loan_approval_status"%string,
    ObjCol (repeat (Some "Approved"%string) 7 ++ repeat (Some "Rejected"%string) 3
            ++ repeat (Some "Approved"%string) 5
            ++ repeat (Some "Rejected"%string) 5))].

(* ------------------------------------------------------------------ *)
(** ** The label of a distribution
       ([4_distribution_and_bias_analysis.py], [_identify_distribution_type]) *)
(* ------------------------------------------------------------------ *)

(** The entries of [dist_stats] that [_identify_distribution_type] reads;
    the key ['is_normal'] is there only when the normality test was run. *)
Record DistStats := {
  skewness : num;
  kurtosis : num;
  is_normal : option bool
}.

(** [abs(x)] on a float. *)
Definition fabs (a : num) : num := option_map Qabs a.

(** [_identify_distribution_type(stats)] *)
Definition identify_distribution_type (stats : DistStats) : string :=
  let skewness := skewness stats in
  let kurtosis_val := kurtosis stats in
  let is_normal :=
    match is_normal stats with Some b => b | None => false end in
  if is_normal && flt (fabs skewness) (Some 0.5%Q)
     && flt (fabs kurtosis_val) (Some 3%Q)
  then "Normal (Gaussian)"
  else if flt (fabs skewness) (Some 0.5%Q) then "Approximately Normal"
  else if fgt skewness (Some 1%Q)
  then "Right-skewed (Log-normal or Exponential)"
  else if flt skewness (Some (-1)%Q) then "Left-skewed"
  else "Moderately Skewed".

Arguments report_rows {Stats} r.
Arguments report_columns {Stats} r.
Arguments report_imbalance_warning {Stats} r.
Arguments report_bias {Stats} r.

(* ------------------------------------------------------------------ *)
(** ** Further notions used in the statements *)
(* ------------------------------------------------------------------ *)

(** Row [i] holds an outlier in some numerical column. *)
Definition row_flagged (df : DataFrame) (i : nat) : bool :=
  existsb (fun col => nth i (fst (fst (detect_outliers_iqr df col))) false)
    (numerical_cols df).

(** What the loop over numerical columns of [handle_missing_values] leaves
    in the column it visits. *)
Definition fill_median (c : column) : column :=
  match c with
  | NumCol xs =>
      if 0 <? count_null xs then NumCol (fillna (median xs) xs) else c
  | _ => c
  end.

(** The mapping that [encode_categorical_variables] builds for a column
    that it does not one-hot encode. *)
Definition label_mapping (xs : list (option string)) : mapping :=
  let unique_vals := unique_entries xs in
  if nunique xs =? 2
  then [(nth 0 unique_vals None, 0%Z); (nth 1 unique_vals None, 1%Z)]
  else enumerate unique_vals.

(** What the loop of [scale_features] leaves in a column it visits, and
    the parameters it records for it. *)
Definition scale_column (fsqrt : Q -> Q) (method : string) (c : column)
  : column :=
  match c with
  | NumCol xs =>
      if String.eqb method "standardize" then
        NumCol (map (fun v => fdiv (fsub v (mean xs)) (std fsqrt xs)) xs)
      else if String.eqb method "normalize" then
        NumCol (map (fun v => fdiv (fsub v (series_min xs))
                                (fsub (series_max xs) (series_min xs))) xs)
      else c
  | _ => c
  end.

Definition scale_record (fsqrt : Q -> Q) (method : string) (c : column)
  : option scaling :=
  match c with
  | NumCol xs =>
      if String.eqb method "standardize" then
        Some (Standardize (mean xs) (std fsqrt xs))
      else if String.eqb method "normalize" then
        Some (Normalize (series_min xs) (series_max xs))
      else None
  | _ => None
  end.

(** The number of rows of category [cat] that have a target label, and
    the number of those whose target label is [label]. *)
Definition category_total (feature : list (option string))
  (target : list cell) (cat : string) : nat :=
  length (filter (fun row => match row with
                             | (Some c, Some _) => String.eqb c cat
                             | _ => false
                             end)
            (combine feature target)).

Definition category_hits (feature : list (option string))
  (target : list cell) (cat : string) (label : value) : nat :=
  length (filter (fun row => match row with
                             | (Some c, Some v) =>
                                 String.eqb c cat && value_eqb v label
                             | _ => false
                             end)
            (combine feature target)).

(** A target label borne by some row that has a category. *)
Definition label_seen (feature : list (option string)) (target : list cell)
  (label : value) : Prop :=
  exists cat, 1 <= category_hits feature target cat label.

(** The label whose share is the approval rate: ['Approved'] when a row
    bears it, and otherwise the least of the labels. *)
Definition approval_label (feature : list (option string))
  (target : list cell) (label : value) : Prop :=
  (label_seen feature target (VStr "Approved") /\ label = VStr "Approved") \/
  (~ label_seen feature target (VStr "Approved") /\
   label_seen feature target label /\
   forall v, label_seen feature target v -> value_leb label v = true).

(** What the statements use of IEEE rounding, which is monotone and exact
    on the numbers a float64 holds: a share of a count in a total is a
    percentage, the difference of two percentages is one, and a number
    minus itself is zero. *)
Class Float64Laws (F64 : Float64) : Prop := {
  percentage_range :
    forall count total : nat,
      count <= total -> 1 <= total ->
      (0 <= percentage count total <= 100)%Q;
  f64_sub_range :
    forall a b : Q,
      (0 <= b)%Q -> (b <= a)%Q -> (a <= 100)%Q ->
      (0 <= f64_sub a b <= 100)%Q;
  f64_sub_self : forall a : Q, (f64_sub a a == 0)%Q
}.

(** Arithmetic without rounding: the operations of the rationals. *)
Definition unrounded : Float64 :=
  {| f64_div := Qdiv; f64_mul := Qmult; f64_sub := Qminus |}.

(** IEEE 754 binary64 with rounding to nearest, ties to even, as numpy
    computes: the primitive floats.  [float_of_Z] is the conversion of an
    int64 (an integer of magnitude below 2^63 is rounded to the nearest
    float), [float_of_Q] is exact on the rationals that a float64 denotes
    (of magnitude between 2^-1022 and 2^1023), and [Q_of_float] on the
    finite floats. *)
Definition float_of_Z (z : Z) : PrimFloat.float :=
  let a := Z.abs z in
  let k := Z.max 0 (Z.log2 a - 62) in
  let m :=
    FloatOps.Z.ldexp (PrimFloat.of_uint63 (Uint63.of_Z (Z.shiftr a k))) k in
  if (z <? 0)%Z then PrimFloat.opp m else m.

Definition float_of_Q (q : Q) : PrimFloat.float :=
  let r := Qred q in
  PrimFloat.div (float_of_Z (Qnum r)) (float_of_Z (Zpos (Qden r))).

Definition Q_of_float (x : PrimFloat.float) : Q :=
  match FloatOps.Prim2SF x with
  | SpecFloat.S754_finite s m e =>
      let n := if s then Zneg m else Zpos m in
      if (0 <=? e)%Z then inject_Z (n * 2 ^ e)
      else Qred (Qmake n (Pos.pow 2 (Z.to_pos (- e))))
  | _ => 0%Q
  end.

Definition binary64 : Float64 :=
  {| f64_div a b := Q_of_float (PrimFloat.div (float_of_Q a) (float_of_Q b));
     f64_mul a b := Q_of_float (PrimFloat.mul (float_of_Q a) (float_of_Q b));
     f64_sub a b := Q_of_float (PrimFloat.sub (float_of_Q a) (float_of_Q b)) |}.

(* ------------------------------------------------------------------ *)
(** ** Further example tables *)
(* ------------------------------------------------------------------ *)

(** Twenty applicants of one group, eleven of them approved, and five of
    another, two of them approved: approval rates of 55 and 40 per cent. *)
Definition applicants : DataFrame :=
  [("region"%string,
    ObjCol (repeat (Some "north"%string) 20 ++ repeat (Some "south"%string) 5));
   ("loan_approval_status"%string,
    ObjCol (repeat (Some "Approved"%string) 11
            ++ repeat (Some "Rejected"%string) 9
            ++ repeat (Some "Approved"%string) 2
            ++ repeat (Some "Rejected"%string) 3))].

(** The table that the imputer returns on [ages]. *)
Definition ages_imputed : DataFrame :=
  Eval vm_compute in
    match handle_missing_values ages with
    | Ok d => d
    | Raise _ => []
    end.

(** A square root that is exact on the squares of rationals. *)
Definition sqrt_of_square (q : Q) : Q :=
  let r := Qred q in
  Qmake (Z.sqrt (Qnum r)) (Pos.sqrt (Qden r)).

Definition height_values : list num := [Some 1%Q; None; Some 3%Q; Some 5%Q].

Definition heights : DataFrame :=
  [("height"%string, NumCol height_values);
   ("tall"%string, BoolCol [false; false; true; true])].

(* ================================================================== *)
(** * Part II: properties *)
(* ================================================================== *)

(** ** Sorting *)

Section SortFacts.
Variable A : Type.
Variable leb : A -> A -> bool.
Hypothesis leb_total : forall x y, leb x y = true \/ leb y x = true.
Hypothesis leb_trans :
  forall x y z, leb x y = true -> leb y z = true -> leb x z = true.

Let le (x y : A) : Prop := leb x y = true.

Lemma In_insert (x y : A) (l : list A) :
  In y (insert leb x l) <-> y = x \/ In y l.
Proof.
  induction l as [|z t IH]; simpl.
  - intuition.
  - destruct (leb x z); simpl; rewrite ?IH; intuition.
Qed.

Lemma In_sort (y : A) (l : list A) : In y (sort leb l) <-> In y l.
Proof.
  induction l as [|x t IH]; simpl; [tauto|].
  rewrite In_insert, IH. intuition.
Qed.

Lemma length_insert (x : A) (l : list A) :
  length (insert leb x l) = S (length l).
Proof.
  induction l as [|z t IH]; simpl; [reflexivity|].
  destruct (leb x z); simpl; congruence.
Qed.

Lemma length_sort (l : list A) : length (sort leb l) = length l.
Proof.
  induction l as [|x t IH]; simpl; [reflexivity|].
  rewrite length_insert; congruence.
Qed.

Lemma insert_sorted (x : A) (l : list A) :
  StronglySorted le l -> StronglySorted le (insert leb x l).
Proof.
  induction 1 as [|z t Hs IH Hall]; simpl.
  - constructor; constructor.
  - destruct (leb x z) eqn:E.
    + constructor; [constructor; assumption|].
      constructor; [exact E|].
      eapply Forall_impl; [|exact Hall].
      intros w Hw. exact (leb_trans _ _ _ E Hw).
    + constructor; [exact IH|].
      apply Forall_forall. intros w Hw.
      apply In_insert in Hw. destruct Hw as [->|Hw].
      * destruct (leb_total x z) as [F|F]; [congruence|exact F].
      * rewrite Forall_forall in Hall. auto.
Qed.

Lemma sort_sorted (l : list A) : StronglySorted le (sort leb l).
Proof.
  induction l as [|x t IH]; simpl; [constructor|].
  apply insert_sorted; exact IH.
Qed.
End SortFacts.

(** ** Quantiles of a sorted sample *)

Lemma Qle_bool_total (x y : Q) : Qle_bool x y = true \/ Qle_bool y x = true.
Proof.
  rewrite !Qle_bool_iff. destruct (Qlt_le_dec x y); [left|right]; lra.
Qed.

Lemma Qle_bool_trans (x y z : Q) :
  Qle_bool x y = true -> Qle_bool y z = true -> Qle_bool x z = true.
Proof. rewrite !Qle_bool_iff. intros; lra. Qed.

Lemma sorted_nth_le (s : list Q) :
  StronglySorted (fun x y => Qle_bool x y = true) s ->
  forall i j, (i <= j)%nat -> (j < length s)%nat ->
  (nth i s 0 <= nth j s 0)%Q.
Proof.
  induction 1 as [|a t Hs IH Hall]; intros i j Hij Hj; simpl in Hj; [lia|].
  destruct i as [|i], j as [|j]; simpl; try lia.
  - lra.
  - rewrite Forall_forall in Hall.
    apply Qle_bool_iff, Hall, nth_In. lia.
  - apply IH; lia.
Qed.

Section Lerp.
Variable s : list Q.
Hypothesis s_sorted : StronglySorted (fun x y => Qle_bool x y = true) s.
Hypothesis s_nonempty : (0 < length s)%nat.

Let last_pos : Q := inject_Z (Z.of_nat (length s - 1)).

Lemma floor_index (p : Q) :
  (0 <= p)%Q -> (p <= last_pos)%Q ->
  (Z.to_nat (Qfloor p) <= length s - 1)%nat.
Proof.
  intros H0 H1.
  assert (Hf : (Qfloor p <= Z.of_nat (length s - 1))%Z).
  { rewrite <- (Qfloor_Z (Z.of_nat (length s - 1))).
    apply Qfloor_resp_le. exact H1. }
  lia.
Qed.

Lemma frac_range (p : Q) :
  (0 <= p - inject_Z (Qfloor p) /\ p - inject_Z (Qfloor p) < 1)%Q.
Proof.
  pose proof (Qfloor_le p) as Hl. pose proof (Qlt_floor p) as Hu.
  rewrite inject_Z_plus in Hu. change (inject_Z 1) with 1%Q in Hu.
  split; lra.
Qed.

(** The interpolated value lies between its two neighbouring ranks. *)
Lemma lerp_between (p : Q) :
  (0 <= p)%Q -> (p <= last_pos)%Q ->
  (nth (Z.to_nat (Qfloor p)) s 0 <= lerp_at s p)%Q /\
  (lerp_at s p
     <= nth (Nat.min (S (Z.to_nat (Qfloor p))) (length s - 1)) s 0)%Q.
Proof.
  intros H0 H1. unfold lerp_at.
  pose proof (floor_index p H0 H1) as Hi.
  pose proof (frac_range p) as [Ht0 Ht1].
  set (i := Z.to_nat (Qfloor p)) in *.
  set (t := (p - inject_Z (Qfloor p))%Q) in *.
  assert (Hab : (nth i s 0 <= nth (Nat.min (S i) (length s - 1)) s 0)%Q)
    by (apply sorted_nth_le; [exact s_sorted|lia|lia]).
  split; nra.
Qed.

(** Linear interpolation is monotone in the position. *)
Lemma lerp_mono (p p' : Q) :
  (0 <= p)%Q -> (p <= p')%Q -> (p' <= last_pos)%Q ->
  (lerp_at s p <= lerp_at s p')%Q.
Proof.
  intros H0 Hpp H1.
  assert (H0' : (0 <= p')%Q) by lra.
  assert (H1' : (p <= last_pos)%Q) by lra.
  pose proof (floor_index p H0 H1') as Hi.
  pose proof (floor_index p' H0' H1) as Hi'.
  pose proof (Qfloor_resp_le _ _ Hpp) as Hfl.
  assert (Hf0 : (0 <= Qfloor p)%Z).
  { change 0%Z with (Qfloor 0). apply Qfloor_resp_le. exact H0. }
  destruct (Z.eq_dec (Qfloor p) (Qfloor p')) as [E|NE].
  - unfold lerp_at. rewrite <- E.
    set (i := Z.to_nat (Qfloor p)) in *.
    assert (Hab : (nth i s 0 <= nth (Nat.min (S i) (length s - 1)) s 0)%Q)
      by (apply sorted_nth_le; [exact s_sorted|lia|lia]).
    nra.
  - destruct (lerp_between p H0 H1') as [_ Hup].
    destruct (lerp_between p' H0' H1) as [Hlo _].
    assert (Hmid :
      (nth (Nat.min (S (Z.to_nat (Qfloor p))) (length s - 1)) s 0
         <= nth (Z.to_nat (Qfloor p')) s 0)%Q)
      by (apply sorted_nth_le; [exact s_sorted|lia|lia]).
    lra.
Qed.
End Lerp.

(** The first quartile never exceeds the third. *)
Lemma quartiles_ordered (xs : list num) (q1 q3 : Q) :
  quantile xs 0.25 = Some q1 -> quantile xs 0.75 = Some q3 -> (q1 <= q3)%Q.
Proof.
  unfold quantile.
  pose proof (sort_sorted Q Qle_bool Qle_bool_total Qle_bool_trans (dropna xs)) as Hs.
  destruct (sort Qle_bool (dropna xs)) as [|a t] eqn:E; [discriminate|].
  intros H1 H3. injection H1 as <-. injection H3 as <-.
  assert (Hm : (0 <= inject_Z (Z.of_nat (length (a :: t) - 1)))%Q).
  { change 0%Q with (inject_Z 0). rewrite <- Zle_Qle. lia. }
  apply lerp_mono; [exact Hs|simpl; lia| | | ];
    change (length (a :: t) - 1)%nat with (length t - 0)%nat in *; lra.
Qed.

Lemma quantile_some (xs : list num) (v q : Q) :
  In (Some v) xs -> exists r, quantile xs q = Some r.
Proof.
  intros Hin. unfold quantile.
  assert (Hd : In v (dropna xs)).
  { unfold dropna. apply in_flat_map. exists (Some v). simpl. auto. }
  apply (In_sort Q Qle_bool) in Hd.
  destruct (sort Qle_bool (dropna xs)); [contradiction|eauto].
Qed.

(** ** Columns of a data frame *)

Lemma get_update_same (name : string) (f : column -> column) (df : DataFrame) :
  get_col name (update_col name f df) = option_map f (get_col name df).
Proof.
  induction df as [|[n c] t IH]; simpl; [reflexivity|].
  destruct (String.eqb n name) eqn:E; simpl; rewrite E; auto.
Qed.

Lemma get_update_other (name name' : string) (f : column -> column)
  (df : DataFrame) :
  name <> name' -> get_col name' (update_col name f df) = get_col name' df.
Proof.
  intros NE. induction df as [|[n c] t IH]; simpl; [reflexivity|].
  destruct (String.eqb n name) eqn:E; simpl.
  - apply String.eqb_eq in E. subst n.
    destruct (String.eqb name name') eqn:E2; [|exact IH].
    apply String.eqb_eq in E2. contradiction.
  - rewrite IH. reflexivity.
Qed.

Lemma shape_update (name : string) (f : column -> column) (df : DataFrame) :
  (forall c, col_length (f c) = col_length c) ->
  shape (update_col name f df) = shape df.
Proof.
  intros Hf. unfold shape, update_col. rewrite map_map.
  apply map_ext. intros [n c]. simpl.
  destruct (String.eqb n name); simpl; [rewrite Hf|]; reflexivity.
Qed.

Lemma nrows_shape (df df' : DataFrame) :
  shape df = shape df' -> nrows df = nrows df'.
Proof.
  destruct df as [|[n c] t], df' as [|[n' c'] t']; simpl; try discriminate.
  - reflexivity.
  - intros H. injection H. auto.
Qed.

Lemma get_col_In (df : DataFrame) (name : string) (c : column) :
  NoDup (columns df) -> In (name, c) df -> get_col name df = Some c.
Proof.
  induction df as [|[n c'] t IH]; simpl; [contradiction|].
  intros Hnd [Heq|Hin].
  - injection Heq as -> ->. rewrite String.eqb_refl. reflexivity.
  - inversion Hnd as [|? ? Hnotin Hnd']; subst.
    destruct (String.eqb n name) eqn:E; [|auto].
    apply String.eqb_eq in E. subst n. exfalso. apply Hnotin.
    change name with (fst (name, c)). apply in_map. exact Hin.
Qed.

Lemma numerical_cols_incl (df : DataFrame) (name : string) :
  In name (numerical_cols df) -> In name (columns df).
Proof.
  unfold numerical_cols, columns. rewrite in_flat_map.
  intros [[n c] [Hin Hn]]. simpl in Hn.
  destruct c; simpl in Hn; try contradiction.
  destruct Hn as [<-|[]]. change n with (fst (n, NumCol xs)).
  apply in_map. exact Hin.
Qed.

Lemma numerical_cols_NoDup (df : DataFrame) :
  NoDup (columns df) -> NoDup (numerical_cols df).
Proof.
  induction df as [|[n c] t IH]; simpl; [constructor|].
  intros Hnd. inversion Hnd as [|? ? Hnotin Hnd']; subst.
  destruct c; simpl; auto.
  constructor; [|auto].
  intros Hin. apply Hnotin. apply numerical_cols_incl. exact Hin.
Qed.

Lemma numerical_cols_In (df : DataFrame) (name : string) (xs : list num) :
  In (name, NumCol xs) df -> In name (numerical_cols df).
Proof.
  intros Hin. unfold numerical_cols. apply in_flat_map.
  exists (name, NumCol xs). simpl. auto.
Qed.

(** ** The cap branch, cell by cell *)

Lemma Qltb_lt (x y : Q) : Qltb x y = true <-> (x < y)%Q.
Proof.
  unfold Qltb. rewrite negb_true_iff.
  destruct (Qle_bool y x) eqn:E.
  - apply Qle_bool_iff in E. split; [discriminate|lra].
  - split; [|reflexivity]. intros _.
    destruct (Qlt_le_dec x y) as [H|H]; [exact H|].
    apply Qle_bool_iff in H. congruence.
Qed.

Lemma Qltb_ge (x y : Q) : Qltb x y = false <-> (y <= x)%Q.
Proof.
  unfold Qltb. rewrite negb_false_iff. apply Qle_bool_iff.
Qed.

Lemma cap_cell_missing (lo hi v : num) : cap_cell lo hi v = None <-> v = None.
Proof.
  unfold cap_cell, fgt. destruct v as [x|]; simpl.
  - split; [|discriminate]. destruct lo as [l|]; simpl.
    + destruct (Qltb x l); destruct hi as [h|]; simpl;
        try discriminate; match goal with
                          | |- context [Qltb ?a ?b] => destruct (Qltb a b)
                          end; discriminate.
    + destruct hi as [h|]; simpl; [destruct (Qltb h x)|]; discriminate.
  - split; [reflexivity|]. intros _.
    destruct lo; simpl; destruct hi; reflexivity.
Qed.

Lemma cap_cell_within (lo hi : Q) (v : num) (r : Q) :
  (lo <= hi)%Q -> cap_cell (Some lo) (Some hi) v = Some r ->
  (lo <= r <= hi)%Q.
Proof.
  intros Hle. unfold cap_cell, fgt. destruct v as [x|]; simpl; [|discriminate].
  destruct (Qltb x lo) eqn:E1; simpl.
  - destruct (Qltb hi lo) eqn:E2; intros H; injection H as <-.
    + lra.
    + lra.
  - apply Qltb_ge in E1.
    destruct (Qltb hi x) eqn:E2; intros H; injection H as <-.
    + lra.
    + apply Qltb_ge in E2. lra.
Qed.

Lemma fences_some (xs : list num) (v : Q) :
  In (Some v) xs ->
  exists q1 q3,
    quantile xs 0.25 = Some q1 /\ quantile xs 0.75 = Some q3 /\ (q1 <= q3)%Q /\
    fences xs = (Some (q1 - 1.5 * (q3 - q1))%Q, Some (q3 + 1.5 * (q3 - q1))%Q).
Proof.
  intros Hin.
  destruct (quantile_some xs v 0.25%Q Hin) as [q1 H1].
  destruct (quantile_some xs v 0.75%Q Hin) as [q3 H3].
  exists q1, q3. repeat split; auto.
  - eapply quartiles_ordered; eauto.
  - unfold fences. rewrite H1, H3. reflexivity.
Qed.

Lemma count_true_zero (mask : list bool) :
  count_true mask = 0 -> forall b, In b mask -> b = false.
Proof.
  unfold count_true. induction mask as [|a t IH]; simpl; [contradiction|].
  destruct a; simpl; [discriminate|].
  intros H b [<-|Hin]; auto.
Qed.

(** What the cap branch leaves in a numeric column: the same number of
    cells, the same missing cells, and every number inside the fences of
    the column as it was. *)
Lemma cap_column_spec (xs ys : list num) :
  cap_column (NumCol xs) = NumCol ys ->
  length ys = length xs /\
  (forall i, nth_error ys i = Some None <-> nth_error xs i = Some None) /\
  (forall v, In (Some v) ys ->
     exists lo hi, fences xs = (Some lo, Some hi) /\ (lo <= v <= hi)%Q).
Proof.
  unfold cap_column. destruct (fences xs) as [lo hi] eqn:F.
  destruct (0 <? _) eqn:C; intros H; injection H as <-.
  - split; [apply length_map|]. split.
    + intros i. rewrite nth_error_map.
      destruct (nth_error xs i) as [c|]; simpl; [|split; discriminate].
      split; intros H; injection H as H; f_equal.
      * apply (cap_cell_missing lo hi). exact H.
      * apply cap_cell_missing. exact H.
    + intros v Hin. apply in_map_iff in Hin. destruct Hin as [c [Hc Hin]].
      destruct c as [x|].
      * destruct (fences_some xs _ Hin) as (q1 & q3 & _ & _ & Hq & Hf).
        rewrite F in Hf. injection Hf as -> ->.
        eexists _, _. split; [reflexivity|].
        eapply cap_cell_within; [|exact Hc]. lra.
      * pose proof (proj2 (cap_cell_missing lo hi None) eq_refl). congruence.
  - split; [reflexivity|]. split; [tauto|].
    intros v Hin. apply Nat.ltb_ge in C.
    assert (C0 : count_true (map (fun v => flt v lo || fgt v hi) xs) = 0) by lia.
    pose proof (count_true_zero _ C0 (flt (Some v) lo || fgt (Some v) hi)) as Hb.
    destruct (fences_some xs _ Hin) as (q1 & q3 & _ & _ & Hq & Hf).
    rewrite F in Hf. injection Hf as -> ->.
    eexists _, _. split; [reflexivity|].
    assert (Hm : flt (Some v) (Some (q1 - 1.5 * (q3 - q1))%Q)
                 || fgt (Some v) (Some (q3 + 1.5 * (q3 - q1))%Q) = false).
    { apply Hb. apply in_map_iff. exists (Some v). auto. }
    apply orb_false_iff in Hm. destruct Hm as [Hl Hg].
    unfold fgt in Hg. simpl in Hl, Hg.
    apply Qltb_ge in Hl, Hg. lra.
Qed.

(** ** The loop of [handle_outliers] *)

Lemma detect_outliers_iqr_fences (df : DataFrame) (col : string) :
  detect_outliers_iqr df col =
  (map (fun v => flt v (fst (fences (num_values df col)))
                 || fgt v (snd (fences (num_values df col))))
       (num_values df col),
   fst (fences (num_values df col)), snd (fences (num_values df col))).
Proof. reflexivity. Qed.

Lemma outlier_step_same (df : DataFrame) (total : nat) (col : string) :
  get_col col (fst (outlier_step "cap" (df, total) col))
  = option_map cap_column (get_col col df).
Proof.
  unfold outlier_step. rewrite detect_outliers_iqr_fences.
  unfold num_values, cap_column.
  destruct (get_col col df) as [[xs|xs|xs]|] eqn:G; simpl; rewrite ?G; auto.
  destruct (fences xs) as [lo hi]. simpl.
  destruct (0 <? _); simpl; [|exact G].
  unfold loc_set. rewrite !get_update_same, G. simpl.
  rewrite map_map. reflexivity.
Qed.

Lemma outlier_step_other (m : string) (df : DataFrame) (total : nat)
  (col name : string) :
  col <> name ->
  get_col name (fst (outlier_step m (df, total) col)) = get_col name df.
Proof.
  intros NE. unfold outlier_step.
  destruct (detect_outliers_iqr df col) as [[outliers lo] hi].
  destruct (0 <? _); simpl; [|reflexivity].
  destruct (String.eqb m "cap"); [|reflexivity].
  unfold loc_set. rewrite !get_update_other by exact NE. reflexivity.
Qed.

Lemma outlier_step_shape (m : string) (acc : DataFrame * nat) (col : string) :
  shape (fst (outlier_step m acc col)) = shape (fst acc).
Proof.
  destruct acc as [df total]. unfold outlier_step.
  destruct (detect_outliers_iqr df col) as [[outliers lo] hi].
  destruct (0 <? _); simpl; [|reflexivity].
  destruct (String.eqb m "cap"); [|reflexivity].
  unfold loc_set. rewrite !shape_update; [reflexivity| |];
    intros [xs|xs|xs]; simpl; rewrite ?length_map; reflexivity.
Qed.

Lemma outlier_loop_shape (m : string) (cols : list string)
  (acc : DataFrame * nat) :
  shape (fst (fold_left (outlier_step m) cols acc)) = shape (fst acc).
Proof.
  revert acc. induction cols as [|c t IH]; intros acc; simpl; [reflexivity|].
  rewrite IH. apply outlier_step_shape.
Qed.

(** With method [cap] the loop caps every column it visits once and
    leaves every other column alone. *)
Lemma outlier_loop_cap (cols : list string) :
  NoDup cols ->
  forall (acc : DataFrame * nat) (name : string),
    get_col name (fst (fold_left (outlier_step "cap") cols acc))
    = if in_dec string_dec name cols
      then option_map cap_column (get_col name (fst acc))
      else get_col name (fst acc).
Proof.
  induction 1 as [|c t Hnotin Hnd IH]; intros [df total] name;
    [reflexivity|].
  cbn [fold_left]. rewrite IH.
  destruct (string_dec c name) as [->|NE].
  - destruct (in_dec string_dec name t) as [Hin|_]; [contradiction|].
    destruct (in_dec string_dec name (name :: t)) as [_|Hn];
      [|exfalso; apply Hn; left; reflexivity].
    apply outlier_step_same.
  - rewrite (outlier_step_other "cap" df total c name NE). cbn [fst].
    destruct (in_dec string_dec name t) as [Hin|Hn];
      destruct (in_dec string_dec name (c :: t)) as [Hin'|Hn'];
      try reflexivity.
    + exfalso. apply Hn'. right. exact Hin.
    + destruct Hin' as [E|Hin']; [contradiction|contradiction].
Qed.

Lemma handle_outliers_cap_loop (df : DataFrame) :
  fst (handle_outliers df "cap")
  = fst (fold_left (outlier_step "cap") (numerical_cols df) (df, 0)).
Proof.
  unfold handle_outliers.
  destruct (fold_left _ _ _) as [d t]. reflexivity.
Qed.

(** A column with a number after capping had a number before. *)
Lemma capped_number_source (xs ys : list num) (v : Q) :
  length ys = length xs ->
  (forall i, nth_error ys i = Some None <-> nth_error xs i = Some None) ->
  In (Some v) ys -> exists w, In (Some w) xs.
Proof.
  intros Hl Hm Hin. apply In_nth_error in Hin. destruct Hin as [i Hi].
  assert (Hlt : i < length xs).
  { rewrite <- Hl. apply nth_error_Some. unfold num in *. rewrite Hi.
    discriminate. }
  apply nth_error_Some in Hlt.
  destruct (nth_error xs i) as [[w|]|] eqn:E; [| |congruence].
  - exists w. eapply nth_error_In. exact E.
  - apply Hm in E. unfold num in *. rewrite E in Hi. discriminate Hi.
Qed.

(** ** Outlier handling: the claims *)


(** C2.  When the 25th and 75th percentiles of a numeric column are equal,
    [detect_outliers_iqr] still returns: both fences equal Q1, and a
    number of the column is flagged exactly when it differs from Q1
    (a missing cell is not flagged). *)
Theorem iqr_zero_fences_collapse
  (df : DataFrame) (name : string) (xs : list num) (q1 q3 : Q) :
  get_col name df = Some (NumCol xs) ->
  quantile xs 0.25 = Some q1 ->
  quantile xs 0.75 = Some q3 ->
  (q1 == q3)%Q ->
  exists outliers lower_bound upper_bound,
    detect_outliers_iqr df name
      = (outliers, Some lower_bound, Some upper_bound) /\
    (lower_bound == q1)%Q /\ (upper_bound == q1)%Q /\
    length outliers = length xs /\
    (forall i v, nth_error xs i = Some (Some v) ->
       nth_error outliers i = Some (negb (Qeq_bool v q1))) /\
    (forall i, nth_error xs i = Some None ->
       nth_error outliers i = Some false).
Proof.
  intros G H1 H3 Heq.
  unfold detect_outliers_iqr, num_values. rewrite G, H1, H3. cbn [fsub fmul fadd].
  eexists _, _, _. split; [reflexivity|].
  split; [lra|]. split; [lra|]. split; [apply length_map|].
  split.
  - intros i v Hi. rewrite nth_error_map, Hi. cbn [option_map]. f_equal.
    unfold fgt, flt.
    destruct (Qeq_bool v q1) eqn:E; cbn [negb].
    + apply Qeq_bool_iff in E. apply orb_false_iff.
      split; apply Qltb_ge; lra.
    + apply Qeq_bool_neq in E. apply orb_true_iff.
      destruct (Qlt_le_dec v q1) as [Hlt|Hge].
      * left. apply Qltb_lt. lra.
      * right. apply Qltb_lt.
        destruct (Qlt_le_dec q1 v) as [Hlt|Hle]; [lra|].
        exfalso. apply E. lra.
  - intros i Hi. rewrite nth_error_map, Hi. reflexivity.
Qed.

(** The fences of [20, 21, 22, 23, 1000] are 18 and 26, and capping moves
    1000 to 26. *)
Example fences_of_five_ages :
  let df := [("age"%string, NumCol [Some 20; Some 21; Some 22; Some 23; Some 1000]%Q)] in
  exists lo hi ys,
    detect_outliers_iqr df "age"
    = ([false; false; false; false; true], Some lo, Some hi) /\
    (lo == 18)%Q /\ (hi == 26)%Q /\
    get_col "age" (fst (handle_outliers df "cap")) = Some (NumCol ys) /\
    Forall2 (fun y z => match y with Some q => (q == z)%Q | None => False end)
      ys [20; 21; 22; 23; 26]%Q.
Proof.
  eexists _, _, _. split; [vm_compute; reflexivity|].
  split; [reflexivity|]. split; [reflexivity|].
  split; [vm_compute; reflexivity|].
  repeat constructor.
Qed.

Lemma ages_well_formed : well_formed ages.
Proof.
  split.
  - repeat constructor; simpl; intuition discriminate.
  - intros n c [H|[H|[]]]; injection H as <- <-; reflexivity.
Defined.


Lemma iqr_zero_fences_collapse_witness :
  exists outliers lower_bound upper_bound,
    detect_outliers_iqr flat "score"
      = (outliers, Some lower_bound, Some upper_bound) /\
    (lower_bound == 5)%Q /\ (upper_bound == 5)%Q /\
    outliers = [false; false; false; false; false; true].
Proof.
  destruct (iqr_zero_fences_collapse flat "score"
              [Some 5%Q; Some 5%Q; None; Some 5%Q; Some 5%Q; Some 9%Q]
              (5 + (5 - 5) * (0.25 * inject_Z 4 - inject_Z 1))%Q
              (5 + (5 - 5) * (0.75 * inject_Z 4 - inject_Z 3))%Q)
    as (outliers & lo & hi & Hd & Hlo & Hhi & _).
  - reflexivity.
  - reflexivity.
  - reflexivity.
  - vm_compute. reflexivity.
  - exists outliers, lo, hi. split; [exact Hd|].
    split; [rewrite Hlo; vm_compute; reflexivity|].
    split; [rewrite Hhi; vm_compute; reflexivity|].
    vm_compute in Hd. injection Hd as <- _ _. reflexivity.
Defined.

(** ** Rows and boolean indexing *)

Lemma value_eqb_refl (a : value) : value_eqb a a = true.
Proof.
  destruct a; simpl;
    [apply Qeq_bool_refl|apply String.eqb_refl|apply Bool.eqb_reflx].
Qed.

Lemma value_eqb_sym (a b : value) : value_eqb a b = value_eqb b a.
Proof.
  destruct a, b; simpl; try reflexivity.
  - apply Qeq_bool_comm.
  - apply String.eqb_sym.
  - match goal with |- Bool.eqb ?x ?y = _ => destruct x, y end; reflexivity.
Qed.

Lemma value_eqb_trans (a b c : value) :
  value_eqb a b = true -> value_eqb b c = true -> value_eqb a c = true.
Proof.
  destruct a, b, c; simpl; try discriminate.
  - apply Qeq_bool_trans.
  - rewrite !String.eqb_eq. congruence.
  - rewrite !Bool.eqb_true_iff. congruence.
Qed.

Lemma row_eqb_sym (r1 r2 : list cell) : row_eqb r1 r2 = row_eqb r2 r1.
Proof.
  revert r2. induction r1 as [|a t IH]; intros [|b t2]; simpl; try reflexivity.
  rewrite IH. f_equal.
  destruct a, b; simpl; try reflexivity. apply value_eqb_sym.
Qed.

Lemma row_eqb_trans (r1 r2 r3 : list cell) :
  row_eqb r1 r2 = true -> row_eqb r2 r3 = true -> row_eqb r1 r3 = true.
Proof.
  revert r2 r3.
  induction r1 as [|a t IH]; intros [|b t2] [|c t3]; simpl;
    try discriminate; [reflexivity|].
  rewrite !andb_true_iff. intros [Hab H12] [Hbc H23]. split.
  - destruct a, b, c; simpl in *; try discriminate; [|reflexivity].
    eapply value_eqb_trans; eauto.
  - eapply IH; eauto.
Qed.

Lemma existsb_map {A B} (f : B -> bool) (g : A -> B) (l : list A) :
  existsb f (map g l) = existsb (fun x => f (g x)) l.
Proof. induction l as [|x t IH]; simpl; [|rewrite IH]; reflexivity. Qed.

Lemma existsb_ext_in {A} (f g : A -> bool) (l : list A) :
  (forall x, In x l -> f x = g x) -> existsb f l = existsb g l.
Proof.
  induction l as [|x t IH]; simpl; intros H; [reflexivity|].
  rewrite H, IH by auto. reflexivity.
Qed.

(** The one-pass mask marks exactly the rows equal to a remembered row or
    to an earlier row of the list. *)
Lemma duplicated_from_spec (rs seen : list (list cell)) :
  duplicated_from seen rs
  = map (fun i =>
           existsb (row_eqb (nth i rs [])) seen
           || existsb (fun j => row_eqb (nth j rs []) (nth i rs [])) (seq 0 i))
      (seq 0 (length rs)).
Proof.
  revert seen. induction rs as [|r t IH]; intros seen; [reflexivity|].
  cbn [duplicated_from length seq map nth]. f_equal.
  - cbn [existsb]. rewrite orb_false_r. reflexivity.
  - rewrite IH, <- seq_shift, map_map. apply map_ext. intros i.
    cbn [seq existsb nth]. rewrite <- (seq_shift i 0).
    rewrite existsb_map. cbn [nth].
    set (x := nth i t []).
    set (D := existsb (fun j => row_eqb (nth j t []) x) (seq 0 i)).
    destruct (existsb (row_eqb r) seen) eqn:E.
    + destruct (row_eqb r x) eqn:Erx; [|reflexivity].
      apply existsb_exists in E. destruct E as [s [Hs Hrs]].
      assert (Hx : existsb (row_eqb x) seen = true).
      { apply existsb_exists. exists s. split; [exact Hs|].
        apply (row_eqb_trans x r s); [rewrite row_eqb_sym; exact Erx|exact Hrs]. }
      rewrite Hx. reflexivity.
    + cbn [existsb]. rewrite (row_eqb_sym x r).
      destruct (row_eqb r x), (existsb (row_eqb x) seen), D; reflexivity.
Qed.

Lemma bool_index_nil {A} (mask : list bool) : bool_index mask (@nil A) = [].
Proof. destruct mask; reflexivity. Qed.

Lemma bool_index_map {A B} (f : A -> B) (mask : list bool) (xs : list A) :
  bool_index mask (map f xs) = map f (bool_index mask xs).
Proof.
  revert xs. induction mask as [|b m IH]; intros [|x t]; simpl; auto.
  destruct b; simpl; rewrite IH; reflexivity.
Qed.

Lemma bool_index_length {A} (mask : list bool) (xs : list A) :
  length mask = length xs -> length (bool_index mask xs) = count_true mask.
Proof.
  unfold count_true. revert xs.
  induction mask as [|b m IH]; intros [|x t]; simpl; try discriminate; auto.
  intros H. injection H as H. destruct b; simpl; rewrite IH; auto.
Qed.

Lemma bool_index_In {A} (mask : list bool) (xs : list A) (x : A) :
  In x (bool_index mask xs) -> In x xs.
Proof.
  revert xs. induction mask as [|b m IH]; intros [|y t]; simpl; try tauto.
  destruct b; simpl; intros H; [destruct H as [H|H]|]; auto.
Qed.

(** Boolean indexing picks the cells at the positions the mask selects. *)
Lemma bool_index_positions {A} (d : A) (mask : list bool) (xs : list A) (k : nat) :
  length mask = length xs ->
  bool_index mask xs
  = map (fun i => nth (i - k) xs d) (bool_index mask (seq k (length mask))).
Proof.
  revert xs k. induction mask as [|b m IH]; intros [|x t] k; cbn [length];
    try discriminate; auto.
  intros H. injection H as H.
  assert (Ht : bool_index m t
               = map (fun i => nth (i - k) (x :: t) d)
                   (bool_index m (seq (S k) (length m)))).
  { rewrite (IH t (S k) H). apply map_ext_in. intros i Hi.
    apply bool_index_In, in_seq in Hi.
    replace (i - k) with (S (i - S k)) by lia. reflexivity. }
  destruct b; cbn [bool_index seq map]; rewrite <- Ht;
    [rewrite Nat.sub_diag|]; reflexivity.
Qed.

Lemma map_nth_positions {A} (d : A) (l : list A) :
  map (fun k => nth k l d) (seq 0 (length l)) = l.
Proof.
  induction l as [|x t IH]; [reflexivity|].
  cbn [length seq map nth]. f_equal.
  rewrite <- seq_shift, map_map. exact IH.
Qed.

Lemma nth_map_in {A B} (f : A -> B) (l : list A) (k : nat) (d : A) (d' : B) :
  k < length l -> nth k (map f l) d' = f (nth k l d).
Proof.
  intros Hk. rewrite (nth_indep _ d' (f d)) by (rewrite length_map; exact Hk).
  apply map_nth.
Qed.

Lemma count_true_negb (mask : list bool) :
  count_true (map negb mask) + count_true mask = length mask.
Proof.
  unfold count_true. induction mask as [|b m IH]; [reflexivity|].
  destruct b; simpl; lia.
Qed.

Lemma bool_index_all {A} (mask : list bool) (xs : list A) :
  length mask = length xs -> count_true (map negb mask) = 0 ->
  bool_index mask xs = xs.
Proof.
  unfold count_true. revert xs.
  induction mask as [|b m IH]; intros [|x t]; simpl; try discriminate; auto.
  intros H. injection H as H. destruct b; simpl; [|discriminate].
  intros C. rewrite IH; auto.
Qed.

Lemma cells_length (c : column) : length (cells c) = col_length c.
Proof. destruct c; simpl; apply length_map. Qed.

Lemma rows_length (df : DataFrame) : length (rows df) = nrows df.
Proof. unfold rows. rewrite length_map, length_seq. reflexivity. Qed.

Lemma duplicated_from_length (rs seen : list (list cell)) :
  length (duplicated_from seen rs) = length rs.
Proof.
  revert seen. induction rs as [|r t IH]; intros seen; simpl; auto.
Qed.

Lemma duplicated_length (df : DataFrame) : length (duplicated df) = nrows df.
Proof.
  unfold duplicated. rewrite duplicated_from_length. apply rows_length.
Qed.

(** Selecting rows of a table selects the same entries of its row list. *)
Lemma rows_take_rows (mask : list bool) (df : DataFrame) :
  (forall n c, In (n, c) df -> col_length c = nrows df) ->
  length mask = nrows df ->
  rows (take_rows mask df) = bool_index mask (rows df).
Proof.
  intros Hlen Hm. unfold rows at 2. rewrite bool_index_map, <- Hm.
  set (pos := bool_index mask (seq 0 (length mask))).
  destruct df as [|[n0 c0] rest] eqn:Edf.
  { simpl in Hm. destruct mask; [reflexivity|discriminate]. }
  rewrite <- Edf in *.
  assert (Hn : nrows (take_rows mask df) = length pos).
  { unfold pos. rewrite bool_index_length by (rewrite length_seq; reflexivity).
    rewrite Edf. cbn [take_rows map nrows fst snd].
    assert (H0 : col_length c0 = length mask).
    { rewrite Hm. apply (Hlen n0). rewrite Edf. left; reflexivity. }
    destruct c0; cbn [col_length] in *; apply bool_index_length; auto. }
  unfold rows. rewrite Hn.
  rewrite <- (map_nth_positions 0 pos) at 2. rewrite map_map.
  apply map_ext_in. intros k Hk. apply in_seq in Hk.
  unfold row, take_rows. rewrite map_map. apply map_ext_in.
  intros [n c] Hin. cbn [fst snd].
  assert (Hc : length (cells c) = length mask).
  { rewrite cells_length, Hm. eapply Hlen; eauto. }
  assert (Hcells :
    cells match c with
          | NumCol xs => NumCol (bool_index mask xs)
          | ObjCol xs => ObjCol (bool_index mask xs)
          | BoolCol xs => BoolCol (bool_index mask xs)
          end = bool_index mask (cells c)).
  { destruct c; cbn [cells]; rewrite bool_index_map; reflexivity. }
  rewrite Hcells.
  rewrite (@bool_index_positions cell None mask (cells c) 0) by auto.
  fold pos. rewrite (nth_map_in _ pos k 0) by lia.
  rewrite Nat.sub_0_r. reflexivity.
Qed.

(** Nothing is flagged in what one pass keeps. *)
Lemma duplicated_from_kept (rs seen : list (list cell)) :
  count_true
    (duplicated_from seen
       (bool_index (map negb (duplicated_from seen rs)) rs)) = 0.
Proof.
  revert seen. induction rs as [|r t IH]; intros seen; [reflexivity|].
  cbn [duplicated_from map bool_index].
  destruct (existsb (row_eqb r) seen) eqn:E; cbn [negb].
  - apply IH.
  - cbn [duplicated_from]. rewrite E. unfold count_true in *.
    cbn [filter]. apply IH.
Qed.

(** ** Duplicate removal: the claim *)

Lemma duplicated_spec (df : DataFrame) :
  duplicated df = map (is_duplicate df) (seq 0 (nrows df)).
Proof.
  unfold duplicated. rewrite duplicated_from_spec, rows_length.
  apply map_ext_in. intros i Hi. apply in_seq in Hi.
  cbn [existsb orb]. unfold is_duplicate.
  assert (Hrow : forall j, j < nrows df -> nth j (rows df) [] = row df j).
  { intros j Hj. unfold rows.
    rewrite (nth_map_in _ _ j 0) by (rewrite length_seq; exact Hj).
    rewrite seq_nth by exact Hj. reflexivity. }
  apply existsb_ext_in. intros j Hj. apply in_seq in Hj.
  rewrite !Hrow by lia. reflexivity.
Qed.

Lemma rows_remove_duplicates (df : DataFrame) :
  well_formed df ->
  rows (remove_duplicates df)
  = bool_index (map negb (duplicated df)) (rows df).
Proof.
  intros [_ Hlen]. unfold remove_duplicates.
  destruct (count_true (duplicated df) =? 0) eqn:E.
  - apply Nat.eqb_eq in E. symmetry. apply bool_index_all.
    + rewrite length_map, duplicated_length, rows_length. reflexivity.
    + rewrite map_map, (map_ext _ (fun b => b)) by apply negb_involutive.
      rewrite map_id. exact E.
  - apply rows_take_rows; [exact Hlen|].
    rewrite length_map. apply duplicated_length.
Qed.

Lemma columns_take_rows (mask : list bool) (df : DataFrame) :
  columns (take_rows mask df) = columns df.
Proof. unfold columns, take_rows. rewrite map_map. reflexivity. Qed.

(** C7.  Duplicate removal is idempotent; the rows it keeps are, in their
    original order, exactly the rows that do not repeat an earlier row
    (the first occurrence of each group of identical rows); and the row
    count drops by the number of rows that repeat an earlier one. *)
Theorem remove_duplicates_keeps_first (df : DataFrame) :
  well_formed df ->
  remove_duplicates (remove_duplicates df) = remove_duplicates df /\
  rows (remove_duplicates df)
    = bool_index (map (fun i => negb (is_duplicate df i)) (seq 0 (nrows df)))
        (rows df) /\
  nrows (remove_duplicates df)
    = nrows df - count_true (map (is_duplicate df) (seq 0 (nrows df))) /\
  columns (remove_duplicates df) = columns df.
Proof.
  intros Hwf.
  pose proof (rows_remove_duplicates df Hwf) as Hrows.
  split; [|split; [|split]].
  - destruct (count_true (duplicated df) =? 0) eqn:E.
    + assert (H : remove_duplicates df = df)
        by (unfold remove_duplicates; rewrite E; reflexivity).
      rewrite !H. reflexivity.
    + assert (H : remove_duplicates df = drop_duplicates df)
        by (unfold remove_duplicates; rewrite E; reflexivity).
      rewrite H. unfold remove_duplicates.
      replace (count_true (duplicated (drop_duplicates df))) with 0;
        [reflexivity|].
      unfold duplicated at 1, drop_duplicates.
      rewrite rows_take_rows;
        [|exact (proj2 Hwf)|rewrite length_map; apply duplicated_length].
      unfold duplicated. symmetry. apply duplicated_from_kept.
  - rewrite Hrows, duplicated_spec, map_map. reflexivity.
  - rewrite <- (rows_length (remove_duplicates df)), Hrows.
    rewrite bool_index_length
      by (rewrite length_map, duplicated_length, rows_length; reflexivity).
    pose proof (count_true_negb (duplicated df)) as Hc.
    rewrite duplicated_length in Hc. rewrite <- duplicated_spec. lia.
  - unfold remove_duplicates.
    destruct (count_true (duplicated df) =? 0); [reflexivity|].
    apply columns_take_rows.
Qed.

Lemma visits_well_formed : well_formed visits.
Proof.
  split.
  - repeat constructor; simpl; intuition discriminate.
  - intros n c [H|[H|[]]]; injection H as <- <-; reflexivity.
Defined.

Lemma remove_duplicates_keeps_first_witness :
  well_formed visits /\
  remove_duplicates (remove_duplicates visits) = remove_duplicates visits /\
  rows (remove_duplicates visits)
    = bool_index (map (fun i => negb (is_duplicate visits i)) (seq 0 (nrows visits)))
        (rows visits) /\
  nrows (remove_duplicates visits)
    = nrows visits - count_true (map (is_duplicate visits) (seq 0 (nrows visits))) /\
  columns (remove_duplicates visits) = columns visits.
Proof.
  split; [exact visits_well_formed|].
  exact (remove_duplicates_keeps_first visits visits_well_formed).
Defined.

Example remove_duplicates_visits :
  remove_duplicates visits
  = [("city"%string, ObjCol [Some "Oslo"%string; Some "Rome"%string; None]);
     ("nights"%string, NumCol [Some 2%Q; Some 3%Q; None])].
Proof. vm_compute. reflexivity. Qed.

(** ** Strings in sorted order *)

Lemma string_leb_trans (x y z : string) :
  String.leb x y = true -> String.leb y z = true -> String.leb x z = true.
Proof.
  unfold String.leb. revert y z.
  induction x as [|a x IH]; intros [|b y] [|c z]; simpl; try easy.
  unfold Ascii.compare in *.
  destruct (N.compare_spec (N_of_ascii a) (N_of_ascii b)) as [E1|E1|E1];
    try easy.
  - rewrite E1.
    destruct (N.compare_spec (N_of_ascii b) (N_of_ascii c)); try easy.
    apply IH.
  - destruct (N.compare_spec (N_of_ascii b) (N_of_ascii c)) as [E2|E2|E2];
      try easy; intros _ _.
    + rewrite <- E2. apply N.compare_lt_iff in E1. rewrite E1. reflexivity.
    + assert (E3 : (N_of_ascii a < N_of_ascii c)%N) by lia.
      apply N.compare_lt_iff in E3. rewrite E3. reflexivity.
Qed.

Lemma string_leb_refl (x : string) : String.leb x x = true.
Proof. destruct (String.leb_total x x); assumption. Qed.

(** ** Distinct values and modes *)

Lemma In_unique (xs : list string) (x : string) :
  In x (unique String.eqb xs) <-> In x xs.
Proof.
  induction xs as [|y t IH]; simpl; [tauto|].
  rewrite filter_In, IH, negb_true_iff, String.eqb_neq.
  destruct (string_dec y x); intuition congruence.
Qed.

Lemma In_dropna {A} (xs : list (option A)) (v : A) :
  In v (dropna xs) <-> In (Some v) xs.
Proof.
  unfold dropna. rewrite in_flat_map. split.
  - intros [[w|] [Hin Hv]]; simpl in Hv; [|contradiction].
    destruct Hv as [<-|[]]. exact Hin.
  - intros Hin. exists (Some v). simpl. auto.
Qed.

Lemma dropna_all_missing {A} (xs : list (option A)) :
  all_missing xs -> dropna xs = [].
Proof.
  intros H. destruct (dropna xs) as [|v t] eqn:E; [reflexivity|].
  assert (Hin : In v (dropna xs)) by (rewrite E; left; reflexivity).
  apply In_dropna, H in Hin. discriminate.
Qed.

Lemma list_max_attained (l : list nat) : l <> [] -> In (list_max l) l.
Proof.
  induction l as [|a t IH]; [congruence|]. intros _. simpl.
  destruct t as [|b t'].
  - left. simpl. lia.
  - destruct (Nat.max_spec a (list_max (b :: t'))) as [[_ E]|[_ E]];
      rewrite E; [right; apply IH; discriminate|left; reflexivity].
Qed.

(** The head of [s.mode()] is a value of the column, no value is more
    frequent, and among the equally frequent values it comes first in
    sorted order. *)
Lemma mode_head (xs : list (option string)) (m : string) (rest : list string) :
  mode xs = m :: rest ->
  In (Some m) xs /\
  (forall v, In (Some v) xs ->
     occurrences v (dropna xs) <= occurrences m (dropna xs)) /\
  (forall v, In (Some v) xs ->
     occurrences v (dropna xs) = occurrences m (dropna xs) ->
     String.leb m v = true).
Proof.
  unfold mode. set (vals := dropna xs).
  set (best := list_max (map (fun v => occurrences v vals) vals)).
  set (cands := filter (fun v => occurrences v vals =? best)
                  (unique String.eqb vals)).
  intros E.
  assert (Hm : In m cands).
  { apply (In_sort string String.leb). rewrite E. left; reflexivity. }
  apply filter_In in Hm. destruct Hm as [Hm Hbest].
  apply (proj1 (In_unique _ _)) in Hm. apply Nat.eqb_eq in Hbest.
  assert (Hmax : forall v, In v vals -> occurrences v vals <= best).
  { intros v Hv.
    assert (Hle : list_max (map (fun v => occurrences v vals) vals) <= best)
      by reflexivity.
    rewrite list_max_le, Forall_forall in Hle. apply Hle.
    apply in_map_iff. exists v. auto. }
  split; [apply In_dropna; exact Hm|]. split.
  - intros v Hv. rewrite Hbest. apply Hmax, In_dropna, Hv.
  - intros v Hv Heq.
    assert (Hc : In v (sort String.leb cands)).
    { apply In_sort. apply filter_In. split.
      - apply In_unique, In_dropna, Hv.
      - apply Nat.eqb_eq. fold vals in Heq. congruence. }
    pose proof (sort_sorted string String.leb String.leb_total
                  string_leb_trans cands) as Hs.
    rewrite E in Hc, Hs. destruct Hc as [<-|Hc]; [apply string_leb_refl|].
    apply StronglySorted_inv in Hs. destruct Hs as [_ Hall].
    rewrite Forall_forall in Hall. apply Hall, Hc.
Qed.

Lemma mode_nonempty (xs : list (option string)) (v : string) :
  In (Some v) xs -> mode xs <> [].
Proof.
  intros Hv. unfold mode. set (vals := dropna xs).
  set (best := list_max (map (fun v => occurrences v vals) vals)).
  assert (Hvals : In v vals) by (apply In_dropna; exact Hv).
  assert (Hb : In best (map (fun v => occurrences v vals) vals)).
  { apply list_max_attained. destruct vals; [contradiction|discriminate]. }
  apply in_map_iff in Hb. destruct Hb as [w [Hw Hin]].
  assert (Hc : In w (sort String.leb
                       (filter (fun v => occurrences v vals =? best)
                          (unique String.eqb vals)))).
  { apply In_sort. apply filter_In. split; [apply In_unique; exact Hin|].
    apply Nat.eqb_eq. exact Hw. }
  intros E. rewrite E in Hc. contradiction.
Qed.

Lemma mode_all_missing (xs : list (option string)) :
  all_missing xs -> mode xs = [].
Proof.
  intros H. unfold mode. rewrite (dropna_all_missing xs H). reflexivity.
Qed.

(** ** The loops of [handle_missing_values] *)

Lemma columns_update (name : string) (f : column -> column) (df : DataFrame) :
  columns (update_col name f df) = columns df.
Proof.
  unfold columns, update_col. rewrite map_map. apply map_ext.
  intros [n c]. simpl. destruct (String.eqb n name); reflexivity.
Qed.

Lemma get_col_Some_In (df : DataFrame) (name : string) (c : column) :
  get_col name df = Some c -> In (name, c) df.
Proof.
  induction df as [|[n c'] t IH]; simpl; [discriminate|].
  destruct (String.eqb n name) eqn:E.
  - apply String.eqb_eq in E. intros H. injection H as <-. subst. auto.
  - auto.
Qed.

Lemma categorical_cols_incl (df : DataFrame) (name : string) :
  In name (categorical_cols df) -> In name (columns df).
Proof.
  unfold categorical_cols, columns. rewrite in_flat_map.
  intros [[n c] [Hin Hn]]. simpl in Hn.
  destruct c; simpl in Hn; try contradiction.
  destruct Hn as [<-|[]]. change n with (fst (n, ObjCol xs)).
  apply in_map. exact Hin.
Qed.

Lemma categorical_cols_NoDup (df : DataFrame) :
  NoDup (columns df) -> NoDup (categorical_cols df).
Proof.
  induction df as [|[n c] t IH]; simpl; [constructor|].
  intros Hnd. inversion Hnd as [|? ? Hnotin Hnd']; subst.
  destruct c; simpl; auto.
  constructor; [|auto].
  intros Hin. apply Hnotin. apply categorical_cols_incl. exact Hin.
Qed.

Lemma categorical_cols_In (df : DataFrame) (name : string)
  (xs : list (option string)) :
  In (name, ObjCol xs) df -> In name (categorical_cols df).
Proof.
  intros Hin. unfold categorical_cols. apply in_flat_map.
  exists (name, ObjCol xs). simpl. auto.
Qed.

Lemma total_missing_pos (df : DataFrame) (name : string) (c : column) :
  In (name, c) df -> 0 < col_count_null c -> (total_missing df =? 0) = false.
Proof.
  intros Hin Hc. apply Nat.eqb_neq. unfold total_missing.
  induction df as [|[n c'] t IH]; [contradiction|].
  cbn [fold_right snd]. destruct Hin as [E|Hin].
  - injection E as _ ->. lia.
  - specialize (IH Hin). lia.
Qed.

Lemma count_null_all_missing {A} (xs : list (option A)) :
  all_missing xs -> xs <> [] -> 0 < count_null xs.
Proof.
  destruct xs as [|c t]; [congruence|]. intros H _.
  rewrite (H c (or_introl eq_refl)). unfold count_null. simpl. lia.
Qed.

Lemma count_null_fillna {A} (v : A) (xs : list (option A)) :
  count_null (fillna (Some v) xs) = 0.
Proof.
  unfold count_null, fillna. induction xs as [|[w|] t IH]; simpl; auto.
Qed.

Lemma median_all_missing (xs : list num) : all_missing xs -> median xs = None.
Proof.
  intros H. unfold median, quantile. rewrite (dropna_all_missing xs H).
  reflexivity.
Qed.

Lemma impute_numerical_columns (d : DataFrame) (col : string) :
  columns (impute_numerical d col) = columns d.
Proof.
  unfold impute_numerical.
  destruct (get_col col d) as [[xs|xs|xs]|]; try reflexivity.
  destruct (0 <? _); [apply columns_update|reflexivity].
Qed.

(** The numerical loop never touches an object column. *)
Lemma impute_numerical_obj (d : DataFrame) (col name : string)
  (xs : list (option string)) :
  get_col name (impute_numerical d col) = Some (ObjCol xs)
  <-> get_col name d = Some (ObjCol xs).
Proof.
  unfold impute_numerical.
  destruct (get_col col d) as [[ys|ys|ys]|] eqn:G; try tauto.
  destruct (0 <? _); [|tauto].
  destruct (string_dec col name) as [->|NE].
  - rewrite get_update_same, G. simpl. split; discriminate.
  - rewrite get_update_other by exact NE. tauto.
Qed.

(** A numeric column that is missing throughout goes through the numerical
    loop unchanged: its median is NaN. *)
Lemma impute_numerical_all_missing (d : DataFrame) (col name : string)
  (xs : list num) :
  get_col name d = Some (NumCol xs) -> all_missing xs ->
  get_col name (impute_numerical d col) = Some (NumCol xs).
Proof.
  intros G Hall. unfold impute_numerical.
  destruct (string_dec col name) as [->|NE].
  - rewrite G. destruct (0 <? _); [|exact G].
    rewrite get_update_same, G, (median_all_missing xs Hall). reflexivity.
  - destruct (get_col col d) as [[ys|ys|ys]|]; try exact G.
    destruct (0 <? _); [|exact G].
    rewrite get_update_other by exact NE. exact G.
Qed.

Lemma impute_categorical_same (d d' : DataFrame) (col : string) :
  impute_categorical d col = Ok d' ->
  get_col col d' = option_map fill_mode (get_col col d).
Proof.
  unfold impute_categorical, fill_mode. intros H.
  destruct (get_col col d) as [[xs|xs|xs]|] eqn:G;
    try (injection H as <-; rewrite G; reflexivity).
  cbn [option_map].
  destruct (0 <? count_null xs); [|injection H as <-; exact G].
  destruct (mode xs) as [|m rest]; simpl in H; [discriminate|].
  injection H as <-. rewrite get_update_same, G. reflexivity.
Qed.

Lemma impute_categorical_other (d d' : DataFrame) (col name : string) :
  impute_categorical d col = Ok d' -> col <> name ->
  get_col name d' = get_col name d.
Proof.
  unfold impute_categorical. intros H NE.
  destruct (get_col col d) as [[xs|xs|xs]|];
    try (injection H as <-; reflexivity).
  destruct (0 <? _); [|injection H as <-; reflexivity].
  destruct (mode xs) as [|m rest]; simpl in H; [discriminate|].
  injection H as <-. apply get_update_other. exact NE.
Qed.

Lemma impute_categorical_columns (d d' : DataFrame) (col : string) :
  impute_categorical d col = Ok d' -> columns d' = columns d.
Proof.
  unfold impute_categorical. intros H.
  destruct (get_col col d) as [[xs|xs|xs]|];
    try (injection H as <-; reflexivity).
  destruct (0 <? _); [|injection H as <-; reflexivity].
  destruct (mode xs) as [|m rest]; simpl in H; [discriminate|].
  injection H as <-. apply columns_update.
Qed.

(** The only error of the imputer is the failed lookup of the first mode. *)
Lemma impute_categorical_raise (d : DataFrame) (col : string) (e : exn) :
  impute_categorical d col = Raise e -> e = KeyError "0".
Proof.
  unfold impute_categorical.
  destruct (get_col col d) as [[xs|xs|xs]|]; try discriminate.
  destruct (0 <? _); [|discriminate].
  destruct (mode xs) as [|m rest]; simpl; [|discriminate].
  intros H. injection H as <-. reflexivity.
Qed.

Lemma categorical_loop_raise (cols : list string) (e : exn) :
  fold_left (fun r col => do d <- r; impute_categorical d col) cols (Raise e)
  = Raise e.
Proof. induction cols as [|c t IH]; simpl; auto. Qed.

Lemma categorical_loop_get (cols : list string) :
  NoDup cols ->
  forall (d d' : DataFrame) (name : string),
    fold_left (fun r col => do d <- r; impute_categorical d col) cols (Ok d)
    = Ok d' ->
    get_col name d'
    = if in_dec string_dec name cols
      then option_map fill_mode (get_col name d)
      else get_col name d.
Proof.
  induction 1 as [|c t Hnotin Hnd IH]; intros d d' name H.
  - simpl in H. injection H as <-. reflexivity.
  - cbn [fold_left bind] in H.
    destruct (impute_categorical d c) as [d1|e] eqn:S;
      [|rewrite categorical_loop_raise in H; discriminate].
    rewrite (IH d1 d' name H).
    destruct (string_dec c name) as [->|NE].
    + destruct (in_dec string_dec name t) as [Hin|_]; [contradiction|].
      destruct (in_dec string_dec name (name :: t)) as [_|Hn];
        [|exfalso; apply Hn; left; reflexivity].
      apply impute_categorical_same. exact S.
    + rewrite (impute_categorical_other d d1 c name S NE).
      destruct (in_dec string_dec name t) as [Hin|Hn];
        destruct (in_dec string_dec name (c :: t)) as [Hin'|Hn'];
        try reflexivity.
      * exfalso. apply Hn'. right. exact Hin.
      * destruct Hin' as [E|Hin']; contradiction.
Qed.

(** The categorical loop returns when every column it has to fill has a
    value to fill it with. *)
Lemma categorical_loop_returns (cols : list string) (d : DataFrame) :
  (forall name xs, get_col name d = Some (ObjCol xs) -> 0 < count_null xs ->
                   exists v, In (Some v) xs) ->
  exists d',
    fold_left (fun r col => do d <- r; impute_categorical d col) cols (Ok d)
    = Ok d'.
Proof.
  revert d. induction cols as [|c t IH]; intros d Hd; [eexists; reflexivity|].
  cbn [fold_left bind].
  assert (Hstep : exists d1, impute_categorical d c = Ok d1 /\
            forall name xs, get_col name d1 = Some (ObjCol xs) ->
                            0 < count_null xs -> exists v, In (Some v) xs).
  { unfold impute_categorical.
    destruct (get_col c d) as [[xs|xs|xs]|] eqn:G;
      try solve [exists d; split; [reflexivity|exact Hd]].
    destruct (0 <? count_null xs) eqn:C;
      [|exists d; split; [reflexivity|exact Hd]].
    apply Nat.ltb_lt in C. destruct (Hd c xs G C) as [v Hv].
    pose proof (mode_nonempty xs v Hv) as Hne.
    destruct (mode xs) as [|m rest]; [congruence|]. simpl.
    eexists. split; [reflexivity|].
    intros name ys Hg Hc. destruct (string_dec c name) as [->|NE].
    - rewrite get_update_same, G in Hg. cbn [option_map] in Hg.
      injection Hg as <-. pose proof (count_null_fillna m xs) as Hz.
      unfold fillna in Hz. rewrite Hz in Hc. lia.
    - rewrite get_update_other in Hg by exact NE. eauto. }
  destruct Hstep as [d1 [-> Hd1]]. apply IH. exact Hd1.
Qed.

(** The categorical loop aborts on a column that is missing throughout. *)
Lemma categorical_loop_aborts (cols : list string) (name : string)
  (xs : list (option string)) :
  In name cols -> all_missing xs -> xs <> [] ->
  forall d, get_col name d = Some (ObjCol xs) ->
  fold_left (fun r col => do d <- r; impute_categorical d col) cols (Ok d)
  = Raise (KeyError "0").
Proof.
  intros Hin Hall Hne. induction cols as [|c t IH]; [contradiction|].
  intros d G. cbn [fold_left bind].
  destruct (impute_categorical d c) as [d1|e] eqn:S.
  - destruct (string_dec c name) as [->|NE].
    + exfalso. unfold impute_categorical in S. rewrite G in S.
      pose proof (count_null_all_missing xs Hall Hne) as C.
      apply Nat.ltb_lt in C.
      rewrite C, (mode_all_missing xs Hall) in S. discriminate.
    + destruct Hin as [E|Hin]; [contradiction|].
      apply (IH Hin). rewrite (impute_categorical_other d d1 c name S NE).
      exact G.
  - rewrite (impute_categorical_raise d c e S). apply categorical_loop_raise.
Qed.

Lemma numerical_loop_columns (cols : list string) (d : DataFrame) :
  columns (fold_left impute_numerical cols d) = columns d.
Proof.
  revert d. induction cols as [|c t IH]; intros d; simpl; [reflexivity|].
  rewrite IH. apply impute_numerical_columns.
Qed.

Lemma numerical_loop_obj (cols : list string) (d : DataFrame) (name : string)
  (xs : list (option string)) :
  get_col name (fold_left impute_numerical cols d) = Some (ObjCol xs)
  <-> get_col name d = Some (ObjCol xs).
Proof.
  revert d. induction cols as [|c t IH]; intros d; simpl; [tauto|].
  rewrite IH. apply impute_numerical_obj.
Qed.

Lemma numerical_loop_all_missing (cols : list string) (d : DataFrame)
  (name : string) (xs : list num) :
  get_col name d = Some (NumCol xs) -> all_missing xs ->
  get_col name (fold_left impute_numerical cols d) = Some (NumCol xs).
Proof.
  revert d. induction cols as [|c t IH]; intros d G Hall; simpl; [exact G|].
  apply IH; [|exact Hall]. apply impute_numerical_all_missing; assumption.
Qed.

(** ** Imputation: the claims *)

Lemma handle_missing_values_unfold (df : DataFrame) :
  (total_missing df =? 0) = false ->
  handle_missing_values df
  = fold_left (fun r col => do d <- r; impute_categorical d col)
      (categorical_cols (fold_left impute_numerical (numerical_cols df) df))
      (Ok (fold_left impute_numerical (numerical_cols df) df)).
Proof. intros E. unfold handle_missing_values. rewrite E. reflexivity. Qed.

Lemma handle_missing_values_returns (df : DataFrame) :
  modes_exist df -> exists df', handle_missing_values df = Ok df'.
Proof.
  intros Hm. destruct (total_missing df =? 0) eqn:E.
  - exists df. unfold handle_missing_values. rewrite E. reflexivity.
  - rewrite (handle_missing_values_unfold df E).
    apply categorical_loop_returns. intros name xs G C.
    apply numerical_loop_obj, get_col_Some_In in G. eauto.
Qed.

(** C5, as the code has it.  Of a column whose entries are all missing:
    a numeric one raises no error, its median is NaN and it comes back
    unchanged whenever the imputer returns; a non-empty categorical one
    makes the imputer abort on the lookup of the first mode; and the
    imputer returns whenever no categorical column with a missing entry is
    missing throughout, whatever its numeric columns are. *)
Theorem all_missing_column_imputation (df : DataFrame) :
  well_formed df ->
  (forall name xs,
     In (name, NumCol xs) df -> all_missing xs ->
     median xs = None /\
     forall df', handle_missing_values df = Ok df' ->
                 get_col name df' = Some (NumCol xs)) /\
  (forall name xs,
     In (name, ObjCol xs) df -> xs <> [] -> all_missing xs ->
     handle_missing_values df = Raise (KeyError "0")) /\
  (modes_exist df -> exists df', handle_missing_values df = Ok df').
Proof.
  intros [Hnd Hlen]. split; [|split].
  - intros name xs Hin Hall. split; [apply median_all_missing; exact Hall|].
    intros df' H. pose proof (get_col_In df name _ Hnd Hin) as G.
    destruct (total_missing df =? 0) eqn:E.
    + unfold handle_missing_values in H. rewrite E in H.
      injection H as <-. exact G.
    + rewrite (handle_missing_values_unfold df E) in H.
      pose proof (numerical_loop_all_missing (numerical_cols df) df name xs
                    G Hall) as G1.
      rewrite (categorical_loop_get _
                 (categorical_cols_NoDup _
                    (eq_ind_r (@NoDup string) Hnd
                       (numerical_loop_columns (numerical_cols df) df)))
                 _ df' name H).
      rewrite G1. destruct (in_dec _ _ _); reflexivity.
  - intros name xs Hin Hne Hall.
    pose proof (get_col_In df name _ Hnd Hin) as G.
    rewrite (handle_missing_values_unfold df
               (total_missing_pos df name (ObjCol xs) Hin
                  (count_null_all_missing xs Hall Hne))).
    apply (proj2 (numerical_loop_obj (numerical_cols df) df name xs)) in G.
    apply (categorical_loop_aborts _ name xs); auto.
    eapply categorical_cols_In, get_col_Some_In, G.
  - apply handle_missing_values_returns.
Qed.

(** C6, as the code has it.  For a categorical column with a missing and a
    non-missing entry: the imputer returns provided no categorical column
    with a missing entry is missing throughout, and whenever it returns,
    every missing entry of the column holds its most frequent non-missing
    value, the first in sorted order among equally frequent ones. *)
Theorem mode_imputation_sorted_ties
  (df : DataFrame) (name : string) (xs : list (option string)) :
  well_formed df ->
  In (name, ObjCol xs) df ->
  0 < count_null xs ->
  (exists v, In (Some v) xs) ->
  (modes_exist df -> exists df', handle_missing_values df = Ok df') /\
  forall df', handle_missing_values df = Ok df' ->
    exists m,
      get_col name df'
      = Some (ObjCol (map (fun c => match c with None => Some m | Some _ => c end)
                        xs)) /\
      In (Some m) xs /\
      (forall v, In (Some v) xs ->
         occurrences v (dropna xs) <= occurrences m (dropna xs)) /\
      (forall v, In (Some v) xs ->
         occurrences v (dropna xs) = occurrences m (dropna xs) ->
         String.leb m v = true).
Proof.
  intros [Hnd Hlen] Hin Hnull [v Hv].
  split; [apply handle_missing_values_returns|].
  intros df' H.
  rewrite (handle_missing_values_unfold df
             (total_missing_pos df name (ObjCol xs) Hin Hnull)) in H.
  pose proof (get_col_In df name _ Hnd Hin) as G.
  apply (proj2 (numerical_loop_obj (numerical_cols df) df name xs)) in G.
  pose proof (categorical_loop_get _
                (categorical_cols_NoDup _
                   (eq_ind_r (@NoDup string) Hnd
                      (numerical_loop_columns (numerical_cols df) df)))
                _ df' name H) as G'.
  destruct (in_dec _ _ _) as [_|Hn];
    [|exfalso; apply Hn; eapply categorical_cols_In, get_col_Some_In, G].
  rewrite G in G'. cbn [option_map fill_mode] in G'.
  apply Nat.ltb_lt in Hnull. rewrite Hnull in G'.
  pose proof (mode_nonempty xs v Hv) as Hne.
  destruct (mode xs) as [|m rest] eqn:M; [congruence|].
  exists m. split; [exact G'|]. exact (mode_head xs m rest M).
Qed.

Lemma unknown_income_well_formed : well_formed unknown_income.
Proof.
  split.
  - repeat constructor; simpl; intuition discriminate.
  - intros n c [H|[H|[]]]; injection H as <- <-; reflexivity.
Defined.

(** C5 fails: a numeric column with no value at all is returned as it is,
    and nothing is raised. *)
Lemma all_missing_numeric_not_flagged :
  (forall c, In c no_income -> c = None) /\
  handle_missing_values unknown_income
  = Ok [("income"%string, NumCol no_income);
        ("city"%string,
         ObjCol [Some "Oslo"%string; Some "Oslo"%string; Some "Oslo"%string])].
Proof.
  split.
  - intros c [H|[H|[H|[]]]]; symmetry; exact H.
  - vm_compute. reflexivity.
Qed.

Lemma unknown_income_modes : modes_exist unknown_income.
Proof.
  intros name xs [H|[H|[]]] _; [discriminate H|].
  injection H as _ <-. exists "Oslo"%string. left. reflexivity.
Defined.

Lemma no_income_missing : all_missing no_income.
Proof. intros c [H|[H|[H|[]]]]; symmetry; exact H. Defined.

Lemma all_missing_column_imputation_witness :
  well_formed unknown_income /\
  In ("income"%string, NumCol no_income) unknown_income /\
  all_missing no_income /\
  modes_exist unknown_income /\
  median no_income = None /\
  (forall df', handle_missing_values unknown_income = Ok df' ->
               get_col "income" df' = Some (NumCol no_income)) /\
  exists df', handle_missing_values unknown_income = Ok df'.
Proof.
  split; [exact unknown_income_well_formed|].
  split; [left; reflexivity|].
  split; [exact no_income_missing|].
  split; [exact unknown_income_modes|].
  destruct (all_missing_column_imputation unknown_income
              unknown_income_well_formed) as (Hnum & _ & Hret).
  destruct (Hnum "income"%string no_income (or_introl eq_refl)
              no_income_missing) as [Hmed Hsame].
  split; [exact Hmed|]. split; [exact Hsame|].
  exact (Hret unknown_income_modes).
Defined.

Example all_missing_categorical_aborts :
  handle_missing_values
    [("note"%string, ObjCol [None; None]);
     ("age"%string, NumCol [Some 30%Q; None])]
  = Raise (KeyError "0").
Proof. reflexivity. Qed.

Lemma pets_well_formed : well_formed pets.
Proof.
  split.
  - repeat constructor; simpl; intuition discriminate.
  - intros n c [H|[]]; injection H as <- <-; reflexivity.
Defined.

(** C6 fails on the tie-break: "dog" and "cat" are equally frequent and
    "dog" is met first, yet the missing entry is filled with "cat". *)
Lemma mode_tie_not_first_seen :
  first_seen_mode pet_values = Some "dog"%string /\
  handle_missing_values pets
  = Ok [("pet"%string,
         ObjCol [Some "dog"%string; Some "cat"%string; Some "cat"%string])].
Proof. split; vm_compute; reflexivity. Qed.

Lemma pets_modes : modes_exist pets.
Proof.
  intros name xs [H|[]] _. injection H as _ <-.
  exists "dog"%string. left. reflexivity.
Defined.

Lemma mode_imputation_sorted_ties_witness :
  well_formed pets /\
  In ("pet"%string, ObjCol pet_values) pets /\
  0 < count_null pet_values /\
  (exists v, In (Some v) pet_values) /\
  modes_exist pets /\
  (exists df', handle_missing_values pets = Ok df') /\
  forall df', handle_missing_values pets = Ok df' ->
    exists m,
      get_col "pet" df'
      = Some (ObjCol (map (fun c => match c with None => Some m | Some _ => c end)
                        pet_values)) /\
      In (Some m) pet_values /\
      (forall v, In (Some v) pet_values ->
         occurrences v (dropna pet_values) <= occurrences m (dropna pet_values)) /\
      (forall v, In (Some v) pet_values ->
         occurrences v (dropna pet_values) = occurrences m (dropna pet_values) ->
         String.leb m v = true).
Proof.
  split; [exact pets_well_formed|].
  split; [left; reflexivity|].
  split; [vm_compute; lia|].
  split; [exists "dog"%string; left; reflexivity|].
  split; [exact pets_modes|].
  destruct (mode_imputation_sorted_ties pets "pet" pet_values) as [Hret Hfill].
  - exact pets_well_formed.
  - left; reflexivity.
  - vm_compute; lia.
  - exists "dog"%string; left; reflexivity.
  - split; [exact (Hret pets_modes)|exact Hfill].
Defined.

(** ** Dicts, appended and dropped columns *)

Lemma get_set_same (em : EncodingMap) (col : string) (m : mapping) :
  get_item (set_item em col m) col = Some m.
Proof.
  induction em as [|[c m'] t IH]; simpl.
  - rewrite String.eqb_refl. reflexivity.
  - destruct (String.eqb c col) eqn:E; simpl; rewrite E; auto.
Qed.

Lemma get_set_other (em : EncodingMap) (col name : string) (m : mapping) :
  col <> name -> get_item (set_item em col m) name = get_item em name.
Proof.
  intros NE. induction em as [|[c m'] t IH]; simpl.
  - apply String.eqb_neq in NE. rewrite NE. reflexivity.
  - destruct (String.eqb c col) eqn:E; simpl.
    + apply String.eqb_eq in E. subst c.
      apply String.eqb_neq in NE. rewrite NE. reflexivity.
    + rewrite IH. reflexivity.
Qed.

Lemma get_col_app (df extra : DataFrame) (name : string) (c : column) :
  get_col name df = Some c -> get_col name (df ++ extra) = Some c.
Proof.
  induction df as [|[n c'] t IH]; simpl; [discriminate|].
  destruct (String.eqb n name); auto.
Qed.

Lemma get_col_drop_other (df : DataFrame) (col name : string) :
  col <> name -> get_col name (drop_col col df) = get_col name df.
Proof.
  intros NE. unfold drop_col.
  induction df as [|[n c] t IH]; simpl; [reflexivity|].
  destruct (String.eqb n col) eqn:E; simpl.
  - apply String.eqb_eq in E. subst n.
    apply String.eqb_neq in NE. rewrite NE. exact IH.
  - rewrite IH. reflexivity.
Qed.

Lemma columns_app (d1 d2 : DataFrame) :
  columns (d1 ++ d2) = columns d1 ++ columns d2.
Proof. apply map_app. Qed.

Lemma columns_drop_col (df : DataFrame) (col name : string) :
  In name (columns (drop_col col df)) -> name <> col /\ In name (columns df).
Proof.
  unfold columns, drop_col. rewrite !in_map_iff.
  intros [[n c] [<- Hin]]. apply filter_In in Hin. destruct Hin as [Hin Hne].
  simpl in *. apply negb_true_iff, String.eqb_neq in Hne.
  split; [exact Hne|]. exists (n, c). auto.
Qed.

Lemma update_col_app (name : string) (f : column -> column) (d1 d2 : DataFrame) :
  update_col name f (d1 ++ d2) = update_col name f d1 ++ update_col name f d2.
Proof. apply map_app. Qed.

Lemma update_col_absent (name : string) (f : column -> column) (df : DataFrame) :
  ~ In name (columns df) -> update_col name f df = df.
Proof.
  intros Hn. unfold update_col. rewrite <- (map_id df) at 2.
  apply map_ext_in. intros [n c] Hin. simpl.
  destruct (String.eqb n name) eqn:E; [|reflexivity].
  apply String.eqb_eq in E. subst n. exfalso. apply Hn.
  change name with (fst (name, c)). apply in_map. exact Hin.
Qed.

Lemma drop_col_app (col : string) (d1 d2 : DataFrame) :
  drop_col col (d1 ++ d2) = drop_col col d1 ++ drop_col col d2.
Proof. apply filter_app. Qed.

Lemma drop_col_absent (col : string) (df : DataFrame) :
  ~ In col (columns df) -> drop_col col df = df.
Proof.
  intros Hn. unfold drop_col.
  induction df as [|[n c] t IH]; simpl; [reflexivity|].
  destruct (String.eqb n col) eqn:E; simpl.
  - apply String.eqb_eq in E. subst n. exfalso. apply Hn. left. reflexivity.
  - rewrite IH; [reflexivity|]. intros H. apply Hn. right. exact H.
Qed.

(** ** Distinct values of a column without missing entries *)

Lemma filter_map_comm {A B} (f : B -> bool) (g : A -> B) (l : list A) :
  filter f (map g l) = map g (filter (fun x => f (g x)) l).
Proof.
  induction l as [|x t IH]; simpl; [reflexivity|].
  destruct (f (g x)); simpl; rewrite IH; reflexivity.
Qed.

Lemma unique_complete (xs : list (option string)) :
  count_null xs = 0 ->
  unique_entries xs = map Some (unique String.eqb (dropna xs)).
Proof.
  unfold unique_entries, count_null.
  induction xs as [|[v|] t IH]; simpl; [reflexivity| |discriminate].
  intros H. rewrite (IH H), filter_map_comm. reflexivity.
Qed.

Lemma NoDup_unique (l : list string) : NoDup (unique String.eqb l).
Proof.
  induction l as [|x t IH]; simpl; constructor.
  - rewrite filter_In, String.eqb_refl. intros [_ H]. discriminate.
  - apply NoDup_filter. exact IH.
Qed.

Lemma dict_get_combine (vals : list string) (v : string) (k s : nat) :
  NoDup vals -> nth_error vals k = Some v ->
  dict_get (combine (map Some vals) (map Z.of_nat (seq s (length vals))))
    (Some v)
  = Some (Z.of_nat (s + k)).
Proof.
  revert k s. induction vals as [|a t IH]; intros k s Hnd Hk.
  - destruct k; discriminate.
  - inversion Hnd as [|? ? Hnotin Hnd']; subst. cbn [map length seq combine dict_get key_eqb].
    destruct k as [|k]; simpl in Hk.
    + injection Hk as ->. rewrite String.eqb_refl, Nat.add_0_r. reflexivity.
    + destruct (String.eqb a v) eqn:E.
      * apply String.eqb_eq in E. subst a. exfalso. apply Hnotin.
        eapply nth_error_In; eauto.
      * rewrite (IH k (S s) Hnd' Hk). f_equal. lia.
Qed.

(** The codes of a label mapping: a value of the column gets its rank in
    first-seen order. *)
Lemma map_series_enumerate (xs : list (option string)) (i : nat) (v : string) :
  nth_error xs i = Some (Some v) ->
  exists k,
    nth_error (unique String.eqb (dropna xs)) k = Some v /\
    nth_error
      (map_series (enumerate (map Some (unique String.eqb (dropna xs)))) xs) i
    = Some (Some (inject_Z (Z.of_nat k))).
Proof.
  intros Hi.
  assert (Hin : In v (unique String.eqb (dropna xs))).
  { apply In_unique, In_dropna. eapply nth_error_In; eauto. }
  apply In_nth_error in Hin. destruct Hin as [k Hk]. exists k.
  split; [exact Hk|].
  unfold map_series, enumerate. rewrite nth_error_map, Hi. cbn [option_map].
  rewrite length_map.
  rewrite (dict_get_combine _ v k 0 (NoDup_unique _) Hk). reflexivity.
Qed.

(** ** The loop of [encode_categorical_variables] *)

Lemma string_length_append (a b : string) :
  String.length (a ++ b) = String.length a + String.length b.
Proof. induction a as [|c a IH]; simpl; [reflexivity|rewrite IH; reflexivity]. Qed.

Lemma indicator_name_neq (prefix level : string) :
  indicator_name prefix level <> prefix.
Proof.
  intros E. apply (f_equal String.length) in E.
  unfold indicator_name in E. rewrite string_length_append in E.
  simpl in E. lia.
Qed.

Lemma columns_get_dummies (xs : list (option string)) (prefix : string) :
  columns (get_dummies xs prefix)
  = map (indicator_name prefix)
      (tl (sort String.leb (unique String.eqb (dropna xs)))).
Proof. unfold columns, get_dummies. rewrite map_map. reflexivity. Qed.

Lemma length_get_dummies (xs : list (option string)) (prefix : string) :
  length (get_dummies xs prefix) = nunique xs - 1.
Proof.
  unfold get_dummies, nunique. rewrite length_map, length_tl, length_sort.
  reflexivity.
Qed.

(** A column without missing entries and with at most ten distinct values
    is label-encoded by rank in first-seen order (for two values this is
    the binary mapping). *)
Lemma encode_step_label (df : DataFrame) (em : EncodingMap) (name : string)
  (xs : list (option string)) :
  get_col name df = Some (ObjCol xs) ->
  count_null xs = 0 ->
  nunique xs <= 10 ->
  encode_step (df, em) name
  = (update_col name
       (fun _ => NumCol (map_series
                           (enumerate (map Some (unique String.eqb (dropna xs))))
                           xs)) df,
     set_item em name (enumerate (map Some (unique String.eqb (dropna xs))))).
Proof.
  intros G Hnull Hn. unfold encode_step. rewrite G.
  rewrite (unique_complete xs Hnull).
  destruct (nunique xs =? 2) eqn:E2.
  - apply Nat.eqb_eq in E2. unfold nunique in E2.
    destruct (unique String.eqb (dropna xs)) as [|a [|b [|c t]]];
      try discriminate.
    reflexivity.
  - apply Nat.leb_le in Hn. rewrite Hn. reflexivity.
Qed.

Lemma encode_step_one_hot (df : DataFrame) (em : EncodingMap) (name : string)
  (xs : list (option string)) :
  get_col name df = Some (ObjCol xs) ->
  10 < nunique xs ->
  encode_step (df, em) name = (drop_col name (df ++ get_dummies xs name), em).
Proof.
  intros G Hn. unfold encode_step. rewrite G.
  destruct (nunique xs =? 2) eqn:E2; [apply Nat.eqb_eq in E2; lia|].
  destruct (nunique xs <=? 10) eqn:E10; [apply Nat.leb_le in E10; lia|].
  reflexivity.
Qed.

(** An iteration on another column keeps a column and its dict entry. *)
Lemma encode_step_other (acc : DataFrame * EncodingMap) (col name : string)
  (c : column) :
  col <> name ->
  get_col name (fst acc) = Some c ->
  get_col name (fst (encode_step acc col)) = Some c /\
  get_item (snd (encode_step acc col)) name = get_item (snd acc) name.
Proof.
  intros NE G. destruct acc as [df em]. unfold encode_step. cbn [fst snd] in *.
  destruct (get_col col df) as [[xs|xs|xs]|]; auto.
  destruct (nunique xs =? 2); [|destruct (nunique xs <=? 10)]; cbn [fst snd].
  - rewrite get_update_other, get_set_other by exact NE. auto.
  - rewrite get_update_other, get_set_other by exact NE. auto.
  - rewrite get_col_drop_other by exact NE. split; [|reflexivity].
    apply get_col_app. exact G.
Qed.

Lemma encode_loop_other (cols : list string) (name : string) (c : column) :
  ~ In name cols ->
  forall acc,
    get_col name (fst acc) = Some c ->
    get_col name (fst (fold_left encode_step cols acc)) = Some c /\
    get_item (snd (fold_left encode_step cols acc)) name
    = get_item (snd acc) name.
Proof.
  induction cols as [|col t IH]; intros Hn acc G; [auto|].
  cbn [fold_left].
  assert (NE : col <> name) by (intros ->; apply Hn; left; reflexivity).
  destruct (encode_step_other acc col name c NE G) as [G1 E1].
  destruct (IH (fun H => Hn (or_intror H)) (encode_step acc col) G1) as [G2 E2].
  split; [exact G2|]. rewrite E2. exact E1.
Qed.

Lemma split_at_column (cols : list string) (name : string) :
  NoDup cols -> In name cols ->
  exists before after,
    cols = before ++ name :: after /\ ~ In name before /\ ~ In name after.
Proof.
  intros Hnd Hin. destruct (in_split name cols Hin) as (l1 & l2 & ->).
  exists l1, l2. split; [reflexivity|].
  apply NoDup_remove_2 in Hnd. rewrite in_app_iff in Hnd. tauto.
Qed.

(** Every categorical column reaches its own iteration unchanged, and the
    loop is that iteration between the ones before and the ones after. *)
Lemma encode_reaches_column (df : DataFrame) (name : string)
  (xs : list (option string)) :
  well_formed df -> In (name, ObjCol xs) df ->
  exists before after acc,
    categorical_cols df = before ++ name :: after /\
    ~ In name after /\
    acc = fold_left encode_step before (df, []) /\
    get_col name (fst acc) = Some (ObjCol xs) /\
    get_item (snd acc) name = None /\
    encode_categorical_variables df
    = fold_left encode_step after (encode_step acc name).
Proof.
  intros [Hnd _] Hin.
  pose proof (categorical_cols_In df name xs Hin) as Hc.
  destruct (split_at_column _ name (categorical_cols_NoDup df Hnd) Hc)
    as (before & after & E & Hb & Ha).
  exists before, after, (fold_left encode_step before (df, [])).
  split; [exact E|]. split; [exact Ha|]. split; [reflexivity|].
  destruct (encode_loop_other before name (ObjCol xs) Hb (df, [])
              (get_col_In df name _ Hnd Hin)) as [G1 E1].
  split; [exact G1|]. split; [exact E1|].
  unfold encode_categorical_variables. rewrite E.
  rewrite length_app. cbn [length].
  replace (length before + S (length after) =? 0) with false
    by (symmetry; apply Nat.eqb_neq; lia).
  rewrite fold_left_app. reflexivity.
Qed.

(** Table level: a column without missing entries and with at most ten
    distinct values ends up label-encoded, and its mapping is recorded. *)
Lemma encode_label_column (df : DataFrame) (name : string)
  (xs : list (option string)) :
  well_formed df -> In (name, ObjCol xs) df ->
  count_null xs = 0 -> nunique xs <= 10 ->
  get_col name (fst (encode_categorical_variables df))
  = Some (NumCol (map_series
                    (enumerate (map Some (unique String.eqb (dropna xs)))) xs)) /\
  get_item (snd (encode_categorical_variables df)) name
  = Some (enumerate (map Some (unique String.eqb (dropna xs)))).
Proof.
  intros Hwf Hin Hnull Hn.
  destruct (encode_reaches_column df name xs Hwf Hin)
    as (before & after & [d em] & _ & Ha & _ & G & _ & ->).
  cbn [fst] in G. rewrite (encode_step_label d em name xs G Hnull Hn).
  match goal with
  | |- context [fold_left encode_step after ?a] =>
      destruct (encode_loop_other after name
                  (NumCol (map_series
                     (enumerate (map Some (unique String.eqb (dropna xs)))) xs))
                  Ha a) as [G2 E2]
  end.
  - cbn [fst]. rewrite get_update_same, G. reflexivity.
  - split; [exact G2|]. rewrite E2. cbn [snd]. apply get_set_same.
Qed.

Lemma encode_step_keeps_block (block : DataFrame) (name col : string)
  (acc : DataFrame * EncodingMap) :
  col <> name ->
  ~ In col (columns block) ->
  (forall ys, ~ In name (columns (get_dummies ys col))) ->
  holds_block block name acc ->
  holds_block block name (encode_step acc col).
Proof.
  intros NE Hcol Hname [(pre & post & E) [Hn Hg]].
  destruct acc as [df em]. cbn [fst snd] in *. unfold encode_step.
  destruct (get_col col df) as [[xs|xs|xs]|];
    try (split; [exists pre, post; exact E|split; assumption]).
  assert (Hlabel : forall f m,
    holds_block block name (update_col col f df, set_item em col m)).
  { intros f m. split; [|split]; cbn [fst snd].
    - exists (update_col col f pre), (update_col col f post).
      rewrite E, !update_col_app, (update_col_absent col f block Hcol).
      reflexivity.
    - rewrite columns_update. exact Hn.
    - rewrite get_set_other by exact NE. exact Hg. }
  destruct (nunique xs =? 2); [apply Hlabel|].
  destruct (nunique xs <=? 10); [apply Hlabel|].
  split; [|split]; cbn [fst snd].
  - exists (drop_col col pre), (drop_col col post ++ drop_col col (get_dummies xs col)).
    rewrite E, !drop_col_app, (drop_col_absent col block Hcol), <- !app_assoc.
    reflexivity.
  - intros H. apply columns_drop_col in H. destruct H as [_ H].
    rewrite columns_app, in_app_iff in H. destruct H as [H|H]; [auto|].
    exact (Hname xs H).
  - exact Hg.
Qed.

Lemma encode_loop_keeps_block (block : DataFrame) (name : string)
  (cols : list string) :
  (forall col, In col cols ->
     col <> name /\ ~ In col (columns block) /\
     forall ys, ~ In name (columns (get_dummies ys col))) ->
  forall acc, holds_block block name acc ->
              holds_block block name (fold_left encode_step cols acc).
Proof.
  induction cols as [|col t IH]; intros Hc acc H; [exact H|].
  cbn [fold_left]. apply IH; [intros c Hin; apply Hc; right; exact Hin|].
  destruct (Hc col (or_introl eq_refl)) as (NE & Hb & Hn).
  apply encode_step_keeps_block; assumption.
Qed.

(** Table level: a column with more than ten distinct values is replaced
    by its indicator columns, provided indicator names are fresh. *)
Lemma encode_one_hot_column (df : DataFrame) (name : string)
  (xs : list (option string)) :
  well_formed df -> In (name, ObjCol xs) df ->
  10 < nunique xs -> fresh_indicator_names df ->
  holds_block (get_dummies xs name) name (encode_categorical_variables df).
Proof.
  intros Hwf Hin Hn Hfresh.
  destruct (encode_reaches_column df name xs Hwf Hin)
    as (before & after & [d em] & Ecols & Ha & _ & G & Hg & ->).
  cbn [fst snd] in G, Hg. rewrite (encode_step_one_hot d em name xs G Hn).
  assert (Hname : In name (columns df)).
  { change name with (fst (name, ObjCol xs)). apply in_map. exact Hin. }
  assert (Hblock : ~ In name (columns (get_dummies xs name))).
  { rewrite columns_get_dummies, in_map_iff. intros [v [E _]].
    exact (indicator_name_neq name v E). }
  apply encode_loop_keeps_block.
  - intros col Hcol.
    assert (Hcat : In col (categorical_cols df))
      by (rewrite Ecols; apply in_or_app; right; right; exact Hcol).
    split; [intros ->; contradiction|]. split.
    + rewrite columns_get_dummies, in_map_iff. intros [v [E _]].
      apply (Hfresh name v (categorical_cols_In df name xs Hin)).
      rewrite E. apply categorical_cols_incl. exact Hcat.
    + intros ys. rewrite columns_get_dummies, in_map_iff. intros [v [E _]].
      apply (Hfresh col v Hcat). rewrite E. exact Hname.
  - split; [|split]; cbn [fst snd].
    + exists (drop_col name d), [].
      rewrite drop_col_app, (drop_col_absent name _ Hblock), app_nil_r.
      reflexivity.
    + intros H. apply columns_drop_col in H. destruct H as [H _]. congruence.
    + exact Hg.
Qed.

(** ** Encoding: the claims *)

Lemma count_null_zero {A} (xs : list (option A)) (c : option A) :
  count_null xs = 0 -> In c xs -> exists v, c = Some v.
Proof.
  unfold count_null. induction xs as [|[w|] t IH]; simpl; try discriminate.
  - contradiction.
  - intros H [<-|Hin]; eauto.
Qed.

(** X28.  The policy of the encoder, where it is the stated one, on a
    table none of whose columns bears an indicator name (on another table
    the script can stop with a [ValueError]).  It follows the number N of
    distinct non-missing values of the column, taken in first-seen order.
    For a column without missing entries: if N = 2 the two values are
    mapped to 0 and 1 and the mapping is recorded; if 3 <= N <= 10 the
    values are mapped to their ranks 0 .. N-1 and the mapping is recorded;
    in both cases every cell of the column is replaced by the code of its
    value.  If N > 10 the column is removed, no mapping is recorded, and
    its N-1 indicator columns, named after every sorted value but the
    first, stand in the table. *)
Theorem encoder_policy_by_cardinality
  (df : DataFrame) (name : string) (xs : list (option string)) :
  well_formed df ->
  fresh_indicator_names df ->
  In (name, ObjCol xs) df ->
  let vals := unique String.eqb (dropna xs) in
  let df' := fst (encode_categorical_variables df) in
  let encoding_map := snd (encode_categorical_variables df) in
  NoDup vals /\ length vals = nunique xs /\
  (count_null xs = 0 -> nunique xs = 2 ->
   exists a b,
     vals = [a; b] /\
     get_item encoding_map name = Some [(Some a, 0%Z); (Some b, 1%Z)] /\
     get_col name df'
     = Some (NumCol (map_series [(Some a, 0%Z); (Some b, 1%Z)] xs))) /\
  (count_null xs = 0 -> 3 <= nunique xs <= 10 ->
   get_item encoding_map name = Some (enumerate (map Some vals)) /\
   get_col name df' = Some (NumCol (map_series (enumerate (map Some vals)) xs))) /\
  (count_null xs = 0 -> 2 <= nunique xs <= 10 ->
   exists ys,
     get_col name df' = Some (NumCol ys) /\
     forall i v, nth_error xs i = Some (Some v) ->
       exists k, nth_error vals k = Some v /\
                 nth_error ys i = Some (Some (inject_Z (Z.of_nat k)))) /\
  (10 < nunique xs ->
   (exists pre post, df' = pre ++ get_dummies xs name ++ post) /\
   ~ In name (columns df') /\
   get_item encoding_map name = None /\
   length (get_dummies xs name) = nunique xs - 1 /\
   columns (get_dummies xs name)
   = map (indicator_name name) (tl (sort String.leb vals))).
Proof.
  intros Hwf Hfresh Hin vals df' encoding_map.
  split; [apply NoDup_unique|]. split; [reflexivity|].
  split; [|split; [|split]].
  - intros Hnull H2.
    destruct (encode_label_column df name xs Hwf Hin Hnull) as [G E]; [lia|].
    fold vals df' encoding_map in G, E.
    unfold nunique in H2. fold vals in H2.
    destruct vals as [|a [|b [|c t]]]; try discriminate.
    exists a, b. auto.
  - intros Hnull H3.
    destruct (encode_label_column df name xs Hwf Hin Hnull) as [G E]; [lia|].
    auto.
  - intros Hnull H2.
    destruct (encode_label_column df name xs Hwf Hin Hnull) as [G E]; [lia|].
    eexists. split; [exact G|].
    intros i v Hi. exact (map_series_enumerate xs i v Hi).
  - intros H10.
    destruct (encode_one_hot_column df name xs Hwf Hin H10 Hfresh)
      as (Hb & Hn & Hg).
    split; [exact Hb|]. split; [exact Hn|]. split; [exact Hg|].
    split; [apply length_get_dummies|apply columns_get_dummies].
Qed.

(** X29.  On a table none of whose columns bears an indicator name, a
    categorical column without missing entries whose values are all the
    same takes the label branch: the value is mapped to 0, the column
    becomes the constant 0, and the single-entry mapping is recorded. *)
Theorem single_value_column_label_encoded
  (df : DataFrame) (name : string) (xs : list (option string)) :
  well_formed df ->
  fresh_indicator_names df ->
  In (name, ObjCol xs) df ->
  count_null xs = 0 ->
  nunique xs = 1 ->
  exists a,
    unique String.eqb (dropna xs) = [a] /\
    get_item (snd (encode_categorical_variables df)) name
    = Some [(Some a, 0%Z)] /\
    get_col name (fst (encode_categorical_variables df))
    = Some (NumCol (map (fun _ => Some 0%Q) xs)).
Proof.
  intros Hwf Hfresh Hin Hnull H1.
  destruct (encode_label_column df name xs Hwf Hin Hnull) as [G E]; [lia|].
  unfold nunique in H1.
  destruct (unique String.eqb (dropna xs)) as [|a [|b t]] eqn:U;
    try discriminate.
  exists a. split; [reflexivity|]. split; [exact E|].
  rewrite G. do 2 f_equal. unfold map_series. apply map_ext_in.
  intros c Hc. destruct (count_null_zero xs c Hnull Hc) as [v ->].
  assert (Hv : In v (unique String.eqb (dropna xs)))
    by (apply In_unique, In_dropna; exact Hc).
  rewrite U in Hv. destruct Hv as [<-|[]].
  cbn. rewrite String.eqb_refl. reflexivity.
Qed.

(** C3.  The encoder on the column [M, missing, F], whose distinct
    non-missing values are N = 2: [unique()] lists the missing marker
    between M and F, so the binary mapping is {M: 0, missing: 1}, the
    missing cell gets the code 1 and the value F, left without a code,
    becomes NaN.  The stated policy maps M and F bijectively to 0 and 1. *)
Lemma binary_mapping_takes_missing_marker :
  nunique gender_values = 2 /\
  encode_categorical_variables [("gender"%string, ObjCol gender_values)]
  = ([("gender"%string, NumCol [Some 0%Q; Some 1%Q; None])],
     [("gender"%string, [(Some "M"%string, 0%Z); (None, 1%Z)])]).
Proof. split; vm_compute; reflexivity. Qed.

(** C10.  The encoder on the column [yes, missing], whose distinct
    non-missing values are N = 1: the label mapping is {yes: 0, missing: 1},
    with two entries, and the encoded column [0, 1] is not constant.  The
    stated behaviour is a single-entry mapping and a constant column. *)
Lemma single_value_with_missing_not_constant :
  nunique flag_values = 1 /\
  encode_categorical_variables [("flag"%string, ObjCol flag_values)]
  = ([("flag"%string, NumCol [Some 0%Q; Some 1%Q])],
     [("flag"%string, [(Some "yes"%string, 0%Z); (None, 1%Z)])]).
Proof. split; vm_compute; reflexivity. Qed.

Lemma school_well_formed : well_formed school.
Proof.
  split.
  - repeat constructor; simpl; intuition discriminate.
  - intros n c [H|[H|[]]]; injection H as <- <-; reflexivity.
Defined.

Lemma school_fresh : fresh_indicator_names school.
Proof.
  intros col level [<-|[<-|[]]] [H|[H|[]]]; discriminate H.
Defined.

Example encode_school :
  encode_categorical_variables school
  = ([("grade"%string, NumCol [Some 0%Q; Some 1%Q; Some 0%Q; Some 2%Q]);
      ("campus"%string, NumCol [Some 0%Q; Some 0%Q; Some 0%Q; Some 0%Q])],
     [("grade"%string,
       [(Some "B"%string, 0%Z); (Some "A"%string, 1%Z); (Some "C"%string, 2%Z)]);
      ("campus"%string, [(Some "north"%string, 0%Z)])]).
Proof. vm_compute. reflexivity. Qed.

Lemma sales_well_formed : well_formed sales.
Proof.
  split.
  - repeat constructor; simpl; intuition discriminate.
  - intros n c [H|[H|[]]]; injection H as <- <-; reflexivity.
Defined.

Lemma sales_fresh : fresh_indicator_names sales.
Proof.
  intros col level [<-|[]] [H|[H|[]]]; discriminate H.
Defined.

Example encode_sales_columns :
  columns (fst (encode_categorical_variables sales))
  = ["units"; "month_aug"; "month_dec"; "month_feb"; "month_jan"; "month_jul";
     "month_jun"; "month_mar"; "month_may"; "month_nov"; "month_oct";
     "month_sep"]%string.
Proof. vm_compute. reflexivity. Qed.

Lemma encoder_policy_by_cardinality_witness :
  (well_formed school /\
   fresh_indicator_names school /\
   In ("grade"%string, ObjCol grade_values) school /\
   get_item (snd (encode_categorical_variables school)) "grade"
   = Some (enumerate (map Some (unique String.eqb (dropna grade_values)))) /\
   get_col "grade" (fst (encode_categorical_variables school))
   = Some (NumCol (map_series
                     (enumerate (map Some (unique String.eqb (dropna grade_values))))
                     grade_values))) /\
  (well_formed sales /\
   In ("month"%string, ObjCol month_values) sales /\
   10 < nunique month_values /\
   fresh_indicator_names sales /\
   (exists pre post,
      fst (encode_categorical_variables sales)
      = pre ++ get_dummies month_values "month" ++ post) /\
   ~ In "month"%string (columns (fst (encode_categorical_variables sales))) /\
   get_item (snd (encode_categorical_variables sales)) "month" = None /\
   length (get_dummies month_values "month") = nunique month_values - 1 /\
   columns (get_dummies month_values "month")
   = map (indicator_name "month")
       (tl (sort String.leb (unique String.eqb (dropna month_values))))).
Proof.
  split.
  - split; [exact school_well_formed|].
    split; [exact school_fresh|].
    split; [left; reflexivity|].
    refine (proj1 (proj2 (proj2 (proj2
              (encoder_policy_by_cardinality school "grade" grade_values
                 school_well_formed school_fresh (or_introl eq_refl))))) _ _).
    + reflexivity.
    + vm_compute. split; lia.
  - split; [exact sales_well_formed|].
    split; [left; reflexivity|].
    split; [vm_compute; lia|].
    split; [exact sales_fresh|].
    refine (proj2 (proj2 (proj2 (proj2 (proj2
              (encoder_policy_by_cardinality sales "month" month_values
                 sales_well_formed sales_fresh (or_introl eq_refl)))))) _).
    vm_compute. lia.
Defined.

Lemma single_value_column_label_encoded_witness :
  well_formed school /\
  fresh_indicator_names school /\
  exists a,
    unique String.eqb (dropna (repeat (Some "north"%string) 4)) = [a] /\
    get_item (snd (encode_categorical_variables school)) "campus"
    = Some [(Some a, 0%Z)] /\
    get_col "campus" (fst (encode_categorical_variables school))
    = Some (NumCol (map (fun _ => Some 0%Q) (repeat (Some "north"%string) 4))).
Proof.
  split; [exact school_well_formed|].
  split; [exact school_fresh|].
  apply (single_value_column_label_encoded school "campus"
           (repeat (Some "north"%string) 4)).
  - exact school_well_formed.
  - exact school_fresh.
  - right; left; reflexivity.
  - reflexivity.
  - reflexivity.
Defined.

(** ** Unknown method names *)

Lemma outlier_step_unknown (m : string) (acc : DataFrame * nat) (col : string) :
  m <> "cap"%string -> fst (outlier_step m acc col) = fst acc.
Proof.
  intros NE. destruct acc as [df total]. unfold outlier_step.
  destruct (detect_outliers_iqr df col) as [[outliers lo] hi].
  destruct (0 <? _); [|reflexivity].
  apply String.eqb_neq in NE. rewrite NE. reflexivity.
Qed.

Lemma outlier_loop_unknown (m : string) (cols : list string)
  (acc : DataFrame * nat) :
  m <> "cap"%string -> fst (fold_left (outlier_step m) cols acc) = fst acc.
Proof.
  intros NE. revert acc. induction cols as [|c t IH]; intros acc; simpl;
    [reflexivity|].
  rewrite IH. apply outlier_step_unknown. exact NE.
Qed.

Lemma scale_step_unknown (fsqrt : Q -> Q) (m : string)
  (acc : DataFrame * ScalingParams) (col : string) :
  m <> "standardize"%string -> m <> "normalize"%string ->
  scale_step fsqrt m acc col = acc.
Proof.
  intros N1 N2. destruct acc as [df params]. unfold scale_step.
  apply String.eqb_neq in N1, N2. rewrite N1, N2.
  destruct (get_col col df) as [[xs|xs|xs]|]; reflexivity.
Qed.

(** C9, as the code has it.  An unknown method name is not rejected: each
    stage runs to its end and returns the table it was given, the scaler
    with no scaling parameters. *)
Theorem unknown_method_returns_table
  (fsqrt : Q -> Q) (df : DataFrame) (outlier_method scaling_method : string) :
  outlier_method <> "cap"%string ->
  outlier_method <> "remove"%string ->
  scaling_method <> "standardize"%string ->
  scaling_method <> "normalize"%string ->
  fst (handle_outliers df outlier_method) = df /\
  scale_features fsqrt df scaling_method = (df, []).
Proof.
  intros N1 N2 N3 N4. split.
  - unfold handle_outliers.
    pose proof (outlier_loop_unknown outlier_method (numerical_cols df)
                  (df, 0) N1) as H.
    destruct (fold_left _ _ _) as [d t]. cbn [fst] in *.
    apply String.eqb_neq in N2. rewrite N2. exact H.
  - unfold scale_features.
    induction (numerical_cols df) as [|c t IH]; [reflexivity|].
    cbn [fold_left]. rewrite scale_step_unknown by assumption. exact IH.
Qed.

(** C9 fails: the method names "winsorize" and "zscore" are accepted and
    the table comes back untransformed. *)
Lemma unknown_method_not_rejected :
  fst (handle_outliers ages "winsorize") = ages /\
  scale_features (fun x => x) ages "zscore" = (ages, []).
Proof. split; vm_compute; reflexivity. Qed.

Lemma unknown_method_returns_table_witness :
  ("winsorize" <> "cap")%string /\ ("winsorize" <> "remove")%string /\
  ("zscore" <> "standardize")%string /\ ("zscore" <> "normalize")%string /\
  fst (handle_outliers unknown_income "winsorize") = unknown_income /\
  scale_features (fun x => x) unknown_income "zscore" = (unknown_income, []).
Proof.
  repeat (split; [discriminate|]).
  apply (unknown_method_returns_table (fun x => x) unknown_income
           "winsorize" "zscore"); discriminate.
Defined.


(** ** The analysis run without its target column *)

Lemma has_column_categorical (df : DataFrame) (name : string) :
  has_column df name = false ->
  existsb (String.eqb name) (categorical_cols df) = false.
Proof.
  unfold has_column. intros H.
  destruct (existsb (String.eqb name) (categorical_cols df)) eqn:E; [|reflexivity].
  apply existsb_exists in E. destruct E as [c [Hc Heq]].
  assert (Hin : existsb (String.eqb name) (columns df) = true).
  { apply existsb_exists. exists c. split; [|exact Heq].
    apply categorical_cols_incl. exact Hc. }
  congruence.
Qed.

Lemma bias_loop_without_target {F64 : Float64} (df : DataFrame)
  (cols : list string)
  (acc : list (string * BiasEntry) * list event) :
  has_column df target_col = false ->
  fold_left (fun r col => do a <- r; bias_step df a col) cols (Ok acc) = Ok acc.
Proof.
  intros H. induction cols as [|c t IH]; [reflexivity|].
  cbn [fold_left bind]. unfold bias_step at 2. destruct acc as [a p].
  rewrite H. exact IH.
Qed.

Lemma plot_loop_raise (k : result unit) (cols : list string) (e : exn) :
  fold_left (fun (r : result unit) (_ : string) => do _ <- r; k) cols (Raise e)
  = Raise e.
Proof. induction cols as [|c t IH]; simpl; auto. Qed.

Section AnalyzerFacts.
Variable Stats : Type.
Variable describe : list num -> Stats.
Context {F64 : Float64}.

Lemma plot_without_target (self : Analyzer Stats) (cols : list string) :
  has_column (self_df self) target_col = false ->
  plot_categorical_bias self cols
  = match cols with
    | [] => Ok tt
    | _ :: _ => Raise (KeyError target_col)
    end.
Proof.
  intros H. unfold plot_categorical_bias. destruct cols as [|c t]; [reflexivity|].
  cbn [fold_left bind]. rewrite H. apply plot_loop_raise.
Qed.

(** C8.  Without the target column, [analyze_target_balance] prints that
    the column was not found and stores nothing; the run then fails with a
    [KeyError]: on the target column when the bias plots are drawn, if the
    table has a categorical column, and otherwise on the missing
    ['class_balance'] entry when the report is composed. *)
Theorem missing_target_aborts_run (data : DataFrame) :
  has_column data target_col = false ->
  analyze_target_balance (load_data data)
  = print (@load_data Stats data) (TargetNotFound target_col) /\
  run_analysis describe data
  = Raise (KeyError match categorical_cols data with
                    | [] => "class_balance"%string
                    | _ :: _ => target_col
                    end).
Proof.
  intros H. split.
  - unfold analyze_target_balance, load_data. cbn [self_df]. rewrite H.
    reflexivity.
  - unfold run_analysis, analyze_target_balance, analyze_categorical_bias,
      analyze_numerical_distributions, print, set_results, load_data.
    cbn [self_df self_results self_log dataset_info class_balance
           numerical_distributions bias_analysis].
    rewrite H. cbn [negb self_df self_results self_log dataset_info
                      class_balance numerical_distributions bias_analysis].
    unfold feature_cols. rewrite (has_column_categorical data target_col H).
    rewrite (bias_loop_without_target data _ _ H). cbn [bind fst snd].
    rewrite plot_without_target by exact H.
    destruct (categorical_cols data) as [|c t]; reflexivity.
Qed.
End AnalyzerFacts.

Lemma ages_without_target : has_column ages target_col = false.
Proof. reflexivity. Defined.

Lemma missing_target_aborts_run_witness :
  has_column ages target_col = false /\
  analyze_target_balance (F64 := binary64) (load_data ages)
  = print (@load_data unit ages) (TargetNotFound target_col) /\
  run_analysis (F64 := binary64) (fun _ => tt) ages
  = Raise (KeyError target_col).
Proof.
  split; [exact ages_without_target|].
  exact (missing_target_aborts_run (F64 := binary64) unit (fun _ => tt) ages
           ages_without_target).
Defined.

Example report_fails_without_categorical_columns :
  run_analysis (F64 := binary64) (fun _ => tt)
    [("age"%string, NumCol age_values)]
  = Raise (KeyError "class_balance").
Proof. reflexivity. Qed.

(** ** Bias and imbalance flags *)

Lemma fold_max_spec (t : list Q) (r : Q) :
  let m := fold_left (fun acc x => if Qltb acc x then x else acc) t r in
  In m (r :: t) /\ forall x, In x (r :: t) -> (x <= m)%Q.
Proof.
  revert r. induction t as [|y t IH]; intros r; cbn [fold_left].
  - split; [left; reflexivity|]. intros x [<-|[]]. lra.
  - destruct (IH (if Qltb r y then y else r)) as [Hin Hle].
    assert (Hstep : (r <= (if Qltb r y then y else r))%Q /\
                    (y <= (if Qltb r y then y else r))%Q).
    { destruct (Qltb r y) eqn:E.
      - apply Qltb_lt in E. split; lra.
      - apply Qltb_ge in E. split; lra. }
    split.
    + destruct Hin as [Hin|Hin]; [|right; right; exact Hin].
      rewrite <- Hin. destruct (Qltb r y); [right; left|left]; reflexivity.
    + intros x [<-|[<-|Hx]].
      * pose proof (Hle _ (or_introl eq_refl)). lra.
      * pose proof (Hle _ (or_introl eq_refl)). lra.
      * apply Hle. right. exact Hx.
Qed.

Lemma fold_min_spec (t : list Q) (r : Q) :
  let m := fold_left (fun acc x => if Qltb x acc then x else acc) t r in
  In m (r :: t) /\ forall x, In x (r :: t) -> (m <= x)%Q.
Proof.
  revert r. induction t as [|y t IH]; intros r; cbn [fold_left].
  - split; [left; reflexivity|]. intros x [<-|[]]. lra.
  - destruct (IH (if Qltb y r then y else r)) as [Hin Hle].
    assert (Hstep : ((if Qltb y r then y else r) <= r)%Q /\
                    ((if Qltb y r then y else r) <= y)%Q).
    { destruct (Qltb y r) eqn:E.
      - apply Qltb_lt in E. split; lra.
      - apply Qltb_ge in E. split; lra. }
    split.
    + destruct Hin as [Hin|Hin]; [|right; right; exact Hin].
      rewrite <- Hin. destruct (Qltb y r); [right; left|left]; reflexivity.
    + intros x [<-|[<-|Hx]].
      * pose proof (Hle _ (or_introl eq_refl)). lra.
      * pose proof (Hle _ (or_introl eq_refl)). lra.
      * apply Hle. right. exact Hx.
Qed.

Lemma max_rate_highest (rates : list Q) (m : Q) :
  max_rate rates = Ok m -> highest m rates.
Proof.
  destruct rates as [|r t]; [discriminate|]. intros H. injection H as <-.
  apply fold_max_spec.
Qed.

Lemma min_rate_lowest (rates : list Q) (m : Q) :
  min_rate rates = Ok m -> lowest m rates.
Proof.
  destruct rates as [|r t]; [discriminate|]. intros H. injection H as <-.
  apply fold_min_spec.
Qed.

Lemma unique_incl {A} (eqb : A -> A -> bool) (l : list A) (x : A) :
  In x (unique eqb l) -> In x l.
Proof.
  induction l as [|y t IH]; simpl; [tauto|].
  intros [H|H]; [auto|]. apply filter_In in H. right. apply IH, H.
Qed.

Lemma In_insert_any {A} (leb : A -> A -> bool) (x y : A) (l : list A) :
  In y (insert leb x l) -> y = x \/ In y l.
Proof.
  induction l as [|z t IH]; simpl; [intuition auto|].
  destruct (leb x z); simpl; intuition auto.
Qed.

Lemma In_sort_any {A} (leb : A -> A -> bool) (y : A) (l : list A) :
  In y (sort leb l) -> In y l.
Proof.
  induction l as [|x t IH]; simpl; [tauto|].
  intros H. apply In_insert_any in H. destruct H as [->|H]; auto.
Qed.

(** The order of the labels. *)
Lemma value_leb_total (a b : value) :
  value_leb a b = true \/ value_leb b a = true.
Proof.
  destruct a as [x|x|x], b as [y|y|y]; cbn [value_leb]; auto.
  - apply Qle_bool_total.
  - apply String.leb_total.
  - destruct x, y; auto.
Qed.

Lemma value_leb_trans (a b c : value) :
  value_leb a b = true -> value_leb b c = true -> value_leb a c = true.
Proof.
  destruct a as [x|x|x], b as [y|y|y], c as [z|z|z]; cbn [value_leb];
    try discriminate; auto.
  - apply Qle_bool_trans.
  - apply string_leb_trans.
  - destruct x, y, z; auto.
Qed.

Lemma value_eqb_leb (a b : value) :
  value_eqb a b = true -> value_leb a b = true.
Proof.
  destruct a as [x|x|x], b as [y|y|y]; cbn [value_eqb value_leb];
    try discriminate; intros H.
  - apply Qeq_bool_iff in H. apply Qle_bool_iff. rewrite H. apply Qle_refl.
  - apply String.eqb_eq in H. subst y. apply string_leb_refl.
  - destruct x, y; try discriminate; reflexivity.
Qed.

(** Every element of a list has an equal among its distinct elements. *)
Lemma unique_covers (l : list value) (x : value) :
  In x l -> exists y, In y (unique value_eqb l) /\ value_eqb y x = true.
Proof.
  induction l as [|x0 t IH]; [contradiction|]. cbn [unique].
  intros [<-|Hin].
  - exists x0. split; [left; reflexivity|apply value_eqb_refl].
  - destruct (IH Hin) as (y & Hy & E).
    destruct (value_eqb y x0) eqn:E0.
    + exists x0. split; [left; reflexivity|].
      apply (value_eqb_trans x0 y x); [|exact E].
      rewrite value_eqb_sym. exact E0.
    + exists y. split; [|exact E]. right. apply filter_In.
      split; [exact Hy|]. rewrite E0. reflexivity.
Qed.

Lemma filter_length_pos {A} (p : A -> bool) (l : list A) :
  1 <= length (filter p l) <-> exists x, In x l /\ p x = true.
Proof.
  split.
  - destruct (filter p l) as [|a t] eqn:E; cbn [length]; [lia|]. intros _.
    exists a. apply filter_In. rewrite E. left. reflexivity.
  - intros (x & Hx & Hp).
    assert (Hin : In x (filter p l)) by (apply filter_In; auto).
    destruct (filter p l); [contradiction|cbn [length]; lia].
Qed.

(** The counts of a crosstab are counts of rows of the table. *)
Lemma crosstab_total (feature : list (option string)) (target : list cell)
  (cat : string) :
  length (filter (fun p => String.eqb (fst p) cat)
            (crosstab_pairs feature target))
  = category_total feature target cat.
Proof.
  unfold category_total. revert target.
  induction feature as [|[c|] f IH]; intros [|[v|] t];
    cbn [crosstab_pairs combine filter fst length];
    try reflexivity; try apply IH.
  destruct (String.eqb c cat); cbn [length]; rewrite IH; reflexivity.
Qed.

Lemma crosstab_hits (feature : list (option string)) (target : list cell)
  (cat : string) (label : value) :
  length (filter (fun p => value_eqb (snd p) label)
            (filter (fun p => String.eqb (fst p) cat)
               (crosstab_pairs feature target)))
  = category_hits feature target cat label.
Proof.
  unfold category_hits. revert target.
  induction feature as [|[c|] f IH]; intros [|[v|] t];
    cbn [crosstab_pairs combine filter fst length];
    try reflexivity; try apply IH.
  destruct (String.eqb c cat); cbn [filter snd andb]; [|apply IH].
  destruct (value_eqb v label); cbn [length]; rewrite IH; reflexivity.
Qed.

Lemma crosstab_category (feature : list (option string)) (target : list cell)
  (cat : string) :
  In cat (map fst (crosstab_pairs feature target))
  <-> 1 <= category_total feature target cat.
Proof.
  rewrite <- crosstab_total, filter_length_pos, in_map_iff.
  split; intros (p & H1 & H2); exists p.
  - subst cat. split; [exact H2|apply String.eqb_refl].
  - apply String.eqb_eq in H2. auto.
Qed.

Lemma crosstab_label (feature : list (option string)) (target : list cell)
  (label : value) :
  (exists v, In v (map snd (crosstab_pairs feature target)) /\
             value_eqb v label = true)
  <-> label_seen feature target label.
Proof.
  unfold label_seen. split.
  - intros (v & Hin & E). apply in_map_iff in Hin.
    destruct Hin as ([c w] & <- & Hin). exists c.
    rewrite <- crosstab_hits. apply filter_length_pos.
    exists (c, w). split; [|exact E].
    apply filter_In. split; [exact Hin|apply String.eqb_refl].
  - intros (cat & H). rewrite <- crosstab_hits in H.
    apply filter_length_pos in H. destruct H as (p & Hin & E).
    apply filter_In in Hin. exists (snd p). split; [|exact E].
    apply in_map. apply Hin.
Qed.

Lemma crosstab_nonempty (feature : list (option string)) (target : list cell) :
  crosstab_pairs feature target <> []
  <-> exists cat, 1 <= category_total feature target cat.
Proof.
  split.
  - destruct (crosstab_pairs feature target) as [|p t] eqn:E; [congruence|].
    intros _. exists (fst p). apply crosstab_category. rewrite E.
    left. reflexivity.
  - intros (cat & H) E. apply crosstab_category in H. rewrite E in H.
    exact H.
Qed.

(** The label the analysis takes for the approval: ['Approved'] when it is
    a column of the crosstab, and the first column otherwise. *)
Lemma approval_label_choice (feature : list (option string))
  (target : list cell) (a : value) :
  let labels :=
    sort value_leb
      (unique value_eqb (map snd (crosstab_pairs feature target))) in
  (if existsb (value_eqb (VStr "Approved")) labels
   then Ok (VStr "Approved")
   else match labels with
        | first :: _ => Ok first
        | [] => Raise IndexError
        end) = Ok a ->
  approval_label feature target a.
Proof.
  intros labels.
  assert (Hlab : forall v, In v labels ->
            In v (map snd (crosstab_pairs feature target))).
  { intros v Hv. apply In_sort_any in Hv. apply unique_incl in Hv. exact Hv. }
  assert (Hcov : forall v, label_seen feature target v ->
            exists y, In y labels /\ value_eqb y v = true).
  { intros v Hv. apply crosstab_label in Hv. destruct Hv as (w & Hw & E).
    destruct (unique_covers _ _ Hw) as (y & Hy & Ey). exists y.
    split; [apply (In_sort value value_leb); exact Hy|].
    apply (value_eqb_trans y w v); assumption. }
  destruct (existsb (value_eqb (VStr "Approved")) labels) eqn:Ex.
  - intros H. injection H as <-. left. split; [|reflexivity].
    apply existsb_exists in Ex. destruct Ex as (x & Hx & E).
    apply crosstab_label. exists x. split; [apply Hlab; exact Hx|].
    rewrite value_eqb_sym. exact E.
  - pose proof (sort_sorted value value_leb value_leb_total value_leb_trans
                  (unique value_eqb (map snd (crosstab_pairs feature target))))
      as Hs.
    fold labels in Hs.
    destruct labels as [|first rest] eqn:L; [discriminate|].
    intros H. injection H as <-. right. split; [|split].
    + intros Hseen. destruct (Hcov _ Hseen) as (y & Hy & E).
      assert (existsb (value_eqb (VStr "Approved")) (first :: rest) = true).
      { apply existsb_exists. exists y. split; [exact Hy|].
        rewrite value_eqb_sym. exact E. }
      congruence.
    + apply crosstab_label. exists first.
      split; [apply Hlab; left; reflexivity|apply value_eqb_refl].
    + intros v Hv. destruct (Hcov _ Hv) as (y & Hy & E).
      apply (value_leb_trans first y v); [|apply value_eqb_leb; exact E].
      destruct Hy as [<-|Hy].
      * destruct (value_leb_total first first); assumption.
      * apply StronglySorted_inv in Hs. destruct Hs as [_ Hall].
        rewrite Forall_forall in Hall. apply Hall, Hy.
Qed.

Section BiasFacts.
Context {F64 : Float64}.

(** The flag of an entry is the comparison of its spread with 15. *)
Lemma bias_entry_flag (feature : list (option string)) (target : list cell)
  (e : BiasEntry) :
  bias_entry feature target = Ok e ->
  exists mx mn,
    highest mx (map snd (approval_rates e)) /\
    lowest mn (map snd (approval_rates e)) /\
    bias_difference e = f64_sub mx mn /\
    (bias_detected e = true <-> (15 < f64_sub mx mn)%Q).
Proof.
  unfold bias_entry.
  set (pairs := crosstab_pairs feature target).
  set (labels := sort value_leb (unique value_eqb (map snd pairs))).
  destruct (if existsb (value_eqb (VStr "Approved")) labels
            then Ok (VStr "Approved")
            else match labels with
                 | first :: _ => Ok first
                 | [] => Raise IndexError
                 end) as [approval_col|err]; cbn [bind]; [|discriminate].
  set (rates := map _ (sort String.leb (unique String.eqb (map fst pairs)))).
  destruct (max_rate (map snd rates)) as [mx|] eqn:Emax; cbn [bind];
    [|discriminate].
  destruct (min_rate (map snd rates)) as [mn|] eqn:Emin; cbn [bind];
    [|discriminate].
  intros H. injection H as <-. cbn [approval_rates bias_difference bias_detected].
  exists mx, mn. split; [apply max_rate_highest; exact Emax|].
  split; [apply min_rate_lowest; exact Emin|].
  split; [reflexivity|apply Qltb_lt].
Qed.

Lemma unique_nonempty {A} (eqb : A -> A -> bool) (l : list A) :
  l <> [] -> unique eqb l <> [].
Proof. destruct l; [congruence|simpl; discriminate]. Qed.

Lemma sort_nonempty {A} (leb : A -> A -> bool) (l : list A) :
  l <> [] -> sort leb l <> [].
Proof.
  intros H E. apply (f_equal (@length A)) in E.
  rewrite length_sort in E. destruct l; [congruence|discriminate].
Qed.

Lemma map_nonempty {A B} (f : A -> B) (l : list A) : l <> [] -> map f l <> [].
Proof. destruct l; [congruence|simpl; discriminate]. Qed.

(** The rates of an entry are the shares, among the rows of each category
    that have a target label, of the rows with the approval label. *)
Lemma bias_entry_table (feature : list (option string)) (target : list cell)
  (e : BiasEntry) :
  bias_entry feature target = Ok e ->
  exists label,
    approval_label feature target label /\
    forall cat rate,
      In (cat, rate) (approval_rates e)
      <-> 1 <= category_total feature target cat /\
          rate = percentage (category_hits feature target cat label)
                   (category_total feature target cat).
Proof.
  unfold bias_entry.
  pose proof (approval_label_choice feature target) as Hc. cbv zeta in Hc.
  set (pairs := crosstab_pairs feature target) in *.
  set (labels := sort value_leb (unique value_eqb (map snd pairs))) in *.
  destruct (if existsb (value_eqb (VStr "Approved")) labels
            then Ok (VStr "Approved")
            else match labels with
                 | first :: _ => Ok first
                 | [] => Raise IndexError
                 end) as [approval_col|err]; cbn [bind]; [|discriminate].
  set (rates := map _ (sort String.leb (unique String.eqb (map fst pairs)))).
  destruct (max_rate (map snd rates)) as [mx|]; cbn [bind]; [|discriminate].
  destruct (min_rate (map snd rates)) as [mn|]; cbn [bind]; [|discriminate].
  intros H. injection H as <-. cbn [approval_rates].
  exists approval_col. split; [apply Hc; reflexivity|].
  intros cat rate. unfold rates. rewrite in_map_iff.
  unfold crosstab_pct. fold pairs. unfold pairs.
  rewrite <- crosstab_category. split.
  - intros (c & E & Hin). injection E as -> <-.
    rewrite crosstab_hits, crosstab_total.
    split; [|reflexivity].
    apply In_unique. apply (In_sort string String.leb). exact Hin.
  - intros (Hin & ->). exists cat.
    rewrite crosstab_hits, crosstab_total. split; [reflexivity|].
    apply (In_sort string String.leb). apply In_unique. exact Hin.
Qed.

(** The analysis of a feature returns as soon as one row has both a
    category and a target label. *)
Lemma bias_entry_returns (feature : list (option string)) (target : list cell) :
  crosstab_pairs feature target <> [] ->
  exists e, bias_entry feature target = Ok e.
Proof.
  intros Hp. unfold bias_entry.
  set (pairs := crosstab_pairs feature target) in *.
  assert (Hl : sort value_leb (unique value_eqb (map snd pairs)) <> [])
    by (apply sort_nonempty, unique_nonempty, map_nonempty, Hp).
  assert (Hi : sort String.leb (unique String.eqb (map fst pairs)) <> [])
    by (apply sort_nonempty, unique_nonempty, map_nonempty, Hp).
  set (labels := sort value_leb (unique value_eqb (map snd pairs))) in *.
  assert (Ha : exists a,
            (if existsb (value_eqb (VStr "Approved")) labels
             then Ok (VStr "Approved")
             else match labels with
                  | first :: _ => Ok first
                  | [] => Raise IndexError
                  end) = Ok a).
  { destruct (existsb _ labels); [eauto|].
    destruct labels; [congruence|eauto]. }
  destruct Ha as [a ->]. cbn [bind].
  destruct (sort String.leb (unique String.eqb (map fst pairs))) as [|c t];
    [congruence|].
  cbn [map max_rate min_rate bind snd]. eexists. reflexivity.
Qed.

Lemma In_set_item {V} (d : list (string * V)) (key k : string) (v w : V) :
  In (k, w) (set_item d key v) -> (k = key /\ w = v) \/ In (k, w) d.
Proof.
  induction d as [|[k0 v0] t IH]; simpl.
  - intros [H|[]]. injection H as <- <-. auto.
  - destruct (String.eqb k0 key) eqn:E; simpl.
    + apply String.eqb_eq in E. subst k0.
      intros [H|H]; [injection H as <- <-; auto|auto].
    + intros [H|H]; [auto|]. destruct (IH H); auto.
Qed.

Lemma set_item_has_key {V} (d : list (string * V)) (key k : string) (v : V) :
  (k = key \/ exists w, In (k, w) d) -> exists w, In (k, w) (set_item d key v).
Proof.
  induction d as [|[k0 v0] t IH]; simpl.
  - intros [->|[w []]]. eauto.
  - destruct (String.eqb k0 key) eqn:E; simpl.
    + apply String.eqb_eq in E. subst k0.
      intros [->|[w [H|H]]]; eauto. injection H as <- <-. eauto.
    + intros [->|[w [H|H]]].
      * destruct IH as [w' Hw']; eauto.
      * injection H as <- <-. eauto.
      * destruct IH as [w' Hw']; eauto.
Qed.

Lemma bias_loop_raise (df : DataFrame) (cols : list string) (err : exn) :
  fold_left (fun r col => do a <- r; bias_step df a col) cols (Raise err)
  = Raise err.
Proof. induction cols as [|c t IH]; simpl; auto. Qed.

Lemma bias_step_entry (df : DataFrame)
  (acc acc1 : list (string * BiasEntry) * list event) (c : string) :
  bias_step df acc c = Ok acc1 ->
  (has_column df target_col = false /\ acc1 = acc) \/
  (has_column df target_col = true /\
   exists entry,
     bias_entry (feature_values df c) (target_values df) = Ok entry /\
     fst acc1 = set_item (fst acc) c entry).
Proof.
  unfold bias_step. destruct acc as [analysis printed].
  destruct (has_column df target_col);
    [|intros H; injection H as <-; left; auto].
  destruct (bias_entry (feature_values df c) (target_values df)) as [entry|];
    cbn [bind]; [|discriminate].
  intros H. injection H as <-. right. split; [reflexivity|].
  exists entry. auto.
Qed.

(** The loop stores, for every feature it visits, the entry that
    [bias_entry] computes for it, and nothing else. *)
Lemma bias_loop_entries (df : DataFrame) (cols : list string) :
  forall acc acc',
    fold_left (fun r col => do a <- r; bias_step df a col) cols (Ok acc)
    = Ok acc' ->
    (forall col e, In (col, e) (fst acc) ->
       bias_entry (feature_values df col) (target_values df) = Ok e) ->
    forall col e, In (col, e) (fst acc') ->
      bias_entry (feature_values df col) (target_values df) = Ok e.
Proof.
  induction cols as [|c t IH]; intros acc acc' H Hacc.
  - simpl in H. injection H as <-. exact Hacc.
  - cbn [fold_left bind] in H.
    destruct (bias_step df acc c) as [acc1|err] eqn:S;
      [|rewrite bias_loop_raise in H; discriminate].
    apply (IH acc1 acc' H).
    destruct (bias_step_entry df acc acc1 c S)
      as [[_ ->]|[_ (entry & B & E)]]; [exact Hacc|].
    rewrite E. intros col e Hin.
    apply In_set_item in Hin. destruct Hin as [[-> ->]|Hin]; auto.
Qed.

Lemma bias_loop_keeps_keys (df : DataFrame) (cols : list string) (k : string) :
  forall acc acc',
    fold_left (fun r col => do a <- r; bias_step df a col) cols (Ok acc)
    = Ok acc' ->
    (exists e, In (k, e) (fst acc)) -> exists e, In (k, e) (fst acc').
Proof.
  induction cols as [|c t IH]; intros acc acc' H Hk.
  - simpl in H. injection H as <-. exact Hk.
  - cbn [fold_left bind] in H.
    destruct (bias_step df acc c) as [acc1|err] eqn:S;
      [|rewrite bias_loop_raise in H; discriminate].
    apply (IH acc1 acc' H).
    destruct (bias_step_entry df acc acc1 c S)
      as [[_ ->]|[_ (entry & B & E)]]; [exact Hk|].
    rewrite E. apply set_item_has_key. right. exact Hk.
Qed.

Lemma bias_loop_covers (df : DataFrame) (cols : list string) :
  has_column df target_col = true ->
  forall acc acc',
    fold_left (fun r col => do a <- r; bias_step df a col) cols (Ok acc)
    = Ok acc' ->
    forall col, In col cols -> exists e, In (col, e) (fst acc').
Proof.
  intros Ht. induction cols as [|c t IH]; intros acc acc' H col Hin;
    [contradiction|].
  cbn [fold_left bind] in H.
  destruct (bias_step df acc c) as [acc1|err] eqn:S;
    [|rewrite bias_loop_raise in H; discriminate].
  destruct Hin as [<-|Hin]; [|exact (IH acc1 acc' H col Hin)].
  apply (bias_loop_keeps_keys df t c acc1 acc' H).
  destruct (bias_step_entry df acc acc1 c S)
    as [[Hf _]|[_ (entry & B & E)]]; [congruence|].
  rewrite E. apply set_item_has_key. left. reflexivity.
Qed.

Lemma bias_loop_returns (df : DataFrame) (cols : list string) :
  (forall col, In col cols ->
     crosstab_pairs (feature_values df col) (target_values df) <> []) ->
  forall acc,
    exists acc',
      fold_left (fun r col => do a <- r; bias_step df a col) cols (Ok acc)
      = Ok acc'.
Proof.
  induction cols as [|c t IH]; intros Hp acc; [eexists; reflexivity|].
  cbn [fold_left bind].
  destruct (bias_entry_returns _ _ (Hp c (or_introl eq_refl))) as [entry B].
  assert (S : exists acc1, bias_step df acc c = Ok acc1).
  { unfold bias_step. destruct acc as [analysis printed].
    destruct (has_column df target_col); [|eauto].
    rewrite B. cbn [bind].
    eauto. }
  destruct S as [acc1 ->]. apply IH. intros col H. apply Hp. right. exact H.
Qed.

(** Every class that is counted has at least one row. *)
Lemma value_counts_positive (cs : list cell) (c : nat) :
  In c (map snd (value_counts cs)) -> 1 <= c.
Proof.
  unfold value_counts. rewrite in_map_iff. intros [[v n] [<- Hin]].
  apply In_sort_any, in_map_iff in Hin. destruct Hin as [w [E Hw]].
  injection E as -> <-. apply unique_incl in Hw. cbn [snd].
  assert (Hf : In v (filter (value_eqb v) (dropna cs)))
    by (apply filter_In; split; [exact Hw|apply value_eqb_refl]).
  destruct (filter (value_eqb v) (dropna cs)); [contradiction|simpl; lia].
Qed.

Lemma list_max_largest (l : list nat) : l <> [] -> largest (list_max l) l.
Proof.
  intros H. split; [apply list_max_attained; exact H|].
  intros c Hc.
  assert (Hle : list_max l <= list_max l) by reflexivity.
  rewrite list_max_le, Forall_forall in Hle. auto.
Qed.

Lemma fold_min_smallest (c : nat) (t : list nat) :
  smallest (fold_right Nat.min c t) (t ++ [c]).
Proof.
  induction t as [|a t IH]; simpl.
  - split; [left; reflexivity|]. intros x [<-|[]]. lia.
  - destruct IH as [Hin Hle]. split.
    + destruct (Nat.min_spec a (fold_right Nat.min c t)) as [[_ E]|[_ E]];
        rewrite E; [left; reflexivity|right; exact Hin].
    + intros x [<-|Hx]; [lia|]. specialize (Hle x Hx). lia.
Qed.

Lemma smallest_of_cons (c : nat) (t : list nat) :
  smallest (fold_right Nat.min c t) (c :: t).
Proof.
  destruct (fold_min_smallest c t) as [Hin Hle]. split.
  - apply in_app_iff in Hin. destruct Hin as [H|[<-|[]]];
      [right; exact H|left; reflexivity].
  - intros x Hx. apply Hle. apply in_app_iff.
    destruct Hx as [<-|Hx]; [right; left; reflexivity|left; exact Hx].
Qed.

Lemma largest_unique (a b : nat) (l : list nat) :
  largest a l -> largest b l -> a = b.
Proof. intros [Ha Hla] [Hb Hlb]. apply Nat.le_antisymm; auto. Qed.

Lemma smallest_unique (a b : nat) (l : list nat) :
  smallest a l -> smallest b l -> a = b.
Proof. intros [Ha Hla] [Hb Hlb]. apply Nat.le_antisymm; auto. Qed.

Lemma inject_nat_nonzero (n : nat) :
  1 <= n -> Qeq_bool (inject_Z (Z.of_nat n)) 0 = false.
Proof.
  intros H. destruct (Qeq_bool _ 0) eqn:E; [|reflexivity].
  apply Qeq_bool_iff in E. unfold Qeq in E. simpl in E. lia.
Qed.

(** The imbalance test is the comparison of the ratio of the largest to
    the smallest class count with 1.5. *)
Lemma imbalance_test (counts : list nat) :
  (forall c, In c counts -> 1 <= c) ->
  fgt (f64_fdiv (count_max counts) (count_min counts)) (Some 1.5%Q) = true
  <-> exists mx mn,
        largest mx counts /\ smallest mn counts /\
        (1.5 < f64_div (inject_Z (Z.of_nat mx)) (inject_Z (Z.of_nat mn)))%Q.
Proof.
  intros Hpos. destruct counts as [|c t].
  - simpl. split; [discriminate|]. intros (mx & mn & [[] _] & _).
  - pose proof (list_max_largest (c :: t) ltac:(discriminate)) as Hmax.
    pose proof (smallest_of_cons c t) as Hmin.
    unfold count_max, count_min, f64_fdiv, fgt, flt.
    rewrite (inject_nat_nonzero _ (Hpos _ (proj1 Hmin))).
    rewrite Qltb_lt. split.
    + intros H. eexists _, _. split; [exact Hmax|]. split; [exact Hmin|exact H].
    + intros (mx & mn & Hx & Hn & H).
      rewrite (largest_unique _ _ _ Hmax Hx), (smallest_unique _ _ _ Hmin Hn).
      exact H.
Qed.
End BiasFacts.

Section FlagFacts.
Variable Stats : Type.
Context {F64 : Float64}.

Lemma plot_with_target (self : Analyzer Stats) (cols : list string) :
  has_column (self_df self) target_col = true ->
  plot_categorical_bias self cols = Ok tt.
Proof.
  intros H. unfold plot_categorical_bias. rewrite H.
  induction cols as [|c t IH]; [reflexivity|exact IH].
Qed.

End FlagFacts.

Example loans_bias_entry :
  exists e,
    bias_entry (F64 := binary64) (feature_values loans "gender")
      (target_values loans) = Ok e /\
    approval_rates e = [("Female"%string, 50%Q); ("Male"%string, 70%Q)] /\
    bias_difference e = 20%Q /\
    bias_detected e = true.
Proof.
  eexists. split; [vm_compute; reflexivity|].
  cbn [approval_rates bias_difference bias_detected]. auto.
Qed.

Example loans_balance :
  self_log (analyze_target_balance (F64 := binary64) (@load_data unit loans))
  = [ReasonablyBalanced].
Proof. vm_compute. reflexivity. Qed.

(** Rounding at the threshold.  Of the applicants, 11 of 20 and 2 of 5 are
    approved; in float64, [11 / 20 * 100] is 55.00000000000001, a little
    above 55, the difference with 40 is 15.000000000000007, a little above
    15, and the flag is set. *)
Example rounding_flags_difference_of_fifteen :
  category_hits (feature_values applicants "region")
    (target_values applicants) "north" (VStr "Approved") = 11 /\
  category_total (feature_values applicants "region")
    (target_values applicants) "north" = 20 /\
  category_hits (feature_values applicants "region")
    (target_values applicants) "south" (VStr "Approved") = 2 /\
  category_total (feature_values applicants "region")
    (target_values applicants) "south" = 5 /\
  ~ (15 < (11 # 20) * 100 - (2 # 5) * 100)%Q /\
  exists self' e,
    analyze_categorical_bias (F64 := binary64) (@load_data unit applicants)
    = Ok self' /\
    bias_analysis (self_results self') = Some [("region"%string, e)] /\
    approval_rates e
    = [("north"%string, (7740561859543041 # 140737488355328)%Q);
       ("south"%string, 40%Q)] /\
    bias_difference e = (2111062325329921 # 140737488355328)%Q /\
    bias_detected e = true /\
    In (BiasDetected "region" (bias_difference e)) (self_log self').
Proof.
  repeat (split; [vm_compute; (reflexivity || discriminate)|]).
  eexists _, _. split; [vm_compute; reflexivity|].
  cbn [self_results bias_analysis]. split; [reflexivity|].
  cbn [approval_rates bias_difference bias_detected self_log].
  repeat (split; [reflexivity|]). left. reflexivity.
Qed.

(** Without rounding the same table is not flagged. *)
Example applicants_without_rounding :
  exists e,
    bias_entry (F64 := unrounded) (feature_values applicants "region")
      (target_values applicants) = Ok e /\
    bias_detected e = false.
Proof. eexists. split; vm_compute; reflexivity. Qed.

Lemma loans_have_target : has_column loans target_col = true.
Proof. reflexivity. Defined.



(* ================================================================== *)
(** * Part III: further properties of the code *)
(* ================================================================== *)

(** ** Outlier handling with method [remove] *)

Lemma mask_or_length (m1 m2 : list bool) :
  length m1 = length m2 -> length (mask_or m1 m2) = length m1.
Proof.
  revert m2. induction m1 as [|a t IH]; intros [|b t2]; simpl;
    try discriminate; auto.
Qed.

Lemma mask_or_nth (m1 m2 : list bool) (i : nat) :
  length m1 = length m2 ->
  nth i (mask_or m1 m2) false = nth i m1 false || nth i m2 false.
Proof.
  revert m2 i. induction m1 as [|a t IH]; intros [|b t2] i; simpl;
    try discriminate.
  - destruct i; reflexivity.
  - intros H. injection H as H. destruct i; [reflexivity|apply IH; exact H].
Qed.

(** The mask of the rows to drop is the row-wise "or" of the outlier masks. *)
Lemma remove_mask_spec (masks : string -> list bool) (cols : list string)
  (init : list bool) :
  (forall col, In col cols -> length (masks col) = length init) ->
  length (fold_left (fun mask col => mask_or mask (masks col)) cols init)
  = length init /\
  forall i,
    nth i (fold_left (fun mask col => mask_or mask (masks col)) cols init) false
    = nth i init false || existsb (fun col => nth i (masks col) false) cols.
Proof.
  revert init. induction cols as [|c t IH]; intros init Hlen.
  - split; [reflexivity|]. intros i. simpl. rewrite orb_false_r. reflexivity.
  - cbn [fold_left existsb].
    assert (Hc : length init = length (masks c))
      by (symmetry; apply Hlen; left; reflexivity).
    destruct (IH (mask_or init (masks c))) as [L N].
    { intros col Hin. rewrite mask_or_length by exact Hc.
      apply Hlen. right. exact Hin. }
    split; [rewrite L; apply mask_or_length; exact Hc|].
    intros i. rewrite N, mask_or_nth by exact Hc. symmetry. apply orb_assoc.
Qed.

Lemma nth_repeat_false (n i : nat) : nth i (repeat false n) false = false.
Proof.
  revert i. induction n as [|n IH]; intros [|i]; simpl; auto.
Qed.

Lemma numerical_col_values (df : DataFrame) (col : string) :
  well_formed df -> In col (numerical_cols df) ->
  length (num_values df col) = nrows df.
Proof.
  intros [Hnd Hlen] Hin. unfold numerical_cols in Hin.
  apply in_flat_map in Hin. destruct Hin as [[n c] [Hin Hc]].
  destruct c as [xs|xs|xs]; simpl in Hc; try contradiction.
  destruct Hc as [<-|[]]. unfold num_values.
  rewrite (get_col_In df n _ Hnd Hin). exact (Hlen n _ Hin).
Qed.

Lemma handle_outliers_remove (df : DataFrame) :
  well_formed df ->
  fst (handle_outliers df "remove")
  = take_rows (map (fun i => negb (row_flagged df i)) (seq 0 (nrows df))) df.
Proof.
  intros Hwf. unfold handle_outliers.
  pose proof (outlier_loop_unknown "remove" (numerical_cols df) (df, 0)
                ltac:(discriminate)) as Hsame.
  destruct (fold_left (outlier_step "remove") _ _) as [d t].
  cbn [fst] in *. subst d. cbn [String.eqb Ascii.eqb Bool.eqb]. cbn [fst].
  f_equal.
  destruct (remove_mask_spec
              (fun col => fst (fst (detect_outliers_iqr df col)))
              (numerical_cols df) (repeat false (nrows df))) as [L N].
  { intros col Hin. rewrite repeat_length, detect_outliers_iqr_fences.
    cbn [fst]. rewrite length_map. apply numerical_col_values; assumption. }
  rewrite repeat_length in L.
  apply (nth_ext _ _ false false).
  - rewrite !length_map, length_seq. exact L.
  - intros i Hi. rewrite length_map, L in Hi.
    rewrite (nth_map_in negb _ i false) by (rewrite L; exact Hi).
    rewrite (nth_map_in _ (seq 0 (nrows df)) i 0)
      by (rewrite length_seq; exact Hi).
    rewrite seq_nth by exact Hi. rewrite N, nth_repeat_false. reflexivity.
Qed.

Lemma get_col_take_rows (mask : list bool) (df : DataFrame) (name : string) :
  get_col name (take_rows mask df)
  = option_map (fun c => match c with
                         | NumCol xs => NumCol (bool_index mask xs)
                         | ObjCol xs => ObjCol (bool_index mask xs)
                         | BoolCol xs => BoolCol (bool_index mask xs)
                         end) (get_col name df).
Proof.
  induction df as [|[n c] t IH]; simpl; [reflexivity|].
  destruct (String.eqb n name); [reflexivity|exact IH].
Qed.

Lemma bool_index_In_nth {A} (mask : list bool) (xs : list A) (x : A) :
  In x (bool_index mask xs) ->
  exists i, nth_error xs i = Some x /\ nth i mask false = true.
Proof.
  revert xs. induction mask as [|b m IH]; intros [|y t]; simpl; try tauto.
  destruct b; simpl.
  - intros [<-|H]; [exists 0; auto|].
    destruct (IH t H) as [i Hi]. exists (S i). exact Hi.
  - intros H. destruct (IH t H) as [i Hi]. exists (S i). exact Hi.
Qed.

(** X1.  With method [remove] the rows kept are, in their original order,
    exactly the rows that hold no outlier in any numerical column, the
    fences being those of the table as it was given; the columns stay. *)
Theorem remove_keeps_unflagged_rows (df : DataFrame) :
  well_formed df ->
  rows (fst (handle_outliers df "remove"))
  = bool_index (map (fun i => negb (row_flagged df i)) (seq 0 (nrows df)))
      (rows df) /\
  columns (fst (handle_outliers df "remove")) = columns df /\
  nrows (fst (handle_outliers df "remove"))
  = nrows df - count_true (map (row_flagged df) (seq 0 (nrows df))).
Proof.
  intros Hwf. rewrite (handle_outliers_remove df Hwf).
  assert (Hrows :
    rows (take_rows (map (fun i => negb (row_flagged df i)) (seq 0 (nrows df))) df)
    = bool_index (map (fun i => negb (row_flagged df i)) (seq 0 (nrows df)))
        (rows df)).
  { apply rows_take_rows; [exact (proj2 Hwf)|].
    rewrite length_map, length_seq. reflexivity. }
  split; [exact Hrows|]. split; [apply columns_take_rows|].
  rewrite <- (rows_length (take_rows _ df)), Hrows.
  rewrite bool_index_length
    by (rewrite length_map, length_seq, rows_length; reflexivity).
  pose proof (count_true_negb (map (row_flagged df) (seq 0 (nrows df)))) as Hc.
  rewrite length_map, length_seq, map_map in Hc. lia.
Qed.


Lemma remove_keeps_unflagged_rows_witness :
  well_formed ages /\
  rows (fst (handle_outliers ages "remove"))
  = bool_index (map (fun i => negb (row_flagged ages i)) (seq 0 (nrows ages)))
      (rows ages) /\
  columns (fst (handle_outliers ages "remove")) = columns ages /\
  nrows (fst (handle_outliers ages "remove"))
  = nrows ages - count_true (map (row_flagged ages) (seq 0 (nrows ages))).
Proof.
  split; [exact ages_well_formed|].
  exact (remove_keeps_unflagged_rows ages ages_well_formed).
Defined.


(** ** Outlier handling with method [cap], cell by cell *)

Lemma cap_column_cells (xs ys : list num) :
  cap_column (NumCol xs) = NumCol ys ->
  forall i v, nth_error xs i = Some (Some v) ->
    exists lo hi,
      fences xs = (Some lo, Some hi) /\
      nth_error ys i
      = Some (Some (if Qltb v lo then lo else if Qltb hi v then hi else v)).
Proof.
  intros C i v Hi.
  assert (Hin : In (Some v) xs) by (eapply nth_error_In; exact Hi).
  destruct (fences_some xs v Hin) as (q1 & q3 & _ & _ & Hq & Hf).
  eexists _, _. split; [exact Hf|].
  unfold cap_column in C. rewrite Hf in C.
  destruct (0 <? _) eqn:E; injection C as <-.
  - rewrite nth_error_map. 
    replace (nth_error xs i) with (Some (Some v)) by (symmetry; exact Hi).
    cbn [option_map]. f_equal.
    unfold cap_cell, fgt, flt.
    destruct (Qltb v (q1 - 1.5 * (q3 - q1))) eqn:E1.
    + replace (Qltb (q3 + 1.5 * (q3 - q1)) (q1 - 1.5 * (q3 - q1))) with false;
        [reflexivity|].
      symmetry. apply Qltb_ge. lra.
    + destruct (Qltb (q3 + 1.5 * (q3 - q1)) v); reflexivity.
  - apply Nat.ltb_ge in E.
    assert (C0 : count_true
                   (map (fun c => flt c (Some (q1 - 1.5 * (q3 - q1))%Q)
                                  || fgt c (Some (q3 + 1.5 * (q3 - q1))%Q)) xs)
                 = 0) by lia.
    pose proof (count_true_zero _ C0
                  (flt (Some v) (Some (q1 - 1.5 * (q3 - q1))%Q)
                   || fgt (Some v) (Some (q3 + 1.5 * (q3 - q1))%Q))) as Hb.
    assert (Hm : flt (Some v) (Some (q1 - 1.5 * (q3 - q1))%Q)
                 || fgt (Some v) (Some (q3 + 1.5 * (q3 - q1))%Q) = false).
    { apply Hb. apply in_map_iff. exists (Some v). auto. }
    apply orb_false_iff in Hm. destruct Hm as [Hl Hg].
    unfold fgt in Hg. cbn [flt] in Hl, Hg. rewrite Hl, Hg. exact Hi.
Qed.

(** X3.  Method [cap] is a cell-wise clipping: a number below the lower
    fence of its column becomes the lower fence, a number above the upper
    fence becomes the upper fence, and every other number stays as it is;
    the fences are those of the column before capping. *)
Theorem cap_clips_to_nearest_fence
  (df : DataFrame) (name : string) (xs : list num) :
  well_formed df ->
  In (name, NumCol xs) df ->
  exists ys,
    get_col name (fst (handle_outliers df "cap")) = Some (NumCol ys) /\
    forall i v, nth_error xs i = Some (Some v) ->
      exists lo hi,
        snd (fst (detect_outliers_iqr df name)) = Some lo /\
        snd (detect_outliers_iqr df name) = Some hi /\
        nth_error ys i
        = Some (Some (if Qltb v lo then lo else if Qltb hi v then hi else v)).
Proof.
  intros [Hnd Hlen] Hin.
  rewrite handle_outliers_cap_loop.
  pose proof (get_col_In df name _ Hnd Hin) as G.
  rewrite (outlier_loop_cap _ (numerical_cols_NoDup df Hnd)). cbn [fst].
  destruct (in_dec string_dec name (numerical_cols df)) as [_|Hn];
    [|exfalso; apply Hn; eapply numerical_cols_In; exact Hin].
  rewrite G. cbn [option_map].
  destruct (cap_column (NumCol xs)) as [ys|ys|ys] eqn:C;
    try (unfold cap_column in C; destruct (fences xs);
         destruct (0 <? _); discriminate).
  exists ys. split; [reflexivity|]. intros i v Hi.
  destruct (cap_column_cells xs ys C i v Hi) as (lo & hi & F & Hy).
  exists lo, hi. rewrite detect_outliers_iqr_fences. cbn [fst snd].
  unfold num_values. rewrite G, F. auto.
Qed.

Lemma cap_clips_to_nearest_fence_witness :
  well_formed ages /\
  In ("age"%string, NumCol age_values) ages /\
  exists ys,
    get_col "age" (fst (handle_outliers ages "cap")) = Some (NumCol ys) /\
    forall i v, nth_error age_values i = Some (Some v) ->
      exists lo hi,
        snd (fst (detect_outliers_iqr ages "age")) = Some lo /\
        snd (detect_outliers_iqr ages "age") = Some hi /\
        nth_error ys i
        = Some (Some (if Qltb v lo then lo else if Qltb hi v then hi else v)).
Proof.
  split; [exact ages_well_formed|]. split; [left; reflexivity|].
  exact (cap_clips_to_nearest_fence ages "age" age_values
           ages_well_formed (or_introl eq_refl)).
Defined.

Lemma columns_shape (df df' : DataFrame) :
  shape df = shape df' -> columns df = columns df'.
Proof.
  intros H.
  assert (E : forall d : DataFrame, columns d = map fst (shape d)).
  { intros d. unfold columns, shape. rewrite map_map. reflexivity. }
  rewrite !E, H. reflexivity.
Qed.

(** X4.  Method [cap] rewrites numerical columns only: a column of any
    other type comes back as it was, and the column names keep their
    order. *)
Theorem cap_leaves_other_columns
  (df : DataFrame) (name : string) (c : column) :
  well_formed df ->
  In (name, c) df ->
  (forall xs, c <> NumCol xs) ->
  columns (fst (handle_outliers df "cap")) = columns df /\
  get_col name (fst (handle_outliers df "cap")) = Some c.
Proof.
  intros [Hnd Hlen] Hin Hc. rewrite handle_outliers_cap_loop. split.
  - apply columns_shape.
    exact (outlier_loop_shape "cap" (numerical_cols df) (df, 0)).
  - rewrite (outlier_loop_cap _ (numerical_cols_NoDup df Hnd)). cbn [fst].
    rewrite (get_col_In df name c Hnd Hin).
    destruct (in_dec string_dec name (numerical_cols df)) as [Hn|_];
      [|reflexivity].
    cbn [option_map]. destruct c as [xs|xs|xs]; try reflexivity.
    exfalso. exact (Hc xs eq_refl).
Qed.

Lemma cap_leaves_other_columns_witness :
  well_formed ages /\
  (exists c, In ("city"%string, c) ages /\ (forall xs, c <> NumCol xs) /\
     columns (fst (handle_outliers ages "cap")) = columns ages /\
     get_col "city" (fst (handle_outliers ages "cap")) = Some c).
Proof.
  split; [exact ages_well_formed|].
  eexists. split; [right; left; reflexivity|].
  split; [intros xs; discriminate|].
  apply (cap_leaves_other_columns ages "city" _ ages_well_formed
           (or_intror (or_introl eq_refl))).
  intros xs. discriminate.
Defined.

(** ** The count of outliers reported by [handle_outliers] *)

Lemma detect_outliers_iqr_same (d df : DataFrame) (col : string) :
  get_col col d = get_col col df ->
  detect_outliers_iqr d col = detect_outliers_iqr df col.
Proof.
  intros H. unfold detect_outliers_iqr, num_values. rewrite H. reflexivity.
Qed.

Lemma outlier_step_total (m : string) (d : DataFrame) (t : nat) (col : string) :
  snd (outlier_step m (d, t) col)
  = t + count_true (fst (fst (detect_outliers_iqr d col))).
Proof.
  unfold outlier_step.
  destruct (detect_outliers_iqr d col) as [[outliers lo] hi]. cbn [fst snd].
  destruct (0 <? count_true outliers) eqn:E; cbn [snd]; [reflexivity|].
  apply Nat.ltb_ge in E. lia.
Qed.

Lemma outlier_loop_total (m : string) (cols : list string) :
  NoDup cols ->
  forall (d : DataFrame) (t : nat),
    snd (fold_left (outlier_step m) cols (d, t))
    = t + list_sum
            (map (fun col => count_true (fst (fst (detect_outliers_iqr d col))))
               cols).
Proof.
  induction 1 as [|c rest Hnotin Hnd IH]; intros d t; cbn [fold_left map].
  - cbn [snd list_sum fold_right]. lia.
  - pose proof (outlier_step_total m d t c) as Ht.
    destruct (outlier_step m (d, t) c) as [d1 t1] eqn:S. cbn [snd] in Ht.
    rewrite IH, Ht.
    rewrite (map_ext_in
               (fun col => count_true (fst (fst (detect_outliers_iqr d1 col))))
               (fun col => count_true (fst (fst (detect_outliers_iqr d col))))).
    + unfold list_sum. cbn [fold_right]. lia.
    + intros col Hc. rewrite (detect_outliers_iqr_same d1 d); [reflexivity|].
      assert (NE : c <> col) by (intros ->; contradiction).
      pose proof (outlier_step_other m d t c col NE) as Ho.
      rewrite S in Ho. exact Ho.
Qed.

(** X5.  Whatever the method, the total of outliers that
    [handle_outliers] reports is the number of flagged cells of the table
    as it was given, summed over its numerical columns: capping one
    column does not change what is counted in the next. *)
Theorem outlier_total_counts_given_table (df : DataFrame) (method : string) :
  well_formed df ->
  snd (handle_outliers df method)
  = list_sum
      (map (fun col => count_true (fst (fst (detect_outliers_iqr df col))))
         (numerical_cols df)).
Proof.
  intros [Hnd _].
  pose proof (outlier_loop_total method (numerical_cols df)
                (numerical_cols_NoDup df Hnd) df 0) as H.
  unfold handle_outliers.
  destruct (fold_left (outlier_step method) (numerical_cols df) (df, 0))
    as [d t]. cbn [snd] in *. exact H.
Qed.

Lemma outlier_total_counts_given_table_witness :
  well_formed ages /\
  snd (handle_outliers ages "cap")
  = list_sum
      (map (fun col => count_true (fst (fst (detect_outliers_iqr ages col))))
         (numerical_cols ages)).
Proof.
  split; [exact ages_well_formed|].
  exact (outlier_total_counts_given_table ages "cap" ages_well_formed).
Defined.

(** ** The imputer, column by column *)

Lemma impute_numerical_same (d : DataFrame) (col : string) :
  get_col col (impute_numerical d col) = option_map fill_median (get_col col d).
Proof.
  unfold impute_numerical, fill_median.
  destruct (get_col col d) as [[xs|xs|xs]|] eqn:G; cbn [option_map];
    try exact G.
  destruct (0 <? count_null xs); [|exact G].
  rewrite get_update_same, G. reflexivity.
Qed.

Lemma impute_numerical_other (d : DataFrame) (col name : string) :
  col <> name -> get_col name (impute_numerical d col) = get_col name d.
Proof.
  intros NE. unfold impute_numerical.
  destruct (get_col col d) as [[xs|xs|xs]|]; try reflexivity.
  destruct (0 <? count_null xs); [|reflexivity].
  apply get_update_other. exact NE.
Qed.

Lemma numerical_loop_get (cols : list string) :
  NoDup cols ->
  forall (d : DataFrame) (name : string),
    get_col name (fold_left impute_numerical cols d)
    = if in_dec string_dec name cols
      then option_map fill_median (get_col name d)
      else get_col name d.
Proof.
  induction 1 as [|c t Hnotin Hnd IH]; intros d name; [reflexivity|].
  cbn [fold_left]. rewrite IH.
  destruct (string_dec c name) as [->|NE].
  - destruct (in_dec string_dec name t) as [Hin|_]; [contradiction|].
    destruct (in_dec string_dec name (name :: t)) as [_|Hn];
      [|exfalso; apply Hn; left; reflexivity].
    apply impute_numerical_same.
  - rewrite (impute_numerical_other d c name NE).
    destruct (in_dec string_dec name t) as [Hin|Hn];
      destruct (in_dec string_dec name (c :: t)) as [Hin'|Hn'];
      try reflexivity.
    + exfalso. apply Hn'. right. exact Hin.
    + destruct Hin' as [E|Hin']; contradiction.
Qed.

Lemma total_missing_zero (df : DataFrame) (name : string) (c : column) :
  total_missing df = 0 -> In (name, c) df -> col_count_null c = 0.
Proof.
  intros H Hin. destruct (col_count_null c) as [|k] eqn:E; [reflexivity|].
  assert (Hpos : 0 < col_count_null c) by lia.
  pose proof (total_missing_pos df name c Hin Hpos) as F.
  apply Nat.eqb_neq in F. contradiction.
Qed.

Lemma total_missing_none (df : DataFrame) :
  (forall name c, In (name, c) df -> col_count_null c = 0) ->
  total_missing df = 0.
Proof.
  unfold total_missing. induction df as [|[n c] t IH]; intros H;
    [reflexivity|].
  cbn [fold_right snd]. rewrite (H n c (or_introl eq_refl)).
  apply IH. intros name c' Hin. apply (H name c'). right. exact Hin.
Qed.

Lemma fillna_no_gap {A} (v : option A) (xs : list (option A)) :
  count_null xs = 0 -> fillna v xs = xs.
Proof.
  destruct v as [v|]; [|reflexivity]. unfold fillna, count_null.
  induction xs as [|[w|] t IH]; simpl; [reflexivity| |discriminate].
  intros H. f_equal. exact (IH H).
Qed.

Lemma fill_settled (c : column) :
  col_count_null c = 0 -> fill_mode (fill_median c) = c.
Proof.
  destruct c as [xs|xs|xs]; simpl; intros H; rewrite ?H; reflexivity.
Qed.

(** Every column that the imputer returns is the column it was given,
    filled first by the numerical loop and then by the categorical one. *)
Lemma handle_missing_values_get (df df' : DataFrame) (name : string) :
  NoDup (columns df) ->
  handle_missing_values df = Ok df' ->
  get_col name df'
  = option_map (fun c => fill_mode (fill_median c)) (get_col name df).
Proof.
  intros Hnd H. destruct (total_missing df =? 0) eqn:E.
  - unfold handle_missing_values in H. rewrite E in H. injection H as <-.
    apply Nat.eqb_eq in E.
    destruct (get_col name df) as [c|] eqn:G; [|reflexivity].
    cbn [option_map]. f_equal. symmetry. apply fill_settled.
    apply (total_missing_zero df name c E). apply get_col_Some_In. exact G.
  - rewrite (handle_missing_values_unfold df E) in H.
    set (d1 := fold_left impute_numerical (numerical_cols df) df) in *.
    assert (Hnd1 : NoDup (columns d1))
      by (unfold d1; rewrite numerical_loop_columns; exact Hnd).
    rewrite (categorical_loop_get _ (categorical_cols_NoDup _ Hnd1)
               _ df' name H).
    assert (G1 : get_col name d1
                 = option_map fill_median (get_col name df)).
    { unfold d1.
      rewrite (numerical_loop_get _ (numerical_cols_NoDup df Hnd)).
      destruct (in_dec string_dec name (numerical_cols df)) as [_|Hn];
        [reflexivity|].
      destruct (get_col name df) as [[xs|xs|xs]|] eqn:G; try reflexivity.
      exfalso. apply Hn. eapply numerical_cols_In, get_col_Some_In, G. }
    destruct (in_dec string_dec name (categorical_cols d1)) as [_|Hn].
    + rewrite G1. destruct (get_col name df); reflexivity.
    + rewrite G1. destruct (get_col name df) as [[xs|xs|xs]|] eqn:G;
        cbn [option_map]; try reflexivity.
      * unfold fill_median. destruct (0 <? count_null xs); reflexivity.
      * exfalso. apply Hn.
        cbn [option_map fill_median] in G1.
        eapply categorical_cols_In, get_col_Some_In, G1.
Qed.

Lemma handle_missing_values_columns (df df' : DataFrame) :
  handle_missing_values df = Ok df' -> columns df' = columns df.
Proof.
  intros H. destruct (total_missing df =? 0) eqn:E.
  - unfold handle_missing_values in H. rewrite E in H. injection H as <-.
    reflexivity.
  - rewrite (handle_missing_values_unfold df E) in H.
    rewrite <- (numerical_loop_columns (numerical_cols df) df).
    revert H.
    generalize (fold_left impute_numerical (numerical_cols df) df) at 2 3.
    generalize (categorical_cols
                  (fold_left impute_numerical (numerical_cols df) df)).
    intros cols. induction cols as [|c t IH]; intros d H.
    + simpl in H. injection H as <-. reflexivity.
    + cbn [fold_left bind] in H.
      destruct (impute_categorical d c) as [d1|e] eqn:S;
        [|rewrite categorical_loop_raise in H; discriminate].
      rewrite (IH d1 H). eapply impute_categorical_columns. exact S.
Qed.

Lemma all_missing_or_value {A} (xs : list (option A)) :
  all_missing xs \/ exists v, In (Some v) xs.
Proof.
  induction xs as [|[w|] t IH].
  - left. intros c [].
  - right. exists w. left. reflexivity.
  - destruct IH as [H|[v Hv]].
    + left. intros c [<-|Hin]; [reflexivity|exact (H c Hin)].
    + right. exists v. right. exact Hv.
Qed.

(** When the imputer returns, every categorical column it had to fill has
    a value. *)
Lemma handle_missing_values_modes
  (df df' : DataFrame) (name : string) (xs : list (option string)) :
  NoDup (columns df) ->
  handle_missing_values df = Ok df' ->
  In (name, ObjCol xs) df -> 0 < count_null xs ->
  exists v, In (Some v) xs.
Proof.
  intros Hnd H Hin Hc.
  destruct (all_missing_or_value xs) as [Hall|Hv]; [|exact Hv].
  exfalso.
  rewrite (handle_missing_values_unfold df
             (total_missing_pos df name (ObjCol xs) Hin Hc)) in H.
  pose proof (get_col_In df name _ Hnd Hin) as G.
  apply (proj2 (numerical_loop_obj (numerical_cols df) df name xs)) in G.
  assert (Hne : xs <> []).
  { intros ->. unfold count_null in Hc. simpl in Hc. lia. }
  rewrite (categorical_loop_aborts _ name xs) in H; auto; [discriminate|].
  eapply categorical_cols_In, get_col_Some_In, G.
Qed.

Lemma median_between (xs : list num) (m : Q) :
  median xs = Some m ->
  exists a b, In (Some a) xs /\ In (Some b) xs /\ (a <= m <= b)%Q.
Proof.
  unfold median, quantile.
  pose proof (sort_sorted Q Qle_bool Qle_bool_total Qle_bool_trans (dropna xs))
    as Hs.
  assert (Hin : forall v, In v (sort Qle_bool (dropna xs)) -> In (Some v) xs).
  { intros v Hv. apply In_dropna. apply (In_sort Q Qle_bool). exact Hv. }
  destruct (sort Qle_bool (dropna xs)) as [|a t] eqn:E; [discriminate|].
  intros H. injection H as <-.
  set (s := a :: t) in *.
  assert (Hlen : 0 < length s) by (simpl; lia).
  assert (Hm : (0 <= inject_Z (Z.of_nat (length s - 1)))%Q).
  { change 0%Q with (inject_Z 0). rewrite <- Zle_Qle. lia. }
  assert (H0 : (0 <= 0.5 * inject_Z (Z.of_nat (length s - 1)))%Q) by lra.
  assert (H1 : (0.5 * inject_Z (Z.of_nat (length s - 1))
                <= inject_Z (Z.of_nat (length s - 1)))%Q) by lra.
  destruct (lerp_between s Hs Hlen _ H0 H1) as [Hlo Hhi].
  pose proof (floor_index s Hlen _ H0 H1) as Hi.
  eexists _, _. split; [|split; [|split; [exact Hlo|exact Hhi]]];
    apply Hin, nth_In; lia.
Qed.

(** X6.  When the imputer returns, a numerical column that holds at least
    one number comes back with every missing cell replaced by the median
    of its numbers and every number left as it was; the median lies
    between two numbers of the column. *)
Theorem imputer_fills_gaps_with_median
  (df df' : DataFrame) (name : string) (xs : list num) (w : Q) :
  well_formed df ->
  handle_missing_values df = Ok df' ->
  In (name, NumCol xs) df ->
  In (Some w) xs ->
  exists m a b,
    median xs = Some m /\
    In (Some a) xs /\ In (Some b) xs /\ (a <= m <= b)%Q /\
    get_col name df'
    = Some (NumCol (map (fun c => match c with
                                  | Some v => Some v
                                  | None => Some m
                                  end) xs)).
Proof.
  intros [Hnd Hlen] H Hin Hw.
  destruct (quantile_some xs w 0.5%Q Hw) as [m Hm].
  destruct (median_between xs m Hm) as (a & b & Ha & Hb & Hab).
  exists m, a, b. repeat (split; [assumption||tauto|]).
  rewrite (handle_missing_values_get df df' name Hnd H).
  rewrite (get_col_In df name _ Hnd Hin). cbn [option_map fill_median].
  assert (Hfill : fillna (Some m) xs
                  = map (fun c => match c with
                                  | Some v => Some v
                                  | None => Some m
                                  end) xs).
  { unfold fillna. apply map_ext. intros [v|]; reflexivity. }
  destruct (0 <? count_null xs) eqn:C; cbn [fill_mode].
  - unfold median in *. rewrite Hm, Hfill. reflexivity.
  - apply Nat.ltb_ge in C. rewrite <- Hfill, fillna_no_gap by lia.
    reflexivity.
Qed.

Lemma ages_imputed_ok : handle_missing_values ages = Ok ages_imputed.
Proof. vm_compute. reflexivity. Defined.

Lemma imputer_fills_gaps_with_median_witness :
  well_formed ages /\
  handle_missing_values ages = Ok ages_imputed /\
  In ("age"%string, NumCol age_values) ages /\
  In (Some 20%Q) age_values /\
  exists m a b,
    median age_values = Some m /\
    In (Some a) age_values /\ In (Some b) age_values /\ (a <= m <= b)%Q /\
    get_col "age" ages_imputed
    = Some (NumCol (map (fun c => match c with
                                  | Some v => Some v
                                  | None => Some m
                                  end) age_values)).
Proof.
  split; [exact ages_well_formed|]. split; [exact ages_imputed_ok|].
  split; [left; reflexivity|]. split; [left; reflexivity|].
  exact (imputer_fills_gaps_with_median ages ages_imputed "age" age_values 20
           ages_well_formed ages_imputed_ok (or_introl eq_refl)
           (or_introl eq_refl)).
Defined.

Lemma col_length_fill (c : column) :
  col_length (fill_mode (fill_median c)) = col_length c.
Proof.
  assert (Hf : forall A (v : option A) (xs : list (option A)),
             length (fillna v xs) = length xs).
  { intros A [v|] xs; [apply length_map|reflexivity]. }
  destruct c as [xs|xs|xs]; cbn [fill_median fill_mode]; try reflexivity.
  - destruct (0 <? count_null xs); cbn [fill_mode col_length];
      [apply Hf|reflexivity].
  - destruct (0 <? count_null xs); [|reflexivity].
    destruct (mode xs) as [|m rest]; [reflexivity|].
    cbn [col_length]. apply Hf.
Qed.

(** A column that the imputer returns, traced back to the column it was
    given. *)
Lemma handle_missing_values_column
  (df df' : DataFrame) (name : string) (c' : column) :
  NoDup (columns df) ->
  handle_missing_values df = Ok df' ->
  In (name, c') df' ->
  exists c, In (name, c) df /\ c' = fill_mode (fill_median c).
Proof.
  intros Hnd H Hin.
  assert (Hnd' : NoDup (columns df'))
    by (rewrite (handle_missing_values_columns df df' H); exact Hnd).
  pose proof (get_col_In df' name c' Hnd' Hin) as G'.
  rewrite (handle_missing_values_get df df' name Hnd H) in G'.
  destruct (get_col name df) as [c|] eqn:G; [|discriminate].
  injection G' as <-. exists c. split; [|reflexivity].
  apply get_col_Some_In. exact G.
Qed.

(** After a run that returned, a column still has a missing cell only if
    it is numerical and was missing throughout. *)
Lemma imputed_column_gap
  (df df' : DataFrame) (name : string) (c' : column) :
  NoDup (columns df) ->
  handle_missing_values df = Ok df' ->
  In (name, c') df' ->
  0 < col_count_null c' ->
  exists xs, c' = NumCol xs /\ In (name, NumCol xs) df /\ all_missing xs.
Proof.
  intros Hnd H Hin Hgap.
  destruct (handle_missing_values_column df df' name c' Hnd H Hin)
    as (c & Hc & ->).
  destruct c as [xs|xs|xs]; cbn [fill_median fill_mode] in *.
  - destruct (0 <? count_null xs) eqn:C; cbn [fill_mode col_count_null] in *.
    + destruct (all_missing_or_value xs) as [Hall|[v Hv]].
      * rewrite (median_all_missing xs Hall) in *. cbn [fillna] in *.
        exists xs. auto.
      * destruct (quantile_some xs v 0.5%Q Hv) as [m Hm].
        unfold median in Hgap. rewrite Hm in Hgap.
        pose proof (count_null_fillna m xs) as Hz. unfold fillna in Hz, Hgap.
        rewrite Hz in Hgap. lia.
    + apply Nat.ltb_ge in C. lia.
  - destruct (0 <? count_null xs) eqn:C.
    + apply Nat.ltb_lt in C.
      destruct (handle_missing_values_modes df df' name xs Hnd H Hc C)
        as [v Hv].
      pose proof (mode_nonempty xs v Hv) as Hne.
      destruct (mode xs) as [|m rest]; [congruence|].
      cbn [col_count_null] in Hgap.
      pose proof (count_null_fillna m xs) as Hz. unfold fillna in Hz, Hgap.
      rewrite Hz in Hgap. lia.
    + apply Nat.ltb_ge in C. cbn [col_count_null] in Hgap. lia.
  - cbn [col_count_null] in Hgap. lia.
Qed.

Lemma nrows_imputed (df df' : DataFrame) :
  NoDup (columns df) ->
  handle_missing_values df = Ok df' -> nrows df' = nrows df.
Proof.
  intros Hnd H.
  pose proof (handle_missing_values_columns df df' H) as Hcols.
  destruct df as [|[n c] t], df' as [|[n' c'] t']; try discriminate;
    [reflexivity|].
  injection Hcols as -> _.
  pose proof (handle_missing_values_get _ _ n Hnd H) as G.
  cbn [get_col] in G. rewrite String.eqb_refl in G. cbn [option_map] in G.
  injection G as ->. cbn [nrows]. apply col_length_fill.
Qed.

(** X7.  When the imputer returns and no numerical column with a missing
    cell is missing throughout, the table it returns has no missing cell
    left, under the same column names and with the same number of rows. *)
Theorem imputer_leaves_no_gap (df df' : DataFrame) :
  well_formed df ->
  (forall name xs,
     In (name, NumCol xs) df -> 0 < count_null xs -> exists v, In (Some v) xs) ->
  handle_missing_values df = Ok df' ->
  total_missing df' = 0 /\
  columns df' = columns df /\
  nrows df' = nrows df.
Proof.
  intros [Hnd Hlen] Hnum H. split; [|split].
  - apply total_missing_none. intros name c' Hin.
    destruct (col_count_null c') as [|k] eqn:E; [reflexivity|]. exfalso.
    assert (Hgap : 0 < col_count_null c') by lia.
    destruct (imputed_column_gap df df' name c' Hnd H Hin Hgap)
      as (xs & -> & Hx & Hall).
    cbn [col_count_null] in Hgap.
    destruct (Hnum name xs Hx Hgap) as [v Hv].
    specialize (Hall _ Hv). discriminate.
  - apply handle_missing_values_columns. exact H.
  - apply nrows_imputed; assumption.
Qed.

Lemma imputer_leaves_no_gap_witness :
  well_formed ages /\
  (forall name xs,
     In (name, NumCol xs) ages -> 0 < count_null xs ->
     exists v, In (Some v) xs) /\
  handle_missing_values ages = Ok ages_imputed /\
  total_missing ages_imputed = 0 /\
  columns ages_imputed = columns ages /\
  nrows ages_imputed = nrows ages.
Proof.
  assert (Hnum : forall name xs,
             In (name, NumCol xs) ages -> 0 < count_null xs ->
             exists v, In (Some v) xs).
  { intros name xs [E|[E|[]]] _; [|discriminate E].
    injection E as _ <-. exists 20%Q. left. reflexivity. }
  split; [exact ages_well_formed|]. split; [exact Hnum|].
  split; [exact ages_imputed_ok|].
  exact (imputer_leaves_no_gap ages ages_imputed ages_well_formed Hnum
           ages_imputed_ok).
Defined.

Lemma update_col_id (name : string) (f : column -> column) (df : DataFrame) :
  (forall c, In (name, c) df -> f c = c) -> update_col name f df = df.
Proof.
  unfold update_col. induction df as [|[n c] t IH]; intros H; [reflexivity|].
  cbn [map fst snd]. rewrite IH by (intros c' Hin; apply H; right; exact Hin).
  destruct (String.eqb n name) eqn:E; [|reflexivity].
  apply String.eqb_eq in E. subst n.
  rewrite (H c (or_introl eq_refl)). reflexivity.
Qed.

Lemma fold_left_fixed {A B} (f : A -> B -> A) (l : list B) (a : A) :
  (forall b, f a b = a) -> fold_left f l a = a.
Proof.
  intros H. induction l as [|b t IH]; [reflexivity|].
  cbn [fold_left]. rewrite H. exact IH.
Qed.

(** A table in which the imputer has nothing to fill is returned as it
    is. *)
Lemma handle_missing_values_fixed (d : DataFrame) :
  NoDup (columns d) ->
  (forall name xs,
     In (name, NumCol xs) d -> 0 < count_null xs -> all_missing xs) ->
  (forall name xs, In (name, ObjCol xs) d -> count_null xs = 0) ->
  handle_missing_values d = Ok d.
Proof.
  intros Hnd Hnum Hobj. unfold handle_missing_values.
  destruct (total_missing d =? 0); [reflexivity|].
  assert (Hn : forall col, impute_numerical d col = d).
  { intros col. unfold impute_numerical.
    destruct (get_col col d) as [[xs|xs|xs]|] eqn:G; try reflexivity.
    destruct (0 <? count_null xs) eqn:C; [|reflexivity].
    apply Nat.ltb_lt in C.
    pose proof (Hnum col xs (get_col_Some_In d col _ G) C) as Hall.
    rewrite (median_all_missing xs Hall). cbn [fillna].
    apply update_col_id. intros c Hin.
    pose proof (get_col_In d col c Hnd Hin) as G'. congruence. }
  rewrite (fold_left_fixed impute_numerical (numerical_cols d) d Hn).
  assert (Hc : forall col, impute_categorical d col = Ok d).
  { intros col. unfold impute_categorical.
    destruct (get_col col d) as [[xs|xs|xs]|] eqn:G; try reflexivity.
    rewrite (Hobj col xs (get_col_Some_In d col _ G)). reflexivity. }
  induction (categorical_cols d) as [|c t IH]; [reflexivity|].
  cbn [fold_left bind]. rewrite Hc. exact IH.
Qed.

(** X8.  The imputer is idempotent: run on a table that it returned, it
    returns that table again. *)
Theorem imputer_idempotent (df df' : DataFrame) :
  well_formed df ->
  handle_missing_values df = Ok df' ->
  handle_missing_values df' = Ok df'.
Proof.
  intros [Hnd Hlen] H. apply handle_missing_values_fixed.
  - rewrite (handle_missing_values_columns df df' H). exact Hnd.
  - intros name xs Hin Hgap.
    destruct (imputed_column_gap df df' name (NumCol xs) Hnd H Hin Hgap)
      as (ys & E & _ & Hall).
    injection E as ->. exact Hall.
  - intros name xs Hin.
    destruct (count_null xs) as [|k] eqn:E; [reflexivity|]. exfalso.
    assert (Hgap : 0 < col_count_null (ObjCol xs))
      by (cbn [col_count_null]; lia).
    destruct (imputed_column_gap df df' name (ObjCol xs) Hnd H Hin Hgap)
      as (ys & E' & _). discriminate E'.
Qed.

Lemma imputer_idempotent_witness :
  well_formed ages /\
  handle_missing_values ages = Ok ages_imputed /\
  handle_missing_values ages_imputed = Ok ages_imputed.
Proof.
  split; [exact ages_well_formed|]. split; [exact ages_imputed_ok|].
  exact (imputer_idempotent ages ages_imputed ages_well_formed
           ages_imputed_ok).
Defined.

Lemma fillna_present {A} (m : option A) (xs : list (option A)) (i : nat) (v : A) :
  nth_error xs i = Some (Some v) -> nth_error (fillna m xs) i = Some (Some v).
Proof.
  destruct m as [m|]; [|tauto]. unfold fillna. intros H.
  rewrite nth_error_map, H. reflexivity.
Qed.

(** X9.  The imputer never changes a value that is present: whenever it
    returns, every column keeps its name, its length and each of its
    non-missing cells, whatever the type of the column. *)
Theorem imputer_keeps_present_cells
  (df df' : DataFrame) (name : string) (c : column) :
  well_formed df ->
  handle_missing_values df = Ok df' ->
  In (name, c) df ->
  exists c',
    get_col name df' = Some c' /\
    col_length c' = col_length c /\
    forall i v, nth_error (cells c) i = Some (Some v) ->
                nth_error (cells c') i = Some (Some v).
Proof.
  intros [Hnd Hlen] H Hin.
  exists (fill_mode (fill_median c)).
  split; [|split; [apply col_length_fill|]].
  - rewrite (handle_missing_values_get df df' name Hnd H).
    rewrite (get_col_In df name c Hnd Hin). reflexivity.
  - intros i v Hi.
    destruct c as [xs|xs|xs]; cbn [fill_median fill_mode]; [| |exact Hi].
    + destruct (0 <? count_null xs); cbn [fill_mode]; [|exact Hi].
      cbn [cells] in *. rewrite nth_error_map in *. unfold num in *.
      destruct (nth_error xs i) as [[q|]|] eqn:E; try discriminate.
      rewrite (fillna_present (median xs) xs i q E). exact Hi.
    + destruct (0 <? count_null xs); [|exact Hi].
      destruct (mode xs) as [|m rest]; [exact Hi|].
      cbn [cells] in *. rewrite nth_error_map in *.
      destruct (nth_error xs i) as [[q|]|] eqn:E; try discriminate.
      rewrite (fillna_present (Some m) xs i q E). exact Hi.
Qed.

Lemma imputer_keeps_present_cells_witness :
  well_formed ages /\
  handle_missing_values ages = Ok ages_imputed /\
  In ("age"%string, NumCol age_values) ages /\
  exists c',
    get_col "age" ages_imputed = Some c' /\
    col_length c' = col_length (NumCol age_values) /\
    forall i v, nth_error (cells (NumCol age_values)) i = Some (Some v) ->
                nth_error (cells c') i = Some (Some v).
Proof.
  split; [exact ages_well_formed|]. split; [exact ages_imputed_ok|].
  split; [left; reflexivity|].
  exact (imputer_keeps_present_cells ages ages_imputed "age" _
           ages_well_formed ages_imputed_ok (or_introl eq_refl)).
Defined.

(** ** Duplicate removal: nothing lost, nothing repeated *)

Lemma row_eqb_refl (r : list cell) : row_eqb r r = true.
Proof.
  induction r as [|[v|] t IH]; simpl; [reflexivity| |exact IH].
  rewrite value_eqb_refl. exact IH.
Qed.

(** Every row met by the one-pass scan equals a remembered row or a row
    that the scan keeps. *)
Lemma duplicated_from_covers (rs seen : list (list cell)) (r : list cell) :
  In r rs ->
  existsb (row_eqb r) seen = true \/
  existsb (row_eqb r) (bool_index (map negb (duplicated_from seen rs)) rs)
  = true.
Proof.
  revert seen. induction rs as [|r0 t IH]; intros seen Hin; [contradiction|].
  cbn [duplicated_from map bool_index].
  destruct (existsb (row_eqb r0) seen) eqn:D; cbn [negb].
  - destruct Hin as [<-|Hin]; [left; exact D|]. apply IH. exact Hin.
  - destruct Hin as [<-|Hin].
    + right. cbn [existsb]. rewrite row_eqb_refl. reflexivity.
    + destruct (IH (r0 :: seen) Hin) as [H|H].
      * cbn [existsb] in H. apply orb_true_iff in H. destruct H as [H|H].
        -- right. cbn [existsb]. rewrite H. reflexivity.
        -- left. exact H.
      * right. cbn [existsb]. rewrite H. apply orb_true_r.
Qed.

Lemma duplicated_remove_duplicates (df : DataFrame) :
  well_formed df -> count_true (duplicated (remove_duplicates df)) = 0.
Proof.
  intros Hwf. unfold remove_duplicates.
  destruct (count_true (duplicated df) =? 0) eqn:E.
  - apply Nat.eqb_eq. exact E.
  - unfold duplicated at 1, drop_duplicates.
    rewrite rows_take_rows;
      [|exact (proj2 Hwf)|rewrite length_map; apply duplicated_length].
    unfold duplicated. apply duplicated_from_kept.
Qed.

(** X10.  Duplicate removal loses no row and repeats none: every row of
    the table it is given equals one of the rows it returns, and no two
    rows that it returns are equal (missing cells counting as equal). *)
Theorem remove_duplicates_one_of_each (df : DataFrame) :
  well_formed df ->
  (forall r, In r (rows df) ->
     existsb (row_eqb r) (rows (remove_duplicates df)) = true) /\
  (forall i j, i < j -> j < nrows (remove_duplicates df) ->
     row_eqb (row (remove_duplicates df) i) (row (remove_duplicates df) j)
     = false).
Proof.
  intros Hwf. split.
  - intros r Hr. rewrite (rows_remove_duplicates df Hwf). unfold duplicated.
    destruct (duplicated_from_covers (rows df) [] r Hr) as [H|H];
      [discriminate H|exact H].
  - intros i j Hij Hj.
    pose proof (duplicated_remove_duplicates df Hwf) as Hz.
    rewrite duplicated_spec in Hz.
    pose proof (count_true_zero _ Hz
                  (is_duplicate (remove_duplicates df) j)) as Hd.
    assert (Hfalse : is_duplicate (remove_duplicates df) j = false).
    { apply Hd. apply in_map. apply in_seq. lia. }
    unfold is_duplicate in Hfalse.
    destruct (row_eqb (row (remove_duplicates df) i)
                (row (remove_duplicates df) j)) eqn:E; [|reflexivity].
    assert (Ht : existsb
                   (fun k => row_eqb (row (remove_duplicates df) k)
                               (row (remove_duplicates df) j)) (seq 0 j)
                 = true).
    { apply existsb_exists. exists i. split; [apply in_seq; lia|exact E]. }
    congruence.
Qed.

Lemma remove_duplicates_one_of_each_witness :
  well_formed visits /\
  (forall r, In r (rows visits) ->
     existsb (row_eqb r) (rows (remove_duplicates visits)) = true) /\
  (forall i j, i < j -> j < nrows (remove_duplicates visits) ->
     row_eqb (row (remove_duplicates visits) i)
       (row (remove_duplicates visits) j)
     = false).
Proof.
  split; [exact visits_well_formed|].
  exact (remove_duplicates_one_of_each visits visits_well_formed).
Defined.

(** ** The encoder: codes, untouched columns, indicator rows *)

Lemma dict_get_enumerate (vals : list string) (v : string) (k : nat) :
  NoDup vals -> nth_error vals k = Some v ->
  dict_get (enumerate (map Some vals)) (Some v) = Some (Z.of_nat k).
Proof.
  intros Hnd Hk. unfold enumerate. rewrite length_map.
  exact (dict_get_combine vals v k 0 Hnd Hk).
Qed.

(** X11.  Label codes can be decoded.  On a table none of whose columns
    bears an indicator name: for a categorical column without missing
    entries and with at most ten distinct values, the recorded mapping
    gives every value of the column a code between 0 and N-1, the encoded
    cell holds the code of the value it replaces, and two different values
    never share a code. *)
Theorem label_codes_decodable
  (df : DataFrame) (name : string) (xs : list (option string)) :
  well_formed df ->
  fresh_indicator_names df ->
  In (name, ObjCol xs) df ->
  count_null xs = 0 ->
  nunique xs <= 10 ->
  exists m ys,
    get_item (snd (encode_categorical_variables df)) name = Some m /\
    get_col name (fst (encode_categorical_variables df)) = Some (NumCol ys) /\
    (forall i v, nth_error xs i = Some (Some v) ->
       exists code,
         dict_get m (Some v) = Some code /\
         (0 <= code < Z.of_nat (nunique xs))%Z /\
         nth_error ys i = Some (Some (inject_Z code))) /\
    (forall v w code,
       In (Some v) xs -> In (Some w) xs ->
       dict_get m (Some v) = Some code -> dict_get m (Some w) = Some code ->
       v = w).
Proof.
  intros Hwf Hfresh Hin Hnull H10.
  destruct (encode_label_column df name xs Hwf Hin Hnull H10) as [G E].
  eexists _, _. split; [exact E|]. split; [exact G|]. split.
  - intros i v Hi.
    destruct (map_series_enumerate xs i v Hi) as (k & Hk & Hy).
    exists (Z.of_nat k).
    split; [apply dict_get_enumerate; [apply NoDup_unique|exact Hk]|].
    split; [|exact Hy].
    assert (k < length (unique String.eqb (dropna xs)))
      by (apply nth_error_Some; congruence).
    unfold nunique. lia.
  - intros v w code Hv Hw Dv Dw.
    assert (Hk : forall u, In (Some u) xs ->
              exists k, nth_error (unique String.eqb (dropna xs)) k = Some u).
    { intros u Hu. apply In_nth_error. apply In_unique, In_dropna. exact Hu. }
    destruct (Hk v Hv) as [k Kv]. destruct (Hk w Hw) as [k' Kw].
    rewrite (dict_get_enumerate _ v k (NoDup_unique _) Kv) in Dv.
    rewrite (dict_get_enumerate _ w k' (NoDup_unique _) Kw) in Dw.
    assert (k = k') by (injection Dv as Dv; injection Dw as Dw; lia).
    subst k'. congruence.
Qed.

Lemma label_codes_decodable_witness :
  well_formed school /\
  fresh_indicator_names school /\
  In ("grade"%string, ObjCol grade_values) school /\
  count_null grade_values = 0 /\
  nunique grade_values <= 10 /\
  exists m ys,
    get_item (snd (encode_categorical_variables school)) "grade" = Some m /\
    get_col "grade" (fst (encode_categorical_variables school))
    = Some (NumCol ys) /\
    (forall i v, nth_error grade_values i = Some (Some v) ->
       exists code,
         dict_get m (Some v) = Some code /\
         (0 <= code < Z.of_nat (nunique grade_values))%Z /\
         nth_error ys i = Some (Some (inject_Z code))) /\
    (forall v w code,
       In (Some v) grade_values -> In (Some w) grade_values ->
       dict_get m (Some v) = Some code -> dict_get m (Some w) = Some code ->
       v = w).
Proof.
  split; [exact school_well_formed|]. split; [exact school_fresh|].
  split; [left; reflexivity|].
  split; [reflexivity|]. split; [vm_compute; lia|].
  apply (label_codes_decodable school "grade" grade_values
           school_well_formed school_fresh (or_introl eq_refl)).
  - reflexivity.
  - vm_compute. lia.
Defined.

(** X12.  The encoder rewrites categorical columns only: a numerical or
    boolean column of the table is found unchanged in the table it
    returns, and no mapping is recorded under its name. *)
Theorem encoder_leaves_other_columns
  (df : DataFrame) (name : string) (c : column) :
  well_formed df ->
  In (name, c) df ->
  (forall xs, c <> ObjCol xs) ->
  get_col name (fst (encode_categorical_variables df)) = Some c /\
  get_item (snd (encode_categorical_variables df)) name = None.
Proof.
  intros [Hnd Hlen] Hin Hc.
  pose proof (get_col_In df name c Hnd Hin) as G.
  unfold encode_categorical_variables.
  destruct (length (categorical_cols df) =? 0); [split; [exact G|reflexivity]|].
  apply (encode_loop_other (categorical_cols df) name c); [|exact G].
  intros Hcat. unfold categorical_cols in Hcat. apply in_flat_map in Hcat.
  destruct Hcat as [[n c'] [Hin' Hn]]. cbn [fst snd] in Hn.
  destruct c' as [ys|ys|ys]; try contradiction.
  destruct Hn as [->|[]].
  pose proof (get_col_In df name _ Hnd Hin') as G'.
  rewrite G in G'. injection G' as ->. exact (Hc ys eq_refl).
Qed.

Lemma encoder_leaves_other_columns_witness :
  well_formed sales /\
  exists c,
    In ("units"%string, c) sales /\
    (forall xs, c <> ObjCol xs) /\
    get_col "units" (fst (encode_categorical_variables sales)) = Some c /\
    get_item (snd (encode_categorical_variables sales)) "units" = None.
Proof.
  split; [exact sales_well_formed|].
  eexists. split; [right; left; reflexivity|].
  split; [intros xs; discriminate|].
  apply (encoder_leaves_other_columns sales "units" _ sales_well_formed
           (or_intror (or_introl eq_refl))).
  intros xs. discriminate.
Defined.

Lemma NoDup_insert {A} (leb : A -> A -> bool) (x : A) (l : list A) :
  ~ In x l -> NoDup l -> NoDup (insert leb x l).
Proof.
  induction l as [|z t IH]; intros Hx Hnd; cbn [insert].
  - constructor; [exact Hx|constructor].
  - destruct (leb x z); [constructor; assumption|].
    inversion Hnd as [|? ? Hz Ht]; subst. constructor.
    + intros Hin. apply In_insert_any in Hin. destruct Hin as [->|Hin].
      * apply Hx. left. reflexivity.
      * exact (Hz Hin).
    + apply IH; [|exact Ht]. intros Hin. apply Hx. right. exact Hin.
Qed.

Lemma NoDup_sort {A} (leb : A -> A -> bool) (l : list A) :
  NoDup l -> NoDup (sort leb l).
Proof.
  induction 1 as [|x t Hx Hnd IH]; cbn [sort]; [constructor|].
  apply NoDup_insert; [|exact IH].
  intros Hin. apply In_sort_any in Hin. exact (Hx Hin).
Qed.

(** X13.  One-hot encoding with the first level dropped cannot tell a
    missing entry from the first level.  For a categorical column with
    more than ten distinct values (and no clash of indicator names), the
    indicator columns stand in the returned table, and a row has all its
    indicators false exactly when its entry is missing or is the first
    value in sorted order. *)
Theorem one_hot_row_all_false
  (df : DataFrame) (name : string) (xs : list (option string)) (i : nat) :
  well_formed df ->
  In (name, ObjCol xs) df ->
  10 < nunique xs ->
  fresh_indicator_names df ->
  i < length xs ->
  (exists pre post,
     fst (encode_categorical_variables df)
     = pre ++ get_dummies xs name ++ post) /\
  ((forall n bs, In (n, BoolCol bs) (get_dummies xs name) ->
                 nth_error bs i = Some false)
   <->
   (nth_error xs i = Some None \/
    exists first,
      hd_error (sort String.leb (unique String.eqb (dropna xs))) = Some first /\
      nth_error xs i = Some (Some first))).
Proof.
  intros Hwf Hin H10 Hfresh Hi.
  destruct (encode_one_hot_column df name xs Hwf Hin H10 Hfresh)
    as (Hb & _ & _).
  split; [exact Hb|].
  unfold get_dummies.
  assert (Hlev : forall v, In (Some v) xs <->
                   In v (sort String.leb (unique String.eqb (dropna xs)))).
  { intros v. rewrite (In_sort string String.leb), In_unique, In_dropna.
    tauto. }
  destruct (nth_error xs i) as [c|] eqn:E;
    [|apply nth_error_None in E; lia].
  destruct (sort String.leb (unique String.eqb (dropna xs))) as [|l0 rest]
    eqn:Esort; cbn [tl hd_error].
  - destruct c as [v|].
    + exfalso. apply (proj1 (Hlev v)). eapply nth_error_In. exact E.
    + split; [auto|]. intros _ n bs [].
  - split.
    + intros Hall. destruct c as [v|]; [|auto]. right. exists l0.
      split; [reflexivity|]. do 2 f_equal.
      assert (Hv : In v (l0 :: rest))
        by (apply Hlev; eapply nth_error_In; exact E).
      destruct Hv as [->|Hv]; [reflexivity|]. exfalso.
      specialize (Hall (indicator_name name v)
                    (map (fun c => match c with
                                   | Some u => String.eqb u v
                                   | None => false
                                   end) xs)).
      rewrite nth_error_map, E in Hall. cbn [option_map] in Hall.
      rewrite String.eqb_refl in Hall.
      assert (Some true = Some false); [|discriminate].
      apply Hall. apply in_map_iff. exists v. auto.
    + intros Hc n bs Hn. apply in_map_iff in Hn.
      destruct Hn as [level [Hl Hrest]]. injection Hl as _ <-.
      rewrite nth_error_map, E. cbn [option_map]. f_equal.
      destruct Hc as [Hc|[first [Hf Hc]]]; injection Hc as ->; [reflexivity|].
      injection Hf as <-.
      apply String.eqb_neq. intros <-.
      pose proof (NoDup_sort String.leb _ (NoDup_unique (dropna xs))) as Hs.
      rewrite Esort in Hs. inversion Hs as [|? ? Hnotin _]; subst.
      exact (Hnotin Hrest).
Qed.

Lemma one_hot_row_all_false_witness :
  well_formed sales /\
  In ("month"%string, ObjCol month_values) sales /\
  10 < nunique month_values /\
  fresh_indicator_names sales /\
  0 < length month_values /\
  (exists pre post,
     fst (encode_categorical_variables sales)
     = pre ++ get_dummies month_values "month" ++ post) /\
  ((forall n bs, In (n, BoolCol bs) (get_dummies month_values "month") ->
                 nth_error bs 0 = Some false)
   <->
   (nth_error month_values 0 = Some None \/
    exists first,
      hd_error (sort String.leb (unique String.eqb (dropna month_values)))
      = Some first /\
      nth_error month_values 0 = Some (Some first))).
Proof.
  assert (H10 : 10 < nunique month_values) by (vm_compute; lia).
  assert (H0 : 0 < length month_values) by (vm_compute; lia).
  split; [exact sales_well_formed|]. split; [left; reflexivity|].
  split; [exact H10|]. split; [exact sales_fresh|]. split; [exact H0|].
  exact (one_hot_row_all_false sales "month" month_values 0
           sales_well_formed (or_introl eq_refl) H10 sales_fresh H0).
Defined.

(** ** The loop of [scale_features] *)

Lemma get_set_same_any {V} (d : list (string * V)) (key : string) (v : V) :
  get_item (set_item d key v) key = Some v.
Proof.
  induction d as [|[k w] t IH]; cbn [set_item get_item].
  - rewrite String.eqb_refl. reflexivity.
  - destruct (String.eqb k key) eqn:E; cbn [get_item]; rewrite E; auto.
Qed.

Lemma get_set_other_any {V} (d : list (string * V)) (key name : string) (v : V) :
  key <> name -> get_item (set_item d key v) name = get_item d name.
Proof.
  intros NE. induction d as [|[k w] t IH]; cbn [set_item get_item].
  - apply String.eqb_neq in NE. rewrite NE. reflexivity.
  - destruct (String.eqb k key) eqn:E; cbn [get_item].
    + apply String.eqb_eq in E. subst k.
      apply String.eqb_neq in NE. rewrite NE. reflexivity.
    + rewrite IH. reflexivity.
Qed.

Section ScalerFacts.
Variable fsqrt : Q -> Q.
Variable method : string.

Lemma scale_step_same (d : DataFrame) (p : ScalingParams) (col : string) :
  get_col col (fst (scale_step fsqrt method (d, p) col))
  = option_map (scale_column fsqrt method) (get_col col d).
Proof.
  unfold scale_step, scale_column.
  destruct (get_col col d) as [[xs|xs|xs]|] eqn:G; cbn [option_map fst];
    try exact G.
  destruct (String.eqb method "standardize");
    [cbn [fst]; rewrite get_update_same, G; reflexivity|].
  destruct (String.eqb method "normalize");
    [cbn [fst]; rewrite get_update_same, G; reflexivity|exact G].
Qed.

Lemma scale_step_other (d : DataFrame) (p : ScalingParams) (col name : string) :
  col <> name ->
  get_col name (fst (scale_step fsqrt method (d, p) col)) = get_col name d /\
  get_item (snd (scale_step fsqrt method (d, p) col)) name = get_item p name.
Proof.
  intros NE. unfold scale_step.
  destruct (get_col col d) as [[xs|xs|xs]|]; cbn [fst snd]; auto.
  destruct (String.eqb method "standardize");
    [cbn [fst snd]; rewrite get_update_other, get_set_other_any by exact NE;
     auto|].
  destruct (String.eqb method "normalize");
    [cbn [fst snd]; rewrite get_update_other, get_set_other_any by exact NE;
     auto|auto].
Qed.

Lemma scale_step_record (d : DataFrame) (p : ScalingParams) (col : string)
  (c : column) (r : scaling) :
  get_col col d = Some c ->
  scale_record fsqrt method c = Some r ->
  get_item (snd (scale_step fsqrt method (d, p) col)) col = Some r.
Proof.
  intros G R. unfold scale_step, scale_record in *. rewrite G.
  destruct c as [xs|xs|xs]; try discriminate.
  destruct (String.eqb method "standardize");
    [injection R as <-; apply get_set_same_any|].
  destruct (String.eqb method "normalize");
    [injection R as <-; apply get_set_same_any|discriminate].
Qed.

Lemma scale_loop_other (cols : list string) (name : string) :
  ~ In name cols ->
  forall acc,
    get_col name (fst (fold_left (scale_step fsqrt method) cols acc))
    = get_col name (fst acc) /\
    get_item (snd (fold_left (scale_step fsqrt method) cols acc)) name
    = get_item (snd acc) name.
Proof.
  induction cols as [|c t IH]; intros Hn acc; [auto|].
  cbn [fold_left].
  assert (NE : c <> name) by (intros ->; apply Hn; left; reflexivity).
  assert (Hn' : ~ In name t) by (intros H; apply Hn; right; exact H).
  destruct (IH Hn' (scale_step fsqrt method acc c)) as [-> ->].
  destruct acc as [d p]. apply scale_step_other. exact NE.
Qed.

(** The loop scales every column it visits once and records its
    parameters; it leaves every other column and entry alone. *)
Lemma scale_loop_get (cols : list string) (name : string) :
  NoDup cols -> In name cols ->
  forall d p,
    get_col name (fst (fold_left (scale_step fsqrt method) cols (d, p)))
    = option_map (scale_column fsqrt method) (get_col name d) /\
    forall c r,
      get_col name d = Some c -> scale_record fsqrt method c = Some r ->
      get_item (snd (fold_left (scale_step fsqrt method) cols (d, p))) name
      = Some r.
Proof.
  induction 1 as [|c t Hnotin Hnd IH]; intros Hin d p; [contradiction|].
  cbn [fold_left]. destruct (string_dec c name) as [->|NE].
  - destruct (scale_loop_other t name Hnotin
                (scale_step fsqrt method (d, p) name)) as [-> ->].
    split; [apply scale_step_same|].
    intros c r G R. eapply scale_step_record; eauto.
  - destruct Hin as [E|Hin]; [contradiction|].
    destruct (scale_step_other d p c name NE) as [G1 _].
    destruct (scale_step fsqrt method (d, p) c) as [d1 p1] eqn:S.
    cbn [fst] in G1. destruct (IH Hin d1 p1) as [Hg Hr].
    rewrite Hg, G1. split; [reflexivity|].
    intros c0 r G R. apply (Hr c0 r); [congruence|exact R].
Qed.
End ScalerFacts.

(** X14.  The scaler rewrites numerical columns only: under either method
    a column of any other type comes back as it was, and no parameters
    are recorded under its name. *)
Theorem scaler_leaves_other_columns
  (fsqrt : Q -> Q) (method : string) (df : DataFrame) (name : string)
  (c : column) :
  well_formed df ->
  In (name, c) df ->
  (forall xs, c <> NumCol xs) ->
  get_col name (fst (scale_features fsqrt df method)) = Some c /\
  get_item (snd (scale_features fsqrt df method)) name = None.
Proof.
  intros [Hnd Hlen] Hin Hc.
  pose proof (get_col_In df name c Hnd Hin) as G.
  change (scale_features fsqrt df method)
    with (fold_left (scale_step fsqrt method) (numerical_cols df) (df, [])).
  assert (Hn : ~ In name (numerical_cols df)).
  { intros Hnum. unfold numerical_cols in Hnum. apply in_flat_map in Hnum.
    destruct Hnum as [[n c'] [Hin' Hn]]. cbn [fst snd] in Hn.
    destruct c' as [ys|ys|ys]; try contradiction.
    destruct Hn as [->|[]].
    pose proof (get_col_In df name _ Hnd Hin') as G'.
    rewrite G in G'. injection G' as ->. exact (Hc ys eq_refl). }
  destruct (scale_loop_other fsqrt method (numerical_cols df) name Hn (df, []))
    as [-> ->].
  split; [exact G|reflexivity].
Qed.

Lemma heights_well_formed : well_formed heights.
Proof.
  split.
  - repeat constructor; simpl; intuition discriminate.
  - intros n c [H|[H|[]]]; injection H as <- <-; reflexivity.
Defined.

Lemma scaler_leaves_other_columns_witness :
  well_formed heights /\
  exists c,
    In ("tall"%string, c) heights /\
    (forall xs, c <> NumCol xs) /\
    get_col "tall" (fst (scale_features sqrt_of_square heights "normalize"))
    = Some c /\
    get_item (snd (scale_features sqrt_of_square heights "normalize")) "tall"
    = None.
Proof.
  split; [exact heights_well_formed|].
  eexists. split; [right; left; reflexivity|].
  split; [intros xs; discriminate|].
  apply (scaler_leaves_other_columns sqrt_of_square "normalize" heights "tall"
           _ heights_well_formed (or_intror (or_introl eq_refl))).
  intros xs. discriminate.
Defined.

Lemma scale_features_numeric
  (fsqrt : Q -> Q) (method : string) (df : DataFrame) (name : string)
  (xs : list num) :
  well_formed df ->
  In (name, NumCol xs) df ->
  get_col name (fst (scale_features fsqrt df method))
  = Some (scale_column fsqrt method (NumCol xs)) /\
  forall r, scale_record fsqrt method (NumCol xs) = Some r ->
            get_item (snd (scale_features fsqrt df method)) name = Some r.
Proof.
  intros [Hnd Hlen] Hin.
  pose proof (get_col_In df name _ Hnd Hin) as G.
  change (scale_features fsqrt df method)
    with (fold_left (scale_step fsqrt method) (numerical_cols df) (df, [])).
  destruct (scale_loop_get fsqrt method (numerical_cols df) name
              (numerical_cols_NoDup df Hnd) (numerical_cols_In df name xs Hin)
              df []) as [Hg Hr].
  split.
  - etransitivity; [exact Hg|]. rewrite G. reflexivity.
  - intros r R. exact (Hr _ r G R).
Qed.

(** ** Smallest and largest value of a series *)

Lemma sorted_snoc_le (l : list Q) (h : Q) :
  StronglySorted (fun x y => Qle_bool x y = true) (l ++ [h]) ->
  forall x, In x l -> (x <= h)%Q.
Proof.
  induction l as [|a t IH]; intros Hs x Hin; [contradiction|].
  cbn [app] in Hs. inversion Hs as [|? ? Hs' Hall]; subst.
  destruct Hin as [<-|Hin]; [|exact (IH Hs' x Hin)].
  rewrite Forall_forall in Hall. apply Qle_bool_iff, Hall.
  apply in_or_app. right. left. reflexivity.
Qed.

Lemma series_min_spec (xs : list num) (v : Q) :
  In (Some v) xs ->
  exists lo, series_min xs = Some lo /\ In (Some lo) xs /\
             forall w, In (Some w) xs -> (lo <= w)%Q.
Proof.
  intros Hv. unfold series_min.
  pose proof (sort_sorted Q Qle_bool Qle_bool_total Qle_bool_trans (dropna xs))
    as Hs.
  assert (Hin : forall w, In w (sort Qle_bool (dropna xs)) <-> In (Some w) xs).
  { intros w. rewrite (In_sort Q Qle_bool). apply In_dropna. }
  destruct (sort Qle_bool (dropna xs)) as [|lo t].
  - exfalso. exact (proj2 (Hin v) Hv).
  - exists lo. split; [reflexivity|].
    split; [apply Hin; left; reflexivity|].
    intros w Hw. apply Hin in Hw. destruct Hw as [<-|Hw]; [lra|].
    inversion Hs as [|? ? _ Hall]; subst.
    rewrite Forall_forall in Hall. apply Qle_bool_iff, Hall. exact Hw.
Qed.

Lemma series_max_spec (xs : list num) (v : Q) :
  In (Some v) xs ->
  exists hi, series_max xs = Some hi /\ In (Some hi) xs /\
             forall w, In (Some w) xs -> (w <= hi)%Q.
Proof.
  intros Hv. unfold series_max.
  pose proof (sort_sorted Q Qle_bool Qle_bool_total Qle_bool_trans (dropna xs))
    as Hs.
  assert (Hin : forall w, In w (sort Qle_bool (dropna xs)) <-> In (Some w) xs).
  { intros w. rewrite (In_sort Q Qle_bool). apply In_dropna. }
  rewrite <- (rev_involutive (sort Qle_bool (dropna xs))) in Hs, Hin.
  destruct (rev (sort Qle_bool (dropna xs))) as [|hi t].
  - exfalso. exact (proj2 (Hin v) Hv).
  - cbn [rev] in Hs, Hin. exists hi. split; [reflexivity|].
    split; [apply Hin, in_or_app; right; left; reflexivity|].
    intros w Hw. apply Hin in Hw. apply in_app_or in Hw.
    destruct Hw as [Hw|[<-|[]]]; [|lra].
    exact (sorted_snoc_le (rev t) hi Hs w Hw).
Qed.

Lemma series_min_none (xs : list num) :
  all_missing xs -> series_min xs = None.
Proof.
  intros H. unfold series_min. rewrite (dropna_all_missing xs H). reflexivity.
Qed.

(** ** Min-max scaling *)

(** X15.  Method [normalize] on a numerical column that holds two
    different numbers, all of magnitude at most 2^53, where neither a
    difference of int64 wraps around nor a float64 overflows: the smallest
    and the largest number of the column are recorded; every number is
    mapped into the interval from 0 to 1, the smallest to 0 and the
    largest to 1; missing cells stay missing. *)
Theorem normalize_into_unit_interval
  (fsqrt : Q -> Q) (df : DataFrame) (name : string) (xs : list num) (a b : Q) :
  well_formed df ->
  In (name, NumCol xs) df ->
  (forall v, In (Some v) xs -> (Qabs v <= inject_Z (2 ^ 53))%Q) ->
  In (Some a) xs -> In (Some b) xs -> ~ (a == b)%Q ->
  exists lo hi ys,
    get_item (snd (scale_features fsqrt df "normalize")) name
    = Some (Normalize (Some lo) (Some hi)) /\
    In (Some lo) xs /\ In (Some hi) xs /\
    (forall v, In (Some v) xs -> (lo <= v <= hi)%Q) /\
    get_col name (fst (scale_features fsqrt df "normalize"))
    = Some (NumCol ys) /\
    length ys = length xs /\
    (forall i, nth_error xs i = Some None -> nth_error ys i = Some None) /\
    (forall i v, nth_error xs i = Some (Some v) ->
       exists y, nth_error ys i = Some (Some y) /\
                 (0 <= y <= 1)%Q /\
                 ((v == lo)%Q -> (y == 0)%Q) /\
                 ((v == hi)%Q -> (y == 1)%Q)).
Proof.
  intros Hwf Hin Hbound Ha Hb Hab.
  destruct (scale_features_numeric fsqrt "normalize" df name xs Hwf Hin)
    as [G R].
  destruct (series_min_spec xs a Ha) as (lo & Hlo & Hlo_in & Hlo_le).
  destruct (series_max_spec xs a Ha) as (hi & Hhi & Hhi_in & Hhi_le).
  cbn [scale_column scale_record String.eqb Ascii.eqb Bool.eqb] in G, R.
  rewrite Hlo, Hhi in G, R.
  assert (Hlt : (lo < hi)%Q).
  { pose proof (Hlo_le a Ha). pose proof (Hlo_le b Hb).
    pose proof (Hhi_le a Ha). pose proof (Hhi_le b Hb).
    destruct (Qlt_le_dec lo hi) as [H'|H']; [exact H'|].
    exfalso. apply Hab. lra. }
  assert (Hz : Qeq_bool (hi - lo) 0 = false).
  { destruct (Qeq_bool (hi - lo) 0) eqn:E; [|reflexivity].
    apply Qeq_bool_iff in E. lra. }
  eexists lo, hi, _. split; [apply R; reflexivity|].
  split; [exact Hlo_in|]. split; [exact Hhi_in|].
  split; [intros v Hv; split; [apply Hlo_le|apply Hhi_le]; exact Hv|].
  split; [exact G|]. split; [apply length_map|]. split.
  - intros i Hi. rewrite nth_error_map. unfold num in *. rewrite Hi.
    reflexivity.
  - intros i v Hi. rewrite nth_error_map. unfold num in *. rewrite Hi.
    cbn [option_map fsub fdiv]. rewrite Hz.
    eexists. split; [reflexivity|].
    assert (Hv : In (Some v) xs) by (eapply nth_error_In; exact Hi).
    pose proof (Hlo_le v Hv). pose proof (Hhi_le v Hv).
    split; [split|split].
    + apply Qle_shift_div_l; lra.
    + apply Qle_shift_div_r; lra.
    + intros E. rewrite E. field. lra.
    + intros E. rewrite E. field. lra.
Qed.

Lemma heights_bounded (v : Q) :
  In (Some v) height_values -> (Qabs v <= inject_Z (2 ^ 53))%Q.
Proof.
  intros [H|[H|[H|[H|[]]]]]; try discriminate H; injection H as <-;
    vm_compute; discriminate.
Defined.

Lemma normalize_into_unit_interval_witness :
  well_formed heights /\
  In ("height"%string, NumCol height_values) heights /\
  (forall v, In (Some v) height_values -> (Qabs v <= inject_Z (2 ^ 53))%Q) /\
  In (Some 1%Q) height_values /\ In (Some 3%Q) height_values /\
  ~ (1 == 3)%Q /\
  exists lo hi ys,
    get_item (snd (scale_features sqrt_of_square heights "normalize")) "height"
    = Some (Normalize (Some lo) (Some hi)) /\
    In (Some lo) height_values /\ In (Some hi) height_values /\
    (forall v, In (Some v) height_values -> (lo <= v <= hi)%Q) /\
    get_col "height" (fst (scale_features sqrt_of_square heights "normalize"))
    = Some (NumCol ys) /\
    length ys = length height_values /\
    (forall i, nth_error height_values i = Some None ->
               nth_error ys i = Some None) /\
    (forall i v, nth_error height_values i = Some (Some v) ->
       exists y, nth_error ys i = Some (Some y) /\
                 (0 <= y <= 1)%Q /\
                 ((v == lo)%Q -> (y == 0)%Q) /\
                 ((v == hi)%Q -> (y == 1)%Q)).
Proof.
  assert (Hne : ~ (1 == 3)%Q) by (intros H; discriminate H).
  split; [exact heights_well_formed|]. split; [left; reflexivity|].
  split; [exact heights_bounded|].
  split; [left; reflexivity|].
  split; [right; right; left; reflexivity|]. split; [exact Hne|].
  exact (normalize_into_unit_interval sqrt_of_square heights "height"
           height_values 1 3 heights_well_formed (or_introl eq_refl)
           heights_bounded
           (or_introl eq_refl) (or_intror (or_intror (or_introl eq_refl)))
           Hne).
Defined.

(** X16.  Method [normalize] on a numerical column whose numbers are all
    equal (or that holds no number) raises no error: the range is zero,
    every cell of the column becomes NaN. *)
Theorem normalize_constant_column
  (fsqrt : Q -> Q) (df : DataFrame) (name : string) (xs : list num) :
  well_formed df ->
  In (name, NumCol xs) df ->
  (forall v w, In (Some v) xs -> In (Some w) xs -> (v == w)%Q) ->
  get_col name (fst (scale_features fsqrt df "normalize"))
  = Some (NumCol (map (fun _ => None) xs)).
Proof.
  intros Hwf Hin Hconst.
  destruct (scale_features_numeric fsqrt "normalize" df name xs Hwf Hin)
    as [G _].
  rewrite G. cbn [scale_column String.eqb Ascii.eqb Bool.eqb].
  do 2 f_equal. apply map_ext.
  intros c. destruct (all_missing_or_value xs) as [Hall|[v Hv]].
  - rewrite (series_min_none xs Hall). destruct c; reflexivity.
  - destruct (series_min_spec xs v Hv) as (lo & -> & Hlo_in & _).
    destruct (series_max_spec xs v Hv) as (hi & -> & Hhi_in & _).
    destruct c as [x|]; [|reflexivity]. cbn [fsub fdiv].
    replace (Qeq_bool (hi - lo) 0) with true; [reflexivity|].
    symmetry. apply Qeq_bool_iff.
    pose proof (Hconst hi lo Hhi_in Hlo_in). lra.
Qed.

Lemma normalize_constant_column_witness :
  well_formed sales /\
  In ("units"%string, NumCol (repeat (Some 1%Q) 13)) sales /\
  (forall v w, In (Some v) (repeat (Some 1%Q) 13) ->
               In (Some w) (repeat (Some 1%Q) 13) -> (v == w)%Q) /\
  get_col "units" (fst (scale_features sqrt_of_square sales "normalize"))
  = Some (NumCol (map (fun _ => None) (repeat (Some 1%Q) 13))).
Proof.
  assert (Hconst : forall v w, In (Some v) (repeat (Some 1%Q) 13) ->
                     In (Some w) (repeat (Some 1%Q) 13) -> (v == w)%Q).
  { intros v w Hv Hw. apply repeat_spec in Hv, Hw.
    injection Hv as ->. injection Hw as ->. reflexivity. }
  split; [exact sales_well_formed|].
  split; [right; left; reflexivity|]. split; [exact Hconst|].
  exact (normalize_constant_column sqrt_of_square sales "units" _
           sales_well_formed (or_intror (or_introl eq_refl)) Hconst).
Defined.

(** ** Standardisation *)

(** X18.  Method [standardize] on a numerical column with fewer than two
    numbers raises no error: the sample standard deviation is NaN, it is
    recorded as such, and every cell of the column becomes NaN. *)
Theorem standardize_needs_two_values
  (fsqrt : Q -> Q) (df : DataFrame) (name : string) (xs : list num) :
  well_formed df ->
  In (name, NumCol xs) df ->
  length (dropna xs) <= 1 ->
  get_col name (fst (scale_features fsqrt df "standardize"))
  = Some (NumCol (map (fun _ => None) xs)) /\
  get_item (snd (scale_features fsqrt df "standardize")) name
  = Some (Standardize (mean xs) None).
Proof.
  intros Hwf Hin Hlen.
  destruct (scale_features_numeric fsqrt "standardize" df name xs Hwf Hin)
    as [G R].
  cbn [scale_column scale_record String.eqb Ascii.eqb Bool.eqb] in G, R.
  assert (Hstd : std fsqrt xs = None).
  { unfold std. destruct (mean xs); [|reflexivity].
    apply Nat.leb_le in Hlen. rewrite Hlen. reflexivity. }
  rewrite Hstd in G, R. split; [|apply R; reflexivity].
  rewrite G. do 2 f_equal. apply map_ext. intros c.
  destruct (fsub c (mean xs)); reflexivity.
Qed.

Lemma standardize_needs_two_values_witness :
  well_formed unknown_income /\
  In ("income"%string, NumCol no_income) unknown_income /\
  length (dropna no_income) <= 1 /\
  get_col "income"
    (fst (scale_features sqrt_of_square unknown_income "standardize"))
  = Some (NumCol (map (fun _ => None) no_income)) /\
  get_item (snd (scale_features sqrt_of_square unknown_income "standardize"))
    "income"
  = Some (Standardize (mean no_income) None).
Proof.
  assert (Hlen : length (dropna no_income) <= 1) by (vm_compute; lia).
  split; [exact unknown_income_well_formed|]. split; [left; reflexivity|].
  split; [exact Hlen|].
  exact (standardize_needs_two_values sqrt_of_square unknown_income "income"
           no_income unknown_income_well_formed (or_introl eq_refl) Hlen).
Defined.

(** ** Every stage keeps the table well formed *)

Lemma take_rows_well_formed (mask : list bool) (df : DataFrame) :
  well_formed df -> length mask = nrows df -> well_formed (take_rows mask df).
Proof.
  intros [Hnd Hlen] Hm. split; [rewrite columns_take_rows; exact Hnd|].
  assert (Hcol : forall n c, In (n, c) (take_rows mask df) ->
                             col_length c = count_true mask).
  { intros n c Hin. unfold take_rows in Hin. apply in_map_iff in Hin.
    destruct Hin as [[n0 c0] [E Hin]]. cbn [fst snd] in E.
    injection E as <- <-. pose proof (Hlen n0 c0 Hin) as Hl.
    destruct c0 as [xs|xs|xs]; cbn [col_length] in *;
      apply bool_index_length; congruence. }
  intros n c Hin. rewrite (Hcol n c Hin).
  destruct (take_rows mask df) as [|[n0 c0] t]; [destruct Hin|].
  cbn [nrows]. symmetry. apply (Hcol n0). left. reflexivity.
Qed.

Lemma well_formed_shape (df df' : DataFrame) :
  shape df' = shape df -> well_formed df -> well_formed df'.
Proof.
  intros Hs [Hnd Hlen]. split.
  - rewrite (columns_shape df' df Hs). exact Hnd.
  - intros n c Hin. rewrite (nrows_shape df' df Hs).
    assert (Hin' : In (n, col_length c) (shape df')).
    { unfold shape. apply in_map_iff. exists (n, c). auto. }
    rewrite Hs in Hin'. unfold shape in Hin'. apply in_map_iff in Hin'.
    destruct Hin' as [[n0 c0] [E Hin0]]. cbn [fst snd] in E.
    injection E as -> <-. exact (Hlen _ _ Hin0).
Qed.

(** A table whose columns bear the names of a well-formed table and have
    the lengths of the columns of these names is well formed. *)
Lemma well_formed_columnwise (df df' : DataFrame) :
  well_formed df ->
  columns df' = columns df ->
  (forall n c', In (n, c') df' ->
     exists c, In (n, c) df /\ col_length c' = col_length c) ->
  well_formed df'.
Proof.
  intros [Hnd Hlen] Hcols Hcol.
  assert (Hall : forall n c', In (n, c') df' -> col_length c' = nrows df).
  { intros n c' Hin. destruct (Hcol n c' Hin) as (c & Hc & ->).
    exact (Hlen n c Hc). }
  split; [rewrite Hcols; exact Hnd|].
  intros n c' Hin. rewrite (Hall n c' Hin).
  destruct df' as [|[n0 c0] t]; [destruct Hin|].
  cbn [nrows]. symmetry. apply (Hall n0). left. reflexivity.
Qed.

Lemma scale_loop_columns (fsqrt : Q -> Q) (method : string)
  (cols : list string) (acc : DataFrame * ScalingParams) :
  columns (fst (fold_left (scale_step fsqrt method) cols acc))
  = columns (fst acc).
Proof.
  revert acc. induction cols as [|c t IH]; intros acc; [reflexivity|].
  cbn [fold_left]. rewrite IH. destruct acc as [d p]. unfold scale_step.
  destruct (get_col c d) as [[xs|xs|xs]|]; try reflexivity.
  destruct (String.eqb method "standardize");
    [cbn [fst]; apply columns_update|].
  destruct (String.eqb method "normalize");
    [cbn [fst]; apply columns_update|reflexivity].
Qed.

Lemma col_length_scale (fsqrt : Q -> Q) (method : string) (c : column) :
  col_length (scale_column fsqrt method c) = col_length c.
Proof.
  destruct c as [xs|xs|xs]; cbn [scale_column]; try reflexivity.
  destruct (String.eqb method "standardize");
    [cbn [col_length]; apply length_map|].
  destruct (String.eqb method "normalize");
    [cbn [col_length]; apply length_map|reflexivity].
Qed.

(** X19.  Each stage of the cleaning keeps the table well formed: its
    column names stay distinct and its columns keep one common length, for
    the imputer when it returns, for duplicate removal, for outlier
    handling and for scaling, whatever method name they are given. *)
Theorem stages_keep_table_well_formed
  (fsqrt : Q -> Q) (df : DataFrame) (method scaling_method : string) :
  well_formed df ->
  (forall df', handle_missing_values df = Ok df' -> well_formed df') /\
  well_formed (remove_duplicates df) /\
  well_formed (fst (handle_outliers df method)) /\
  well_formed (fst (scale_features fsqrt df scaling_method)).
Proof.
  intros Hwf. split; [|split; [|split]].
  - intros df' H. apply (well_formed_columnwise df df' Hwf).
    + apply handle_missing_values_columns. exact H.
    + intros n c' Hin.
      destruct (handle_missing_values_column df df' n c' (proj1 Hwf) H Hin)
        as (c & Hc & ->).
      exists c. split; [exact Hc|apply col_length_fill].
  - unfold remove_duplicates.
    destruct (count_true (duplicated df) =? 0); [exact Hwf|].
    apply take_rows_well_formed; [exact Hwf|].
    rewrite length_map. apply duplicated_length.
  - destruct (string_dec method "remove") as [->|NE].
    + rewrite (handle_outliers_remove df Hwf).
      apply take_rows_well_formed; [exact Hwf|].
      rewrite length_map, length_seq. reflexivity.
    + apply (well_formed_shape df); [|exact Hwf].
      pose proof (outlier_loop_shape method (numerical_cols df) (df, 0)) as S.
      unfold handle_outliers.
      destruct (fold_left (outlier_step method) (numerical_cols df) (df, 0))
        as [d t]. cbn [fst] in *.
      apply String.eqb_neq in NE. rewrite NE. exact S.
  - change (scale_features fsqrt df scaling_method)
      with (fold_left (scale_step fsqrt scaling_method) (numerical_cols df)
              (df, @nil (string * scaling))).
    apply (well_formed_columnwise df); [exact Hwf| |].
    + apply (scale_loop_columns fsqrt scaling_method (numerical_cols df) (df, [])).
    + intros n c' Hin.
      assert (Hnd' : NoDup (columns (fst (fold_left (scale_step fsqrt scaling_method)
                                            (numerical_cols df) (df, []))))).
      { rewrite (scale_loop_columns fsqrt scaling_method (numerical_cols df) (df, [])).
        exact (proj1 Hwf). }
      pose proof (get_col_In _ n c' Hnd' Hin) as G'.
      destruct (in_dec string_dec n (numerical_cols df)) as [Hnum|Hnum].
      * destruct (scale_loop_get fsqrt scaling_method (numerical_cols df) n
                    (numerical_cols_NoDup df (proj1 Hwf)) Hnum df [])
          as [Hg _].
        pose proof (eq_trans (eq_sym G') Hg) as E.
        destruct (get_col n df) as [c|] eqn:G; [|discriminate E].
        injection E as ->. exists c.
        split; [apply get_col_Some_In; exact G|apply col_length_scale].
      * destruct (scale_loop_other fsqrt scaling_method (numerical_cols df) n Hnum
                    (df, [])) as [Hg _].
        pose proof (eq_trans (eq_sym G') Hg) as E. cbn [fst] in E.
        exists c'. split; [apply get_col_Some_In; symmetry; exact E|].
        reflexivity.
Qed.

Lemma stages_keep_table_well_formed_witness :
  well_formed ages /\
  (forall df', handle_missing_values ages = Ok df' -> well_formed df') /\
  well_formed (remove_duplicates ages) /\
  well_formed (fst (handle_outliers ages "remove")) /\
  well_formed (fst (scale_features sqrt_of_square ages "standardize")).
Proof.
  split; [exact ages_well_formed|].
  exact (stages_keep_table_well_formed sqrt_of_square ages "remove"
           "standardize" ages_well_formed).
Defined.

(** ** The label of a numerical distribution *)

Lemma abs_below (x : num) (c : Q) :
  flt (fabs x) (Some c) = true <-> exists s, x = Some s /\ (- c < s < c)%Q.
Proof.
  destruct x as [s|]; cbn [fabs option_map flt].
  - rewrite Qltb_lt, Qabs_Qlt_condition. split.
    + intros H. exists s. auto.
    + intros (s' & E & H). injection E as <-. exact H.
  - split; [discriminate|]. intros (s & E & _). discriminate E.
Qed.

Lemma above (x : num) (c : Q) :
  fgt x (Some c) = true <-> exists s, x = Some s /\ (c < s)%Q.
Proof.
  destruct x as [s|]; unfold fgt; cbn [flt].
  - rewrite Qltb_lt. split.
    + intros H. exists s. auto.
    + intros (s' & E & H). injection E as <-. exact H.
  - split; [discriminate|]. intros (s & E & _). discriminate E.
Qed.

Lemma below (x : num) (c : Q) :
  flt x (Some c) = true <-> exists s, x = Some s /\ (s < c)%Q.
Proof.
  destruct x as [s|]; cbn [flt].
  - rewrite Qltb_lt. split.
    + intros H. exists s. auto.
    + intros (s' & E & H). injection E as <-. exact H.
  - split; [discriminate|]. intros (s & E & _). discriminate E.
Qed.

(** X20.  The label that [_identify_distribution_type] gives depends on
    the skewness through fixed intervals: it is [Normal (Gaussian)] only
    when the normality test was run and passed, the skewness lies within
    0.5 of zero and the kurtosis within 3; with such a skewness it is
    otherwise [Approximately Normal]; it is the right-skewed label above
    1, the left-skewed one below -1, and [Moderately Skewed] in all other
    cases, which include a skewness that is NaN. *)
Theorem distribution_label_by_skewness (stats : DistStats) :
  let near_zero := exists s, skewness stats = Some s /\ (- 0.5 < s < 0.5)%Q in
  let flat_tails := exists k, kurtosis stats = Some k /\ (- 3 < k < 3)%Q in
  let label := identify_distribution_type stats in
  (label = "Normal (Gaussian)"%string
   <-> is_normal stats = Some true /\ near_zero /\ flat_tails) /\
  (label = "Approximately Normal"%string
   <-> near_zero /\ ~ (is_normal stats = Some true /\ flat_tails)) /\
  (label = "Right-skewed (Log-normal or Exponential)"%string
   <-> exists s, skewness stats = Some s /\ (1 < s)%Q) /\
  (label = "Left-skewed"%string
   <-> exists s, skewness stats = Some s /\ (s < - 1)%Q) /\
  (label = "Moderately Skewed"%string
   <-> skewness stats = None \/
       exists s, skewness stats = Some s /\
                 ((0.5 <= s <= 1)%Q \/ (- 1 <= s <= - 0.5)%Q)).
Proof.
  intros near_zero flat_tails label.
  pose proof (abs_below (skewness stats) 0.5) as Ha.
  pose proof (abs_below (kurtosis stats) 3) as Hk.
  pose proof (above (skewness stats) 1) as Hr.
  pose proof (below (skewness stats) (-1)) as Hl.
  fold near_zero in Ha. fold flat_tails in Hk.
  assert (Hn : (match is_normal stats with Some b => b | None => false end)
               = true <-> is_normal stats = Some true).
  { destruct (is_normal stats) as [[|]|]; split; congruence. }
  assert (Hm : (skewness stats = None \/
                exists s, skewness stats = Some s /\
                          ((0.5 <= s <= 1)%Q \/ (- 1 <= s <= - 0.5)%Q))
               <-> ~ near_zero /\
                   ~ (exists s, skewness stats = Some s /\ (1 < s)%Q) /\
                   ~ (exists s, skewness stats = Some s /\ (s < - 1)%Q)).
  { unfold near_zero. destruct (skewness stats) as [s|].
    - split.
      + intros [E|(s' & E & H)]; [discriminate E|]. injection E as <-.
        repeat split; intros (s' & E & H'); injection E as <-; lra.
      + intros (H1 & H2 & H3). right. exists s. split; [reflexivity|].
        destruct (Qlt_le_dec s 0.5) as [A|A].
        * right. split.
          -- destruct (Qlt_le_dec s (-1)) as [B|B]; [|exact B].
             exfalso. apply H3. exists s. auto.
          -- destruct (Qlt_le_dec (-0.5) s) as [B|B]; [|exact B].
             exfalso. apply H1. exists s. auto.
        * left. split; [exact A|].
          destruct (Qlt_le_dec 1 s) as [B|B]; [|exact B].
          exfalso. apply H2. exists s. auto.
    - split; [|auto]. intros _.
      repeat split; intros (s & E & _); discriminate E. }
  assert (Hex : near_zero ->
                ~ (exists s, skewness stats = Some s /\ (1 < s)%Q) /\
                ~ (exists s, skewness stats = Some s /\ (s < - 1)%Q)).
  { intros (s & E & H). split; intros (s' & E' & H');
      rewrite E in E'; injection E' as <-; lra. }
  assert (Hrl : (exists s, skewness stats = Some s /\ (1 < s)%Q) ->
                ~ (exists s, skewness stats = Some s /\ (s < - 1)%Q)).
  { intros (s & E & H) (s' & E' & H').
    rewrite E in E'; injection E' as <-; lra. }
  rewrite Hm. unfold label, identify_distribution_type.
  destruct (match is_normal stats with Some b => b | None => false end);
    destruct (flt (fabs (skewness stats)) (Some 0.5%Q));
    destruct (flt (fabs (kurtosis stats)) (Some 3%Q));
    destruct (fgt (skewness stats) (Some 1%Q));
    destruct (flt (skewness stats) (Some (-1)%Q));
    cbn [andb];
    repeat split; intros; try discriminate; try reflexivity;
    intuition (try discriminate; try congruence).
Qed.

(** ** Which numerical features are analysed *)

Lemma get_item_fold_set {V} (f : string -> V) (cols : list string)
  (d : list (string * V)) (name : string) :
  get_item (fold_left (fun d col => set_item d col (f col)) cols d) name
  = if in_dec string_dec name cols then Some (f name) else get_item d name.
Proof.
  revert d. induction cols as [|c t IH]; intros d; [reflexivity|].
  cbn [fold_left]. rewrite IH.
  destruct (in_dec string_dec name t) as [Hin|Hn].
  - destruct (in_dec string_dec name (c :: t)) as [_|Hn'];
      [reflexivity|exfalso; apply Hn'; right; exact Hin].
  - destruct (string_dec c name) as [->|NE].
    + rewrite get_set_same_any.
      destruct (in_dec string_dec name (name :: t)) as [_|Hn'];
        [reflexivity|exfalso; apply Hn'; left; reflexivity].
    + rewrite get_set_other_any by exact NE.
      destruct (in_dec string_dec name (c :: t)) as [[E|Hin]|_];
        [contradiction|contradiction|reflexivity].
Qed.

Section DistributionFacts.
Variable Stats : Type.
Variable describe : list num -> Stats.

(** X21.  [analyze_numerical_distributions] stores statistics for a
    column exactly when the column is numerical and its name, put in lower
    case, does not contain the letters [id]; the statistics are those of
    the values of that column.  No other key of the results changes. *)
Theorem id_named_columns_skipped (self : Analyzer Stats) :
  exists dists,
    numerical_distributions
      (self_results (analyze_numerical_distributions describe self))
    = Some dists /\
    (forall col s,
       get_item dists col = Some s
       <-> In col (numerical_cols (self_df self)) /\
           contains "id" (lower col) = false /\
           s = describe (num_values (self_df self) col)) /\
    dataset_info (self_results (analyze_numerical_distributions describe self))
    = dataset_info (self_results self) /\
    class_balance (self_results (analyze_numerical_distributions describe self))
    = class_balance (self_results self) /\
    bias_analysis (self_results (analyze_numerical_distributions describe self))
    = bias_analysis (self_results self) /\
    self_df (analyze_numerical_distributions describe self) = self_df self /\
    self_log (analyze_numerical_distributions describe self) = self_log self.
Proof.
  eexists. split; [reflexivity|]. split; [|repeat split; reflexivity].
  intros col s.
  rewrite (get_item_fold_set
             (fun col => describe (num_values (self_df self) col))).
  destruct (in_dec string_dec col _) as [Hin|Hn].
  - apply filter_In in Hin. destruct Hin as [Hin Hid].
    apply negb_true_iff in Hid. split.
    + intros E. injection E as <-. auto.
    + intros (_ & _ & ->). reflexivity.
  - cbn [get_item]. split; [discriminate|].
    intros (Hin & Hid & _). exfalso. apply Hn. apply filter_In.
    split; [exact Hin|]. rewrite Hid. reflexivity.
Qed.
End DistributionFacts.

(** A column of asset values is taken for an identifier. *)
Example residential_assets_skipped :
  contains "id" (lower "residential_assets_value") = true /\
  contains "id" (lower "Loan_ID") = true /\
  contains "id" (lower "income_annum") = false.
Proof. repeat split; vm_compute; reflexivity. Qed.

(** ** Approval rates are percentages *)

(** The arithmetic of the rationals obeys the laws of rounding. *)
Lemma unrounded_laws : Float64Laws unrounded.
Proof.
  split.
  - intros count total Hc Ht. unfold percentage. cbn [f64_mul f64_div unrounded].
    assert (Hn : (1 <= inject_Z (Z.of_nat total))%Q).
    { change 1%Q with (inject_Z 1). rewrite <- Zle_Qle. lia. }
    assert (Hh0 : (0 <= inject_Z (Z.of_nat count))%Q).
    { change 0%Q with (inject_Z 0). rewrite <- Zle_Qle. lia. }
    assert (Hh : (inject_Z (Z.of_nat count) <= inject_Z (Z.of_nat total))%Q).
    { rewrite <- Zle_Qle. lia. }
    revert Hn Hh0 Hh.
    generalize (inject_Z (Z.of_nat count)).
    generalize (inject_Z (Z.of_nat total)).
    intros n h Hn Hh0 Hh.
    assert (H0 : (0 <= h / n)%Q) by (apply Qle_shift_div_l; lra).
    assert (H1 : (h / n <= 1)%Q) by (apply Qle_shift_div_r; lra).
    split; lra.
  - intros a b H0 H1 H2. cbn [f64_sub unrounded]. split; lra.
  - intros a. cbn [f64_sub unrounded]. ring.
Defined.

Section RateFacts.
Context {F64 : Float64} {laws : Float64Laws F64}.

Lemma bias_entry_rates (feature : list (option string)) (target : list cell)
  (e : BiasEntry) :
  bias_entry feature target = Ok e ->
  exists approval_col,
    approval_rates e
    = map (fun category =>
             (category,
              crosstab_pct (crosstab_pairs feature target) category
                approval_col))
        (sort String.leb
           (unique String.eqb (map fst (crosstab_pairs feature target)))).
Proof.
  unfold bias_entry.
  destruct (if existsb _ _ then _ else _) as [approval_col|err]; cbn [bind];
    [|discriminate].
  destruct (max_rate _) as [mx|]; cbn [bind]; [|discriminate].
  destruct (min_rate _) as [mn|]; cbn [bind]; [|discriminate].
  intros H. injection H as <-. exists approval_col. reflexivity.
Qed.

Lemma crosstab_pct_range (pairs : list (string * value)) (cat : string)
  (label : value) :
  In cat (map fst pairs) ->
  (0 <= crosstab_pct pairs cat label <= 100)%Q.
Proof.
  intros Hin. unfold crosstab_pct.
  set (in_cat := filter (fun p => String.eqb (fst p) cat) pairs).
  set (hits := filter (fun p => value_eqb (snd p) label) in_cat).
  assert (Hn : 1 <= length in_cat).
  { apply in_map_iff in Hin. destruct Hin as [p [E Hp]].
    assert (Hp' : In p in_cat).
    { apply filter_In. split; [exact Hp|]. rewrite E. apply String.eqb_refl. }
    destruct in_cat; [destruct Hp'|simpl; lia]. }
  assert (Hh : length hits <= length in_cat) by apply filter_length_le.
  apply percentage_range; assumption.
Qed.

End RateFacts.


(** ** The report and the console agree *)

Lemma bias_step_ok {F64 : Float64} (df : DataFrame)
  (analysis : list (string * BiasEntry))
  (printed : list event) (c : string)
  (acc1 : list (string * BiasEntry) * list event) :
  bias_step df (analysis, printed) c = Ok acc1 ->
  acc1 = (analysis, printed) \/
  exists entry,
    acc1 = (set_item analysis c entry,
            printed ++ [if bias_detected entry
                        then BiasDetected c (bias_difference entry)
                        else NoSignificantBias c]).
Proof.
  unfold bias_step.
  destruct (has_column df target_col);
    [|intros H; injection H as <-; left; reflexivity].
  destruct (bias_entry (feature_values df c) (target_values df)) as [entry|];
    cbn [bind]; [|discriminate].
  intros H. injection H as <-. right. exists entry. reflexivity.
Qed.

(** Every entry that the loop stores has its verdict printed, and the loop
    prints nothing about the class balance. *)
Lemma bias_loop_log {F64 : Float64} (df : DataFrame) (cols : list string) :
  forall acc acc',
    fold_left (fun r col => do a <- r; bias_step df a col) cols (Ok acc)
    = Ok acc' ->
    ((forall col e, In (col, e) (fst acc) ->
        In (if bias_detected e then BiasDetected col (bias_difference e)
            else NoSignificantBias col) (snd acc)) ->
     forall col e, In (col, e) (fst acc') ->
       In (if bias_detected e then BiasDetected col (bias_difference e)
           else NoSignificantBias col) (snd acc')) /\
    (In ClassImbalance (snd acc') -> In ClassImbalance (snd acc)) /\
    (In ReasonablyBalanced (snd acc') -> In ReasonablyBalanced (snd acc)).
Proof.
  induction cols as [|c t IH]; intros acc acc' H.
  - simpl in H. injection H as <-. auto.
  - cbn [fold_left bind] in H.
    destruct (bias_step df acc c) as [acc1|err] eqn:S;
      [|rewrite bias_loop_raise in H; discriminate].
    destruct (IH acc1 acc' H) as (I1 & I2 & I3).
    destruct acc as [analysis printed].
    destruct (bias_step_ok df analysis printed c acc1 S) as [->|[entry ->]];
      [auto|].
    cbn [fst snd] in *. split; [|split].
    + intros Hacc. apply I1. intros col e Hin.
      apply In_set_item in Hin. apply in_or_app.
      destruct Hin as [[-> ->]|Hin]; [right; left; reflexivity|].
      left. exact (Hacc col e Hin).
    + intros Hin. apply I2, in_app_or in Hin.
      destruct Hin as [Hin|[E|[]]]; [exact Hin|].
      destruct (bias_detected entry); discriminate E.
    + intros Hin. apply I3, in_app_or in Hin.
      destruct Hin as [Hin|[E|[]]]; [exact Hin|].
      destruct (bias_detected entry); discriminate E.
Qed.

Section ReportFacts.
Variable Stats : Type.
Variable describe : list num -> Stats.
Context {F64 : Float64}.

Lemma analyze_categorical_bias_ok (self self' : Analyzer Stats) :
  analyze_categorical_bias self = Ok self' ->
  exists looped,
    fold_left (fun r col => do acc <- r; bias_step (self_df self) acc col)
      (feature_cols (self_df self)) (Ok ([], []))
    = Ok looped /\
    self_df self' = self_df self /\
    dataset_info (self_results self') = dataset_info (self_results self) /\
    class_balance (self_results self') = class_balance (self_results self) /\
    numerical_distributions (self_results self')
    = numerical_distributions (self_results self) /\
    bias_analysis (self_results self') = Some (fst looped) /\
    self_log self' = self_log self ++ snd looped.
Proof.
  unfold analyze_categorical_bias.
  destruct (fold_left _ (feature_cols (self_df self)) (Ok ([], [])))
    as [looped|]; cbn [bind]; [|discriminate].
  destruct (plot_categorical_bias _ _); cbn [bind]; [|discriminate].
  intros H. injection H as <-. exists looped.
  cbn [self_df self_results self_log dataset_info class_balance
       numerical_distributions bias_analysis].
  repeat split; reflexivity.
Qed.

Lemma analyze_target_balance_found (self : Analyzer Stats) :
  has_column (self_df self) target_col = true ->
  exists balance,
    class_balance (self_results (analyze_target_balance self)) = Some balance /\
    dataset_info (self_results (analyze_target_balance self))
    = dataset_info (self_results self) /\
    self_df (analyze_target_balance self) = self_df self /\
    self_log (analyze_target_balance self)
    = self_log self ++ [if fgt (imbalance_ratio balance) (Some 1.5%Q)
                        then ClassImbalance else ReasonablyBalanced].
Proof.
  intros T. unfold analyze_target_balance. rewrite T. cbn [negb].
  destruct (fgt _ (Some 1.5%Q)) eqn:F;
    cbn [set_results print self_results self_log self_df class_balance
         dataset_info];
    eexists; (split; [reflexivity|]); cbn [imbalance_ratio]; rewrite F;
    repeat split; reflexivity.
Qed.

Lemma analyze_target_balance_not_found (self : Analyzer Stats) :
  has_column (self_df self) target_col = false ->
  class_balance (self_results (analyze_target_balance self))
  = class_balance (self_results self).
Proof.
  intros T. unfold analyze_target_balance. rewrite T. reflexivity.
Qed.

(** X23.  A run of the analysis that returns had its target column, and
    its report agrees with what was printed: the report carries the
    imbalance warning exactly when the imbalance line was printed, every
    bias entry of the report has its verdict among the printed lines, and
    the row and column counts of the report are those of the table. *)
Theorem report_agrees_with_console
  (data : DataFrame) (self : Analyzer Stats) (report : Report Stats) :
  run_analysis describe data = Ok (self, report) ->
  has_column data target_col = true /\
  (report_imbalance_warning report = true
   <-> In ClassImbalance (self_log self)) /\
  (report_imbalance_warning report = false
   <-> In ReasonablyBalanced (self_log self)) /\
  (forall col e, In (col, e) (report_bias report) ->
     In (if bias_detected e then BiasDetected col (bias_difference e)
         else NoSignificantBias col) (self_log self)) /\
  report_rows report = nrows data /\
  report_columns report = length data.
Proof.
  unfold run_analysis. intros H.
  set (s1 := analyze_target_balance (load_data data)) in *.
  set (s2 := analyze_numerical_distributions describe s1) in *.
  destruct (analyze_categorical_bias s2) as [s3|] eqn:B; cbn [bind] in H;
    [|discriminate].
  destruct (generate_report s3) as [rep|] eqn:R; cbn [bind] in H;
    [|discriminate].
  injection H as <- <-.
  destruct (analyze_categorical_bias_ok _ _ B)
    as (looped & L & Hdf & Hinfo & Hbal & Hdist & Hbias & Hlog).
  destruct (bias_loop_log _ _ _ _ L) as (I1 & I2 & I3).
  cbn [fst snd] in I1, I2, I3.
  unfold generate_report, create_report_content in R.
  rewrite Hinfo, Hbal, Hdist, Hbias in R.
  change (dataset_info (self_results s2))
    with (dataset_info (self_results s1)) in R.
  change (class_balance (self_results s2))
    with (class_balance (self_results s1)) in R.
  change (self_log s2) with (self_log s1) in Hlog.
  destruct (has_column data target_col) eqn:T.
  - split; [reflexivity|].
    destruct (analyze_target_balance_found (load_data data) T)
      as (balance & Eb & Ei & _ & El).
    fold s1 in Eb, Ei, El. rewrite Eb, Ei in R.
    cbn [load_data self_results self_log dataset_info results_item bind app]
      in R, El.
    injection R as <-.
    cbn [report_imbalance_warning report_bias report_rows report_columns
         info_rows info_columns].
    rewrite Hlog, El.
    change (match imbalance_ratio balance with
            | Some y => Qltb 1.5 y
            | None => false
            end)
      with (fgt (imbalance_ratio balance) (Some 1.5%Q)).
    split; [|split; [|split; [|split; reflexivity]]].
    + destruct (fgt (imbalance_ratio balance) (Some 1.5%Q)); cbn [app].
      * split; [intros _; left; reflexivity|reflexivity].
      * split; [discriminate|]. intros [E|Hin]; [discriminate E|].
        destruct (I2 Hin).
    + destruct (fgt (imbalance_ratio balance) (Some 1.5%Q)); cbn [app].
      * split; [discriminate|]. intros [E|Hin]; [discriminate E|].
        destruct (I3 Hin).
      * split; [intros _; left; reflexivity|reflexivity].
    + intros col e Hin. apply in_or_app. right.
      apply I1; [intros ? ? []|exact Hin].
  - exfalso.
    pose proof (analyze_target_balance_not_found (load_data data) T) as Eb.
    fold s1 in Eb. rewrite Eb in R.
    destruct (dataset_info (self_results s1)); cbn in R; discriminate R.
Qed.
End ReportFacts.

Lemma report_agrees_with_console_witness :
  exists self report,
    run_analysis (F64 := binary64) (fun _ : list num => tt) loans
    = Ok (self, report) /\
    has_column loans target_col = true /\
    (report_imbalance_warning report = true
     <-> In ClassImbalance (self_log self)) /\
    (report_imbalance_warning report = false
     <-> In ReasonablyBalanced (self_log self)) /\
    (forall col e, In (col, e) (report_bias report) ->
       In (if bias_detected e then BiasDetected col (bias_difference e)
           else NoSignificantBias col) (self_log self)) /\
    report_rows report = nrows loans /\
    report_columns report = length loans.
Proof.
  eexists. eexists. split; [vm_compute; reflexivity|].
  apply (report_agrees_with_console (F64 := binary64) unit
           (fun _ : list num => tt) loans).
  vm_compute. reflexivity.
Defined.

(** ** The encoder on columns with missing entries *)

Lemma encode_step_mapping (df : DataFrame) (em : EncodingMap) (name : string)
  (xs : list (option string)) :
  get_col name df = Some (ObjCol xs) ->
  nunique xs <= 10 ->
  encode_step (df, em) name
  = (update_col name (fun _ => NumCol (map_series (label_mapping xs) xs)) df,
     set_item em name (label_mapping xs)).
Proof.
  intros G Hn. unfold encode_step, label_mapping. rewrite G.
  destruct (nunique xs =? 2); [reflexivity|].
  apply Nat.leb_le in Hn. rewrite Hn. reflexivity.
Qed.

Lemma encode_step_item (acc : DataFrame * EncodingMap) (col name : string) :
  col <> name ->
  get_item (snd (encode_step acc col)) name = get_item (snd acc) name.
Proof.
  intros NE. destruct acc as [df em]. unfold encode_step. cbn [fst snd].
  destruct (get_col col df) as [[xs|xs|xs]|]; auto.
  destruct (nunique xs =? 2); [|destruct (nunique xs <=? 10)]; cbn [fst snd];
    try reflexivity; apply get_set_other; exact NE.
Qed.

Lemma encode_loop_item (cols : list string) (name : string) :
  ~ In name cols ->
  forall acc,
    get_item (snd (fold_left encode_step cols acc)) name
    = get_item (snd acc) name.
Proof.
  induction cols as [|col t IH]; intros Hn acc; [reflexivity|].
  cbn [fold_left]. rewrite IH by (intros H; apply Hn; right; exact H).
  apply encode_step_item. intros ->. apply Hn. left. reflexivity.
Qed.

(** A column with at most ten distinct values is replaced by the codes of
    its label mapping, which is recorded. *)
Lemma encode_label_mapping (df : DataFrame) (name : string)
  (xs : list (option string)) :
  well_formed df ->
  In (name, ObjCol xs) df ->
  nunique xs <= 10 ->
  get_col name (fst (encode_categorical_variables df))
  = Some (NumCol (map_series (label_mapping xs) xs)) /\
  get_item (snd (encode_categorical_variables df)) name
  = Some (label_mapping xs).
Proof.
  intros Hwf Hin Hn.
  destruct (encode_reaches_column df name xs Hwf Hin)
    as (before & after & acc & _ & Hafter & _ & G & _ & ->).
  destruct acc as [d em]. cbn [fst snd] in G.
  rewrite (encode_step_mapping d em name xs G Hn).
  destruct (encode_loop_other after name
              (NumCol (map_series (label_mapping xs) xs)) Hafter
              (update_col name
                 (fun _ => NumCol (map_series (label_mapping xs) xs)) d,
               set_item em name (label_mapping xs))) as [G' E'].
  - cbn [fst]. rewrite get_update_same, G. reflexivity.
  - split; [exact G'|]. rewrite E'. cbn [snd]. apply get_set_same.
Qed.

Lemma pets_fresh : fresh_indicator_names pets.
Proof.
  intros col level [<-|[]] [H|[]]; discriminate H.
Defined.

(** X24.  On a table none of whose columns bears an indicator name, the
    encoder records a mapping for a column exactly when the column is
    categorical and has at most ten distinct non-missing values, whether
    or not it has missing entries.  The mapping is built from the distinct
    entries in first-seen order, the missing marker among them; for
    exactly two distinct values it keeps the first two entries only.  The
    column is replaced by the codes that this mapping gives. *)
Theorem mapping_recorded_up_to_ten_values
  (df : DataFrame) (name : string) :
  well_formed df ->
  fresh_indicator_names df ->
  (forall m,
     get_item (snd (encode_categorical_variables df)) name = Some m
     <-> exists xs, In (name, ObjCol xs) df /\ nunique xs <= 10 /\
                    m = label_mapping xs) /\
  (forall xs, In (name, ObjCol xs) df -> nunique xs <= 10 ->
     get_col name (fst (encode_categorical_variables df))
     = Some (NumCol (map_series (label_mapping xs) xs))).
Proof.
  intros Hwf Hfresh.
  pose proof (fun xs => encode_label_mapping df name xs Hwf) as Hlabel.
  split; [|intros xs Hin Hn; exact (proj1 (Hlabel xs Hin Hn))].
  intros m. split.
  - intros Hm.
    destruct (in_dec string_dec name (categorical_cols df)) as [Hc|Hc].
    + unfold categorical_cols in Hc. apply in_flat_map in Hc.
      destruct Hc as [[n c] [Hin Hn]]. cbn [fst snd] in Hn.
      destruct c as [xs|xs|xs]; try contradiction. destruct Hn as [->|[]].
      exists xs. split; [exact Hin|].
      destruct (le_lt_dec (nunique xs) 10) as [H10|H10].
      * split; [exact H10|].
        rewrite (proj2 (Hlabel xs Hin H10)) in Hm. congruence.
      * exfalso.
        destruct (encode_one_hot_column df name xs Hwf Hin H10 Hfresh)
          as (_ & _ & Hg).
        congruence.
    + exfalso. unfold encode_categorical_variables in Hm.
      destruct (length (categorical_cols df) =? 0); [discriminate Hm|].
      rewrite (encode_loop_item _ name Hc) in Hm. discriminate Hm.
  - intros (xs & Hin & Hn & ->). exact (proj2 (Hlabel xs Hin Hn)).
Qed.

Lemma mapping_recorded_up_to_ten_values_witness :
  well_formed pets /\
  fresh_indicator_names pets /\
  (forall m,
     get_item (snd (encode_categorical_variables pets)) "pet" = Some m
     <-> exists xs, In ("pet"%string, ObjCol xs) pets /\ nunique xs <= 10 /\
                    m = label_mapping xs) /\
  (forall xs, In ("pet"%string, ObjCol xs) pets -> nunique xs <= 10 ->
     get_col "pet" (fst (encode_categorical_variables pets))
     = Some (NumCol (map_series (label_mapping xs) xs))).
Proof.
  split; [exact pets_well_formed|]. split; [exact pets_fresh|].
  exact (mapping_recorded_up_to_ten_values pets "pet" pets_well_formed
           pets_fresh).
Defined.

(** No column of text is left once every categorical column has been
    visited. *)
Lemma encode_loop_no_text (todo : list string) :
  NoDup todo ->
  forall acc,
    (forall n xs, In (n, ObjCol xs) (fst acc) ->
       In n todo /\ get_col n (fst acc) = Some (ObjCol xs)) ->
    forall n xs,
      ~ In (n, ObjCol xs) (fst (fold_left encode_step todo acc)).
Proof.
  induction 1 as [|col rest Hnotin Hnd' IH]; intros acc Hacc n xs Hin.
  - cbn [fold_left] in Hin. destruct (Hacc n xs Hin) as [[] _].
  - cbn [fold_left] in Hin. revert Hin. apply IH. clear n xs.
    intros n xs Hin. destruct acc as [d em]. cbn [fst] in Hacc.
    unfold encode_step in Hin |- *.
    destruct (get_col col d) as [[ys|ys|ys]|] eqn:G.
    + cbn [fst] in *. destruct (Hacc n xs Hin) as [[<-|Hr] Hg];
        [congruence|auto].
    + destruct (nunique ys =? 2); [|destruct (nunique ys <=? 10)];
        cbn [fst] in *.
      * unfold update_col in Hin. apply in_map_iff in Hin.
        destruct Hin as [[n0 c0] [E Hin0]]. cbn [fst snd] in E.
        destruct (String.eqb n0 col) eqn:Q; [discriminate E|].
        injection E as -> ->. apply String.eqb_neq in Q.
        destruct (Hacc n xs Hin0) as [[E|Hr] Hg]; [congruence|].
        split; [exact Hr|].
        rewrite get_update_other by (intros E; apply Q; symmetry; exact E).
        exact Hg.
      * unfold update_col in Hin. apply in_map_iff in Hin.
        destruct Hin as [[n0 c0] [E Hin0]]. cbn [fst snd] in E.
        destruct (String.eqb n0 col) eqn:Q; [discriminate E|].
        injection E as -> ->. apply String.eqb_neq in Q.
        destruct (Hacc n xs Hin0) as [[E|Hr] Hg]; [congruence|].
        split; [exact Hr|].
        rewrite get_update_other by (intros E; apply Q; symmetry; exact E).
        exact Hg.
      * unfold drop_col in Hin. apply filter_In in Hin.
        destruct Hin as [Hin Q]. cbn [fst] in Q.
        apply negb_true_iff, String.eqb_neq in Q.
        apply in_app_or in Hin. destruct Hin as [Hin|Hin].
        -- destruct (Hacc n xs Hin) as [[E|Hr] Hg]; [congruence|].
           split; [exact Hr|].
           rewrite get_col_drop_other
             by (intros E; apply Q; symmetry; exact E).
           apply get_col_app. exact Hg.
        -- unfold get_dummies in Hin. apply in_map_iff in Hin.
           destruct Hin as [level [E _]]. discriminate E.
    + cbn [fst] in *. destruct (Hacc n xs Hin) as [[<-|Hr] Hg];
        [congruence|auto].
    + cbn [fst] in *. destruct (Hacc n xs Hin) as [[<-|Hr] Hg];
        [congruence|auto].
Qed.

Lemma categorical_cols_none (d : DataFrame) :
  (forall n xs, ~ In (n, ObjCol xs) d) -> categorical_cols d = [].
Proof.
  intros Hd. unfold categorical_cols.
  induction d as [|[n c] t IHd]; [reflexivity|]. cbn [flat_map fst snd].
  rewrite IHd by (intros n' xs H; apply (Hd n' xs); right; exact H).
  destruct c as [xs|xs|xs]; try reflexivity.
  exfalso. apply (Hd n xs). left. reflexivity.
Qed.

(** X25.  On a table none of whose columns bears an indicator name, the
    encoder leaves no text column behind, missing entries or not: the
    table it returns has no categorical column; a categorical column with
    at most ten distinct non-missing values has become the numerical
    column of the codes of its label mapping; and one with more has gone
    from the table, where its indicator columns, all of them boolean,
    stand side by side. *)
Theorem encoder_leaves_no_text_column (df : DataFrame) :
  well_formed df ->
  fresh_indicator_names df ->
  categorical_cols (fst (encode_categorical_variables df)) = [] /\
  forall name xs,
    In (name, ObjCol xs) df ->
    (nunique xs <= 10 ->
     get_col name (fst (encode_categorical_variables df))
     = Some (NumCol (map_series (label_mapping xs) xs))) /\
    (10 < nunique xs ->
     ~ In name (columns (fst (encode_categorical_variables df))) /\
     (exists pre post,
        fst (encode_categorical_variables df)
        = pre ++ get_dummies xs name ++ post) /\
     forall n c, In (n, c) (get_dummies xs name) -> exists bs, c = BoolCol bs).
Proof.
  intros Hwf Hfresh. split.
  - destruct Hwf as [Hnd Hlen].
    unfold encode_categorical_variables.
    destruct (length (categorical_cols df) =? 0) eqn:E.
    + apply Nat.eqb_eq in E. cbn [fst].
      destruct (categorical_cols df); [reflexivity|discriminate E].
    + apply categorical_cols_none.
      apply (encode_loop_no_text _ (categorical_cols_NoDup df Hnd) (df, [])).
      intros n xs Hin. cbn [fst] in *.
      split; [eapply categorical_cols_In; exact Hin|].
      apply get_col_In; assumption.
  - intros name xs Hin. split.
    + intros Hn. exact (proj1 (encode_label_mapping df name xs Hwf Hin Hn)).
    + intros H10.
      destruct (encode_one_hot_column df name xs Hwf Hin H10 Hfresh)
        as (Hb & Hn & _).
      split; [exact Hn|]. split; [exact Hb|].
      intros n c Hc. unfold get_dummies in Hc. apply in_map_iff in Hc.
      destruct Hc as (level & E & _). injection E as _ <-. eexists.
      reflexivity.
Qed.

Lemma encoder_leaves_no_text_column_witness :
  well_formed sales /\
  fresh_indicator_names sales /\
  categorical_cols (fst (encode_categorical_variables sales)) = [] /\
  forall name xs,
    In (name, ObjCol xs) sales ->
    (nunique xs <= 10 ->
     get_col name (fst (encode_categorical_variables sales))
     = Some (NumCol (map_series (label_mapping xs) xs))) /\
    (10 < nunique xs ->
     ~ In name (columns (fst (encode_categorical_variables sales))) /\
     (exists pre post,
        fst (encode_categorical_variables sales)
        = pre ++ get_dummies xs name ++ post) /\
     forall n c, In (n, c) (get_dummies xs name) -> exists bs, c = BoolCol bs).
Proof.
  split; [exact sales_well_formed|]. split; [exact sales_fresh|].
  exact (encoder_leaves_no_text_column sales sales_well_formed sales_fresh).
Defined.

(** ** Class counts partition the labelled rows *)

Section Counting.
Variable A : Type.
Variable eqb : A -> A -> bool.
Hypothesis eqb_refl : forall a, eqb a a = true.
Hypothesis eqb_sym : forall a b, eqb a b = eqb b a.
Hypothesis eqb_trans :
  forall a b c, eqb a b = true -> eqb b c = true -> eqb a c = true.

(** Among the distinct values of a list, exactly one equals a given
    element of the list. *)
Lemma one_representative (l : list A) (x : A) :
  In x l -> length (filter (fun v => eqb v x) (unique eqb l)) = 1.
Proof.
  induction l as [|x0 t IH]; intros Hin; [contradiction|].
  cbn [unique filter]. destruct (eqb x0 x) eqn:E.
  - cbn [length]. f_equal.
    assert (Hnil : forall u : list A,
              filter (fun v => eqb v x)
                (filter (fun y => negb (eqb y x0)) u) = []).
    { induction u as [|v u IHu]; [reflexivity|]. cbn [filter].
      destruct (eqb v x0) eqn:V; cbn [negb]; [exact IHu|].
      cbn [filter]. destruct (eqb v x) eqn:W; [|exact IHu].
      exfalso. rewrite eqb_sym in E.
      rewrite (eqb_trans v x x0 W E) in V. discriminate V. }
    rewrite Hnil. reflexivity.
  - assert (Hsame : forall u : list A,
              filter (fun v => eqb v x)
                (filter (fun y => negb (eqb y x0)) u)
              = filter (fun v => eqb v x) u).
    { induction u as [|v u IHu]; [reflexivity|]. cbn [filter].
      destruct (eqb v x0) eqn:V; cbn [negb].
      - destruct (eqb v x) eqn:W; [|exact IHu].
        exfalso. rewrite eqb_sym in V.
        rewrite (eqb_trans x0 v x V W) in E. discriminate E.
      - cbn [filter]. destruct (eqb v x); [f_equal|]; exact IHu. }
    rewrite Hsame. apply IH.
    destruct Hin as [<-|Hin]; [|exact Hin].
    rewrite eqb_refl in E. discriminate E.
Qed.

Lemma list_sum_indicator (p : A -> bool) (g : A -> nat) (u : list A) :
  list_sum (map (fun v => (if p v then 1 else 0) + g v) u)
  = length (filter p u) + list_sum (map g u).
Proof.
  induction u as [|v u IH]; [reflexivity|].
  cbn [map filter]. unfold list_sum in *. cbn [fold_right]. rewrite IH.
  destruct (p v); cbn [length]; lia.
Qed.

(** The counts of the distinct values add up to the length of the list. *)
Lemma counts_add_up (l l' : list A) :
  incl l' l ->
  list_sum (map (fun v => length (filter (eqb v) l')) (unique eqb l))
  = length l'.
Proof.
  induction l' as [|y t IH]; intros Hincl.
  - cbn [filter length]. induction (unique eqb l) as [|v u IHu];
      [reflexivity|exact IHu].
  - rewrite (map_ext (fun v => length (filter (eqb v) (y :: t)))
               (fun v => (if eqb v y then 1 else 0)
                         + length (filter (eqb v) t)))
      by (intros v; cbn [filter]; destruct (eqb v y); reflexivity).
    rewrite list_sum_indicator, IH
      by (intros z Hz; apply Hincl; right; exact Hz).
    rewrite one_representative by (apply Hincl; left; reflexivity).
    reflexivity.
Qed.
End Counting.

Lemma list_sum_insert {A} (leb : A -> A -> bool) (f : A -> nat) (x : A)
  (l : list A) :
  list_sum (map f (insert leb x l)) = f x + list_sum (map f l).
Proof.
  induction l as [|y t IH]; [reflexivity|]. cbn [insert].
  destruct (leb x y); [reflexivity|].
  cbn [map]. unfold list_sum in *. cbn [fold_right]. rewrite IH. lia.
Qed.

Lemma list_sum_sort {A} (leb : A -> A -> bool) (f : A -> nat) (l : list A) :
  list_sum (map f (sort leb l)) = list_sum (map f l).
Proof.
  induction l as [|x t IH]; [reflexivity|]. cbn [sort].
  rewrite list_sum_insert. cbn [map]. unfold list_sum in *.
  cbn [fold_right]. rewrite IH. reflexivity.
Qed.

Lemma value_counts_total (cs : list cell) :
  list_sum (map snd (value_counts cs)) = length (dropna cs).
Proof.
  unfold value_counts. rewrite list_sum_sort, map_map. cbn [snd].
  apply (counts_add_up value value_eqb value_eqb_refl value_eqb_sym
           value_eqb_trans).
  intros z Hz. exact Hz.
Qed.

Section BalanceFacts.
Variable Stats : Type.
Context {F64 : Float64}.

(** X26.  When the target column is there, the class counts that
    [analyze_target_balance] stores add up to the number of rows with a
    target label and each class has at least one row; the class
    percentages are the float64 shares [count / total * 100] of these
    counts in that number; and if there is such a row, the imbalance ratio
    is the float64 quotient of the largest class count by the smallest,
    the smallest being at least 1 and at most the largest. *)
Theorem class_counts_partition_rows (self : Analyzer Stats) :
  has_column (self_df self) target_col = true ->
  exists balance,
    class_balance (self_results (analyze_target_balance self)) = Some balance /\
    list_sum (map snd (class_counts balance))
    = length (dropna (target_values (self_df self))) /\
    (forall v c, In (v, c) (class_counts balance) -> 1 <= c) /\
    class_percentages balance
    = map (fun vc =>
             (fst vc,
              percentage (snd vc)
                (length (dropna (target_values (self_df self))))))
        (class_counts balance) /\
    (dropna (target_values (self_df self)) <> [] ->
     exists mx mn,
       largest mx (map snd (class_counts balance)) /\
       smallest mn (map snd (class_counts balance)) /\
       1 <= mn <= mx /\
       imbalance_ratio balance
       = Some (f64_div (inject_Z (Z.of_nat mx)) (inject_Z (Z.of_nat mn)))).
Proof.
  intros T. unfold analyze_target_balance. rewrite T. cbn [negb].
  set (target := target_values (self_df self)).
  eexists. split.
  { destruct (fgt _ (Some 1.5%Q));
      cbn [set_results print self_results class_balance]; reflexivity. }
  cbn [class_counts class_percentages imbalance_ratio].
  pose proof (value_counts_total target) as Hsum.
  assert (Hpos : forall c, In c (map snd (value_counts target)) -> 1 <= c)
    by (intros c; apply value_counts_positive).
  split; [exact Hsum|]. split.
  { intros v c Hin. apply Hpos. apply in_map_iff. exists (v, c). auto. }
  split; [reflexivity|].
  intros Hne.
  assert (Hlen : 1 <= length (dropna target))
    by (destruct (dropna target); [congruence|simpl; lia]).
  destruct (map snd (value_counts target)) as [|c t] eqn:Ec.
  - exfalso. unfold list_sum in Hsum. simpl in Hsum. lia.
  - pose proof (list_max_largest (c :: t) ltac:(discriminate)) as Hmax.
    pose proof (smallest_of_cons c t) as Hmin.
    exists (list_max (c :: t)), (fold_right Nat.min c t).
    split; [exact Hmax|]. split; [exact Hmin|].
    split; [split; [apply Hpos, Hmin|apply Hmin, Hmax]|].
    unfold count_max, count_min, f64_fdiv.
    rewrite (inject_nat_nonzero _ (Hpos _ (proj1 Hmin))). reflexivity.
Qed.
End BalanceFacts.

Lemma class_counts_partition_rows_witness :
  has_column loans target_col = true /\
  exists balance,
    class_balance
      (self_results
         (analyze_target_balance (F64 := binary64) (@load_data unit loans)))
    = Some balance /\
    list_sum (map snd (class_counts balance))
    = length (dropna (target_values loans)) /\
    (forall v c, In (v, c) (class_counts balance) -> 1 <= c) /\
    class_percentages balance
    = map (fun vc =>
             (fst vc,
              percentage (F64 := binary64) (snd vc)
                (length (dropna (target_values loans)))))
        (class_counts balance) /\
    (dropna (target_values loans) <> [] ->
     exists mx mn,
       largest mx (map snd (class_counts balance)) /\
       smallest mn (map snd (class_counts balance)) /\
       1 <= mn <= mx /\
       imbalance_ratio balance
       = Some (f64_div (Float64 := binary64) (inject_Z (Z.of_nat mx))
                 (inject_Z (Z.of_nat mn)))).
Proof.
  split; [reflexivity|].
  exact (class_counts_partition_rows (F64 := binary64) unit (load_data loans)
           eq_refl).
Defined.

(** The shares of one class in three and two in three, computed in
    float64, do not add up to 100. *)
Example shares_do_not_add_up :
  (percentage (F64 := binary64) 1 3 + percentage (F64 := binary64) 2 3
   < 100)%Q.
Proof. vm_compute. reflexivity. Qed.

(** ** The target is not analysed as a feature *)

Lemma remove_first_NoDup (x y : string) (l : list string) :
  NoDup l -> In x (remove_first y l) -> x <> y /\ In x l.
Proof.
  induction 1 as [|z t Hz Hnd IH]; cbn [remove_first]; [contradiction|].
  destruct (String.eqb z y) eqn:E.
  - apply String.eqb_eq in E. subst z. intros Hin.
    split; [intros ->; contradiction|right; exact Hin].
  - apply String.eqb_neq in E. intros [<-|Hin]; [split; [exact E|left; auto]|].
    destruct (IH Hin) as [NE Hin']. split; [exact NE|right; exact Hin'].
Qed.

Lemma feature_cols_spec (df : DataFrame) (col : string) :
  NoDup (columns df) ->
  In col (feature_cols df) ->
  col <> target_col /\ exists xs, In (col, ObjCol xs) df.
Proof.
  intros Hnd Hin.
  assert (Hcat : forall c, In c (categorical_cols df) ->
                           exists xs, In (c, ObjCol xs) df).
  { intros c Hc. unfold categorical_cols in Hc. apply in_flat_map in Hc.
    destruct Hc as [[n c0] [Hin0 Hn]]. cbn [fst snd] in Hn.
    destruct c0 as [xs|xs|xs]; try contradiction.
    destruct Hn as [->|[]]. exists xs. exact Hin0. }
  unfold feature_cols in Hin.
  destruct (existsb (String.eqb target_col) (categorical_cols df)) eqn:E.
  - destruct (remove_first_NoDup col target_col _
                (categorical_cols_NoDup df Hnd) Hin) as [NE Hc].
    split; [exact NE|exact (Hcat col Hc)].
  - split; [|exact (Hcat col Hin)].
    intros ->.
    assert (Ht : existsb (String.eqb target_col) (categorical_cols df) = true).
    { apply existsb_exists. exists target_col.
      split; [exact Hin|apply String.eqb_refl]. }
    congruence.
Qed.

Lemma bias_loop_keys {F64 : Float64} (df : DataFrame) (cols : list string) :
  forall acc acc',
    fold_left (fun r col => do a <- r; bias_step df a col) cols (Ok acc)
    = Ok acc' ->
    forall col e, In (col, e) (fst acc') ->
      In col cols \/ exists e', In (col, e') (fst acc).
Proof.
  induction cols as [|c t IH]; intros acc acc' H col e Hin.
  - simpl in H. injection H as <-. right. exists e. exact Hin.
  - cbn [fold_left bind] in H.
    destruct (bias_step df acc c) as [acc1|err] eqn:S;
      [|rewrite bias_loop_raise in H; discriminate].
    destruct (IH acc1 acc' H col e Hin) as [Hc|[e' He']];
      [left; right; exact Hc|].
    destruct acc as [analysis printed].
    destruct (bias_step_ok df analysis printed c acc1 S) as [->|[entry ->]];
      [right; exists e'; exact He'|].
    cbn [fst] in He'. apply In_set_item in He'.
    destruct He' as [[-> _]|He']; [left; left; reflexivity|].
    right. exists e'. exact He'.
Qed.

Section FeatureFacts.
Variable Stats : Type.
Context {F64 : Float64}.

(** X27.  The bias analysis never treats the target as a feature: every
    entry that it stores belongs to a categorical column of the table
    other than the target column. *)
Theorem target_never_a_feature
  (self self' : Analyzer Stats) (entries : list (string * BiasEntry))
  (col : string) (e : BiasEntry) :
  NoDup (columns (self_df self)) ->
  analyze_categorical_bias self = Ok self' ->
  bias_analysis (self_results self') = Some entries ->
  In (col, e) entries ->
  col <> target_col /\ exists xs, In (col, ObjCol xs) (self_df self).
Proof.
  intros Hnd H Hres Hin. unfold analyze_categorical_bias in H.
  destruct (fold_left _ (feature_cols (self_df self)) (Ok ([], [])))
    as [looped|] eqn:L; cbn [bind] in H; [|discriminate].
  destruct (plot_categorical_bias _ _); cbn [bind] in H; [|discriminate].
  injection H as <-. cbn [self_results bias_analysis] in Hres.
  injection Hres as <-.
  destruct (bias_loop_keys _ _ _ _ L col e Hin) as [Hc|[e' []]].
  exact (feature_cols_spec (self_df self) col Hnd Hc).
Qed.
End FeatureFacts.

Lemma target_never_a_feature_witness :
  exists self' entries e,
    NoDup (columns loans) /\
    analyze_categorical_bias (F64 := binary64) (@load_data unit loans)
    = Ok self' /\
    bias_analysis (self_results self') = Some entries /\
    In ("gender"%string, e) entries /\
    "gender"%string <> target_col /\
    exists xs, In ("gender"%string, ObjCol xs) loans.
Proof.
  assert (Hnd : NoDup (columns loans)).
  { repeat constructor; simpl; intuition discriminate. }
  eexists. eexists. eexists. split; [exact Hnd|].
  split; [vm_compute; reflexivity|].
  split; [reflexivity|]. split; [left; reflexivity|].
  refine (target_never_a_feature (F64 := binary64) unit (load_data loans)
            _ _ "gender" _ Hnd
            _ _ _).
  - vm_compute. reflexivity.
  - reflexivity.
  - left. reflexivity.
Defined.
